(** * Ambient pad player: the pad engine of [usePadEngine]

    The repository holds two versions of the React hook [usePadEngine]:
    the one with a master volume, an action id and a [stop] callback (module
    [Volume] below), and the earlier, simpler one of [src/App.jsx] (module
    [Simple]).  Both drive the browser's Web Audio API; the part of that API
    the hooks call is modelled in [WebAudio], the JavaScript string and
    number operations they use in [Js].

    An asynchronous [playKey] is split where the source awaits: the
    synchronous part up to [await loadBuffer(key)] leaves a [PendingPlay]
    behind, and the rest runs when the load settles. *)

From Stdlib Require Import ZArith QArith Ascii String.
From stdpp Require Import gmap strings list.
Close Scope Q_scope.

(** ** JavaScript strings and numbers *)

Module Js.

(** A JavaScript string is represented by the bytes of its UTF-8
    encoding; the twelve key names, the paths and the extensions are
    ASCII. *)

(** [s.replace(pat, rep)] with a string pattern: only the first
    occurrence of [pat] is replaced ([rep] has no [$] pattern here). *)
Fixpoint replace (pat rep s : string) : string :=
  if String.prefix pat s then rep +:+ String.substring (String.length pat) (String.length s - String.length pat) s
  else match s with
       | EmptyString => EmptyString
       | String c s' => String c (replace pat rep s')
       end.

Definition is_digit (c : ascii) : bool :=
  let n := nat_of_ascii c in (48 <=? n) && (n <=? 57).
Definition is_upper (c : ascii) : bool :=
  let n := nat_of_ascii c in (65 <=? n) && (n <=? 90).
Definition is_lower (c : ascii) : bool :=
  let n := nat_of_ascii c in (97 <=? n) && (n <=? 122).

(** The characters [encodeURIComponent] leaves alone:
    [A-Z a-z 0-9 - _ . ! ~ * ' ( )]. *)
Definition unreserved (c : ascii) : bool :=
  is_digit c || is_upper c || is_lower c
  || existsb (Ascii.eqb c) (list_ascii_of_string "-_.!~*'()").

Definition hex_digit (n : nat) : ascii :=
  if n <? 10 then ascii_of_nat (48 + n) else ascii_of_nat (55 + n).

Definition percent_encode (c : ascii) : string :=
  let n := nat_of_ascii c in
  String "%" (String (hex_digit (n / 16)) (String (hex_digit (n mod 16)) EmptyString)).

(** [encodeURIComponent(s)]: every byte of the UTF-8 encoding that is not
    an unreserved character becomes [%XX]. *)
Fixpoint encodeURIComponent (s : string) : string :=
  match s with
  | EmptyString => EmptyString
  | String c s' =>
      (if unreserved c then String c EmptyString else percent_encode c)
      +:+ encodeURIComponent s'
  end.

(** [++n] on a number holding a non-negative integer: exact below
    [2^53]; at [2^53] the sum rounds back to [2^53]. *)
Definition pre_increment (n : Z) : Z :=
  if (n <? 2 ^ 53)%Z then (n + 1)%Z else n.

(** [a === b] where [a] may be [null] and [b] is a string. *)
Definition strict_eq (a : option string) (b : string) : bool :=
  match a with
  | Some a' => String.eqb a' b
  | None => false
  end.

End Js.

(** ** The Web Audio objects the hooks use *)

Module WebAudio.

Definition Qltb (x y : Q) : bool := negb (Qle_bool y x).

(** Decoded audio data, named by a handle. *)
Definition AudioBuffer := nat.

(** *** AudioParam: a current value and a timeline of automation events *)

Inductive AutoEvent :=
| SetValueAt (v t : Q)
| LinearRampTo (v t : Q).

Definition ev_time (e : AutoEvent) : Q :=
  match e with SetValueAt _ t | LinearRampTo _ t => t end.

Definition same_kind (a b : AutoEvent) : bool :=
  match a, b with
  | SetValueAt _ _, SetValueAt _ _ | LinearRampTo _ _, LinearRampTo _ _ => true
  | _, _ => false
  end.

Record AudioParam := { value : Q; events : list AutoEvent }.

(** [param.value = v] *)
Definition set_value (v : Q) (p : AudioParam) : AudioParam :=
  {| value := v; events := events p |}.

(** The events of a timeline that come before time [t]. *)
Definition earlier (t : Q) (evs : list AutoEvent) : list AutoEvent :=
  List.filter (fun e => Qltb (ev_time e) t) evs.

(** [param.cancelScheduledValues(t)]: drops every event at or after [t];
    the current value is left as it is. *)
Definition cancelScheduledValues (t : Q) (p : AudioParam) : AudioParam :=
  {| value := value p; events := earlier t (events p) |}.

(** Events are kept in time order; a new event goes after the events
    of the same time, and replaces one of the same kind and time. *)
Fixpoint schedule (e : AutoEvent) (evs : list AutoEvent) : list AutoEvent :=
  match evs with
  | [] => [e]
  | e' :: rest =>
      if Qltb (ev_time e) (ev_time e') then e :: evs
      else if Qeq_bool (ev_time e) (ev_time e') && same_kind e e' then e :: rest
      else e' :: schedule e rest
  end.

(** [param.setValueAtTime(v, t)] *)
Definition setValueAtTime (v t : Q) (p : AudioParam) : AudioParam :=
  {| value := value p; events := schedule (SetValueAt v t) (events p) |}.

(** [param.linearRampToValueAtTime(v, t)] *)
Definition linearRampToValueAtTime (v t : Q) (p : AudioParam) : AudioParam :=
  {| value := value p; events := schedule (LinearRampTo v t) (events p) |}.

(** The value the timeline gives at time [t], in exact arithmetic:
    [v0] at [t0] is the value and time of the event before [evs]. *)
Fixpoint timeline (v0 t0 : Q) (evs : list AutoEvent) (t : Q) : Q :=
  match evs with
  | [] => v0
  | SetValueAt v te :: rest =>
      if Qltb t te then v0 else timeline v te rest t
  | LinearRampTo v te :: rest =>
      if Qltb t te then (v0 + (v - v0) * ((t - t0) / (te - t0)))%Q
      else timeline v te rest t
  end.

Definition value_at (p : AudioParam) (t : Q) : Q :=
  timeline (value p) 0 (events p) t.

(** What the rendering thread does to a parameter when the clock
    reaches [t]: the current value becomes the timeline's value. *)
Definition render (t : Q) (p : AudioParam) : AudioParam :=
  {| value := value_at p t; events := events p |}.

(** *** Nodes *)

Inductive Destination :=
| ToDestination          (* ctx.destination *)
| ToGain (node : nat).

Record GainNode := { gain : AudioParam; gain_out : option Destination }.

Record BufferSource := {
  buffer : option AudioBuffer;
  loop : bool;
  source_out : option nat;      (* the gain node it feeds *)
  started : bool;
  stopped : bool
}.

(** [ctx.createGain()]: gain 1, not connected. *)
Definition createGain : GainNode :=
  {| gain := {| value := 1; events := [] |}; gain_out := None |}.

(** [ctx.createBufferSource()] *)
Definition createBufferSource : BufferSource :=
  {| buffer := None; loop := false; source_out := None;
     started := false; stopped := false |}.

Definition on_gain (f : AudioParam -> AudioParam) (g : GainNode) : GainNode :=
  {| gain := f (gain g); gain_out := gain_out g |}.

Definition connect_gain (d : Destination) (g : GainNode) : GainNode :=
  {| gain := gain g; gain_out := Some d |}.

Definition set_buffer (b : AudioBuffer) (s : BufferSource) : BufferSource :=
  {| buffer := Some b; loop := loop s; source_out := source_out s;
     started := started s; stopped := stopped s |}.

Definition set_loop (l : bool) (s : BufferSource) : BufferSource :=
  {| buffer := buffer s; loop := l; source_out := source_out s;
     started := started s; stopped := stopped s |}.

Definition connect_source (g : nat) (s : BufferSource) : BufferSource :=
  {| buffer := buffer s; loop := loop s; source_out := Some g;
     started := started s; stopped := stopped s |}.

(** [src.start()] *)
Definition start (s : BufferSource) : BufferSource :=
  {| buffer := buffer s; loop := loop s; source_out := source_out s;
     started := true; stopped := stopped s |}.

(** [try { src.stop(); } catch {}]: a second stop, or a stop of a source
    that never started, changes nothing. *)
Definition try_stop (s : BufferSource) : BufferSource :=
  {| buffer := buffer s; loop := loop s; source_out := source_out s;
     started := started s; stopped := started s || stopped s |}.

(** *** The context *)

Inductive ContextState := Suspended | Running | Closed.

Record AudioContext := {
  state : ContextState;
  currentTime : Q;             (* seconds *)
  resumes : nat                (* calls of ctx.resume() so far *)
}.

Definition is_suspended (c : AudioContext) : bool :=
  match state c with Suspended => true | _ => false end.

(** [ctx.resume()]: the state changes later, when the browser grants it. *)
Definition resume (c : AudioContext) : AudioContext :=
  {| state := state c; currentTime := currentTime c; resumes := S (resumes c) |}.

End WebAudio.

Import WebAudio.

(** ** The state of a hook instance and of the page around it *)

(** The options of [usePadEngine]; the simpler hook has no
    [initialVolume]. *)
Record Config := {
  fadeMs : Q;
  basePath : string;
  ext : string;
  initialVolume : Q
}.

(** [{ key, src, gain }]: the nodes are named by their index in the
    page's node tables, so that two records can share a node. *)
Record Pad := {
  pad_key : option string;
  pad_src : option nat;
  pad_gain : option nat
}.

Definition no_pad : Pad := {| pad_key := None; pad_src := None; pad_gain := None |}.

(** What an awaited [loadBuffer(key)] is waiting for. *)
Inductive Loading :=
| CacheHit (cached : AudioBuffer)
| Fetching (url : string).

(** How a fetch-and-decode ends. *)
Inductive Outcome :=
| FetchRejected              (* fetch(url) rejects *)
| ResponseNotOk              (* !res.ok *)
| BodyRejected               (* res.arrayBuffer() rejects *)
| DecodeRejected             (* ctx.decodeAudioData(arr) rejects *)
| Decoded (buf : AudioBuffer).

Inductive JsError :=
| FailedToLoad (url : string)    (* new Error(`Failed to load ${url}`) *)
| NetworkError
| BodyError
| DecodeError
| TypeError.

(** A [playKey] call suspended at [await loadBuffer(key)]: the variables
    its continuation closes over.  The simpler hook has no [myId]. *)
Record PendingPlay := {
  myId : Z;
  op_key : string;
  op_load : Loading
}.

(** [setTimeout(() => { try { old.src.stop(); } catch {} }, delay)] *)
Record Timer := {
  delay : Q;                 (* milliseconds *)
  timer_src : nat
}.

(** The refs and state of the hook, followed by the page: the audio nodes
    created so far, the pending timers, the URLs fetched, the console and
    the suspended [playKey] calls.  The simpler hook has no
    [masterGainRef], [volume] and [actionIdRef]; its functions leave them
    alone. *)
Record Engine := {
  ctxRef : option AudioContext;
  masterGainRef : option nat;
  currentRef : Pad;
  activeKey : option string;
  volume : Q;
  cacheRef : gmap string AudioBuffer;
  actionIdRef : Z;
  gains : list GainNode;
  sources : list BufferSource;
  timers : list Timer;
  fetched : list string;
  console : list JsError;
  pending : list PendingPlay;
  allowed_to_start : bool      (* may a new context start running at once? *)
}.

Definition set_ctxRef (v : option AudioContext) (e : Engine) : Engine :=
  {| ctxRef := v; masterGainRef := masterGainRef e; currentRef := currentRef e;
     activeKey := activeKey e; volume := volume e; cacheRef := cacheRef e;
     actionIdRef := actionIdRef e; gains := gains e; sources := sources e;
     timers := timers e; fetched := fetched e; console := console e;
     pending := pending e; allowed_to_start := allowed_to_start e |}.

Definition set_masterGainRef (v : option nat) (e : Engine) : Engine :=
  {| ctxRef := ctxRef e; masterGainRef := v; currentRef := currentRef e;
     activeKey := activeKey e; volume := volume e; cacheRef := cacheRef e;
     actionIdRef := actionIdRef e; gains := gains e; sources := sources e;
     timers := timers e; fetched := fetched e; console := console e;
     pending := pending e; allowed_to_start := allowed_to_start e |}.

Definition set_currentRef (v : Pad) (e : Engine) : Engine :=
  {| ctxRef := ctxRef e; masterGainRef := masterGainRef e; currentRef := v;
     activeKey := activeKey e; volume := volume e; cacheRef := cacheRef e;
     actionIdRef := actionIdRef e; gains := gains e; sources := sources e;
     timers := timers e; fetched := fetched e; console := console e;
     pending := pending e; allowed_to_start := allowed_to_start e |}.

Definition setActiveKey (v : option string) (e : Engine) : Engine :=
  {| ctxRef := ctxRef e; masterGainRef := masterGainRef e; currentRef := currentRef e;
     activeKey := v; volume := volume e; cacheRef := cacheRef e;
     actionIdRef := actionIdRef e; gains := gains e; sources := sources e;
     timers := timers e; fetched := fetched e; console := console e;
     pending := pending e; allowed_to_start := allowed_to_start e |}.

Definition set_volume (v : Q) (e : Engine) : Engine :=
  {| ctxRef := ctxRef e; masterGainRef := masterGainRef e; currentRef := currentRef e;
     activeKey := activeKey e; volume := v; cacheRef := cacheRef e;
     actionIdRef := actionIdRef e; gains := gains e; sources := sources e;
     timers := timers e; fetched := fetched e; console := console e;
     pending := pending e; allowed_to_start := allowed_to_start e |}.

Definition set_cacheRef (v : gmap string AudioBuffer) (e : Engine) : Engine :=
  {| ctxRef := ctxRef e; masterGainRef := masterGainRef e; currentRef := currentRef e;
     activeKey := activeKey e; volume := volume e; cacheRef := v;
     actionIdRef := actionIdRef e; gains := gains e; sources := sources e;
     timers := timers e; fetched := fetched e; console := console e;
     pending := pending e; allowed_to_start := allowed_to_start e |}.

Definition set_actionIdRef (v : Z) (e : Engine) : Engine :=
  {| ctxRef := ctxRef e; masterGainRef := masterGainRef e; currentRef := currentRef e;
     activeKey := activeKey e; volume := volume e; cacheRef := cacheRef e;
     actionIdRef := v; gains := gains e; sources := sources e;
     timers := timers e; fetched := fetched e; console := console e;
     pending := pending e; allowed_to_start := allowed_to_start e |}.

Definition set_gains (v : list GainNode) (e : Engine) : Engine :=
  {| ctxRef := ctxRef e; masterGainRef := masterGainRef e; currentRef := currentRef e;
     activeKey := activeKey e; volume := volume e; cacheRef := cacheRef e;
     actionIdRef := actionIdRef e; gains := v; sources := sources e;
     timers := timers e; fetched := fetched e; console := console e;
     pending := pending e; allowed_to_start := allowed_to_start e |}.

Definition set_sources (v : list BufferSource) (e : Engine) : Engine :=
  {| ctxRef := ctxRef e; masterGainRef := masterGainRef e; currentRef := currentRef e;
     activeKey := activeKey e; volume := volume e; cacheRef := cacheRef e;
     actionIdRef := actionIdRef e; gains := gains e; sources := v;
     timers := timers e; fetched := fetched e; console := console e;
     pending := pending e; allowed_to_start := allowed_to_start e |}.

Definition set_timers (v : list Timer) (e : Engine) : Engine :=
  {| ctxRef := ctxRef e; masterGainRef := masterGainRef e; currentRef := currentRef e;
     activeKey := activeKey e; volume := volume e; cacheRef := cacheRef e;
     actionIdRef := actionIdRef e; gains := gains e; sources := sources e;
     timers := v; fetched := fetched e; console := console e;
     pending := pending e; allowed_to_start := allowed_to_start e |}.

Definition set_fetched (v : list string) (e : Engine) : Engine :=
  {| ctxRef := ctxRef e; masterGainRef := masterGainRef e; currentRef := currentRef e;
     activeKey := activeKey e; volume := volume e; cacheRef := cacheRef e;
     actionIdRef := actionIdRef e; gains := gains e; sources := sources e;
     timers := timers e; fetched := v; console := console e;
     pending := pending e; allowed_to_start := allowed_to_start e |}.

Definition set_console (v : list JsError) (e : Engine) : Engine :=
  {| ctxRef := ctxRef e; masterGainRef := masterGainRef e; currentRef := currentRef e;
     activeKey := activeKey e; volume := volume e; cacheRef := cacheRef e;
     actionIdRef := actionIdRef e; gains := gains e; sources := sources e;
     timers := timers e; fetched := fetched e; console := v;
     pending := pending e; allowed_to_start := allowed_to_start e |}.

Definition set_pending (v : list PendingPlay) (e : Engine) : Engine :=
  {| ctxRef := ctxRef e; masterGainRef := masterGainRef e; currentRef := currentRef e;
     activeKey := activeKey e; volume := volume e; cacheRef := cacheRef e;
     actionIdRef := actionIdRef e; gains := gains e; sources := sources e;
     timers := timers e; fetched := fetched e; console := console e;
     pending := v; allowed_to_start := allowed_to_start e |}.

(** The page before the hook has done anything; [useState(initialVolume)]
    gives [volume] its first value. *)
Definition mount (cfg : Config) (allowed : bool) : Engine :=
  {| ctxRef := None; masterGainRef := None; currentRef := no_pad;
     activeKey := None; volume := initialVolume cfg; cacheRef := ∅;
     actionIdRef := 0; gains := []; sources := []; timers := [];
     fetched := []; console := []; pending := [];
     allowed_to_start := allowed |}.

(** *** Page operations shared by the two hooks *)

(** [new AudioContext()] *)
Definition new_context (allowed : bool) : AudioContext :=
  {| state := if allowed then Running else Suspended;
     currentTime := 0; resumes := 0 |}.

(** [fetch(url)] *)
Definition fetch (url : string) (e : Engine) : Engine :=
  set_fetched (fetched e ++ [url]) e.

(** [console.error(err)] *)
Definition console_error (err : JsError) (e : Engine) : Engine :=
  set_console (console e ++ [err]) e.

(** [setTimeout(() => { try { src.stop(); } catch {} }, ms)] *)
Definition setTimeout (s : nat) (ms : Q) (e : Engine) : Engine :=
  set_timers (timers e ++ [{| delay := ms; timer_src := s |}]) e.

(** [cancelScheduledValues(t0); setValueAtTime(from, t0);
    linearRampToValueAtTime(to, t1)] on one parameter. *)
Definition ramp (from to t0 t1 : Q) (p : AudioParam) : AudioParam :=
  linearRampToValueAtTime to t1 (setValueAtTime from t0 (cancelScheduledValues t0 p)).

(** The part of [loadBuffer] after its awaits, the same in both hooks:
    [if (!res.ok) throw ...; ...; cacheRef.current.set(key, buf); return buf]. *)
Definition loadBuffer_settle (k : string) (ld : Loading) (o : Outcome) (e : Engine)
  : Engine * (JsError + AudioBuffer) :=
  match ld with
  | CacheHit cached => (e, inr cached)
  | Fetching url =>
      match o with
      | FetchRejected => (e, inl NetworkError)
      | ResponseNotOk => (e, inl (FailedToLoad url))
      | BodyRejected => (e, inl BodyError)
      | DecodeRejected => (e, inl DecodeError)
      | Decoded buf => (set_cacheRef (<[k:=buf]> (cacheRef e)) e, inr buf)
      end
  end.

(** The events of the page that are not calls of the hook. *)

(** A pending timer fires. *)
Definition fire_timer (i : nat) (e : Engine) : Engine :=
  match timers e !! i with
  | Some tm =>
      set_sources (alter try_stop (timer_src tm) (sources e))
        (set_timers (delete i (timers e)) e)
  | None => e
  end.

(** The audio clock reaches [t]. *)
Definition advance_clock (t : Q) (e : Engine) : Engine :=
  match ctxRef e with
  | Some ctx =>
      if Qle_bool (currentTime ctx) t then
        set_gains (on_gain (render t) <$> gains e)
          (set_ctxRef (Some {| state := state ctx; currentTime := t;
                               resumes := resumes ctx |}) e)
      else e
  | None => e
  end.

(** The browser suspends the context or lets it run. *)
Definition context_state (st : ContextState) (e : Engine) : Engine :=
  match ctxRef e with
  | Some ctx =>
      set_ctxRef (Some {| state := st; currentTime := currentTime ctx;
                          resumes := resumes ctx |}) e
  | None => e
  end.

(** ** The hook with master volume, action id and [stop] *)

Module Volume.

Definition KEYS : list string :=
  ["C"; "C#"; "D"; "D#"; "E"; "F"; "F#"; "G"; "G#"; "A"; "A#"; "B"].
Definition AUDIO_BASE : string := "/sounds/".
Definition AUDIO_EXT : string := ".mp3".
Definition FADE_MS : Q := 2000.
Definition DEFAULT_VOL : Q := 4 # 5.

(** [usePadEngine()] as [App] calls it: every option at its default. *)
Definition defaults : Config :=
  {| fadeMs := FADE_MS; basePath := AUDIO_BASE; ext := AUDIO_EXT;
     initialVolume := DEFAULT_VOL |}.

Section Hook.
Variable cfg : Config.

Definition ensureCtx (e : Engine) : Engine :=
  let e1 :=
    match ctxRef e with
    | Some _ => e
    | None =>
        let ctx := new_context (allowed_to_start e) in
        (* create master gain once *)
        let master :=
          connect_gain ToDestination
            (on_gain (set_value (initialVolume cfg)) createGain) in
        set_masterGainRef (Some (length (gains e)))
          (set_gains (gains e ++ [master]) (set_ctxRef (Some ctx) e))
    end in
  match ctxRef e1 with
  | Some ctx =>
      if is_suspended ctx then set_ctxRef (Some (resume ctx)) e1 else e1
  | None => e1
  end.

(** The effect that applies [volume] to the master gain. *)
Definition volume_effect (e : Engine) : Engine :=
  match masterGainRef e, ctxRef e with
  | Some master, Some ctx =>
      let t0 := currentTime ctx in
      set_gains
        (alter (on_gain (fun p =>
                  setValueAtTime (volume e) t0 (cancelScheduledValues t0 p)))
               master (gains e)) e
  | _, _ => e
  end.

(** [setVolume(level)], the setter of [useState]: a level equal to the
    stored one changes nothing and runs no effect; otherwise the hook
    renders again and the effect, which depends on [volume], runs. *)
Definition setVolume (level : Q) (e : Engine) : Engine :=
  if Qeq_bool level (volume e) then e
  else volume_effect (set_volume level e).

Definition filename (key : string) : string :=
  Js.replace "#" "sharp" key +:+ ext cfg.

(** [loadBuffer(key)] up to its first await. *)
Definition loadBuffer (key : string) (e : Engine) : Engine * Loading :=
  match cacheRef e !! key with
  | Some cached => (e, CacheHit cached)
  | None =>
      let url := basePath cfg +:+ filename key in
      let e1 := ensureCtx e in
      (fetch url e1, Fetching url)
  end.

Definition stop (e : Engine) : Engine :=
  let old := currentRef e in
  match ctxRef e, pad_gain old, pad_src old with
  | Some ctx, Some g, Some s =>
      let t0 := currentTime ctx in
      let fadeSec := (fadeMs cfg / 1000)%Q in
      let e1 :=
        set_gains
          (alter (on_gain (fun p =>
                    let p1 := cancelScheduledValues t0 p in
                    let p2 := setValueAtTime (value p1) t0 p1 in
                    linearRampToValueAtTime 0 (t0 + fadeSec) p2))
                 g (gains e)) e in
      let e2 := setTimeout s (fadeMs cfg + 60) e1 in
      setActiveKey None (set_currentRef no_pad e2)
  | _, _, _ => setActiveKey None e
  end.

(** [playKey(key)] up to [await loadBuffer(key)]. *)
Definition playKey (key : string) (e : Engine) : Engine :=
  (* If same key pressed -> stop instead *)
  if Js.strict_eq (pad_key (currentRef e)) key then stop e
  else
    let id := Js.pre_increment (actionIdRef e) in
    let e1 := set_actionIdRef id e in
    let e2 := setActiveKey (Some key) e1 in
    let e3 := ensureCtx e2 in
    let '(e4, ld) := loadBuffer key e3 in
    set_pending (pending e4 ++ [{| myId := id; op_key := key; op_load := ld |}]) e4.

(** The [catch] block of [playKey]. *)
Definition playKey_catch (id : Z) (err : JsError) (e : Engine) : Engine :=
  let e1 := console_error err e in
  if (id =? actionIdRef e1)%Z then setActiveKey None e1 else e1.

(** [playKey] from the moment its load settles.  The [ctx] of the
    source is the object [ensureCtx] returned before the await, the
    one [ctxRef] holds; a missing context or master gain is a
    [TypeError] in the [try] block. *)
Definition playKey_resume (op : PendingPlay) (o : Outcome) (e : Engine) : Engine :=
  match loadBuffer_settle (op_key op) (op_load op) o e with
  | (e1, inl err) => playKey_catch (myId op) err e1
  | (e1, inr buf) =>
      if negb (myId op =? actionIdRef e1)%Z then e1   (* stale request *)
      else
        match ctxRef e1 with
        | None => playKey_catch (myId op) TypeError e1
        | Some ctx =>
            (* New source at 0 gain, connect -> master -> destination *)
            let s := length (sources e1) in
            let g := length (gains e1) in
            let source := set_loop true (set_buffer buf createBufferSource) in
            let node := on_gain (set_value 0) createGain in
            match masterGainRef e1 with
            | None =>
                playKey_catch (myId op) TypeError
                  (set_gains (gains e1 ++ [node])
                     (set_sources (sources e1 ++ [source]) e1))
            | Some master =>
                let node := connect_gain (ToGain master) node in
                let source := start (connect_source g source) in
                (* Simultaneous crossfade *)
                let old := currentRef e1 in
                let t0 := currentTime ctx in
                let fadeSec := (fadeMs cfg / 1000)%Q in
                (* New: 0 -> 1 *)
                let node := on_gain (ramp 0 1 t0 (t0 + fadeSec)) node in
                let e2 :=
                  set_gains (gains e1 ++ [node])
                    (set_sources (sources e1 ++ [source]) e1) in
                (* Old: current -> 0 *)
                let e3 :=
                  match pad_gain old, pad_src old with
                  | Some og, Some os =>
                      setTimeout os (fadeMs cfg + 60)
                        (set_gains
                           (alter (on_gain (fun p =>
                                     let startVal := value p in
                                     ramp startVal 0 t0 (t0 + fadeSec) p))
                                  og (gains e2)) e2)
                  | _, _ => e2
                  end in
                set_currentRef
                  {| pad_key := Some (op_key op); pad_src := Some s;
                     pad_gain := Some g |} e3
            end
        end
  end.

(** The [i]-th suspended [playKey] resumes with outcome [o]. *)
Definition settle (i : nat) (o : Outcome) (e : Engine) : Engine :=
  match pending e !! i with
  | Some op => playKey_resume op o (set_pending (delete i (pending e)) e)
  | None => e
  end.

(** What can happen to the page: the buttons of [App] (one per entry
    of [KEYS], and Stop), the volume slider with its 0..100 range, and
    the browser's own events. *)
Inductive Event :=
| ClickKey (i : nat)
| ClickStop
| Slide (percent : nat)
| Settles (i : nat) (o : Outcome)
| TimerFires (i : nat)
| Clock (t : Q)
| ContextTurns (st : ContextState).

Definition step (e : Engine) (ev : Event) : Engine :=
  match ev with
  | ClickKey i =>
      match KEYS !! i with Some k => playKey k e | None => e end
  | ClickStop => stop e
  | Slide percent =>
      if percent <=? 100 then setVolume (Z.of_nat percent # 100) e else e
  | Settles i o => settle i o e
  | TimerFires i => fire_timer i e
  | Clock t => advance_clock t e
  | ContextTurns st => context_state st e
  end.

Definition run (evs : list Event) (e : Engine) : Engine :=
  fold_left step evs e.

End Hook.

End Volume.

(** ** The simpler hook of [src/App.jsx]

    No master gain, no action id, no toggle and no [stop] of its own.
    Its cleanup effect, which stops the current source and closes the
    context when the component unmounts, ends the life of the page and is
    not an event of the model. *)

Module Simple.

Definition KEYS : list string :=
  ["C"; "C#"; "D"; "D#"; "E"; "F"; "F#"; "G"; "G#"; "A"; "A#"; "B"].
Definition AUDIO_BASE : string := "/sounds/".
Definition AUDIO_EXT : string := ".mp3".
Definition FADE_MS : Q := 1200.

(** [usePadEngine()] as [App] calls it; the hook has no
    [initialVolume] option, the field is not read. *)
Definition defaults : Config :=
  {| fadeMs := FADE_MS; basePath := AUDIO_BASE; ext := AUDIO_EXT;
     initialVolume := 1 |}.

Section Hook.
Variable cfg : Config.

Definition ensureCtx (e : Engine) : Engine :=
  let e1 :=
    match ctxRef e with
    | Some _ => e
    | None => set_ctxRef (Some (new_context (allowed_to_start e))) e
    end in
  match ctxRef e1 with
  | Some ctx =>
      if is_suspended ctx then set_ctxRef (Some (resume ctx)) e1 else e1
  | None => e1
  end.

(** [loadBuffer(key)] up to its first await. *)
Definition loadBuffer (key : string) (e : Engine) : Engine * Loading :=
  match cacheRef e !! key with
  | Some cached => (e, CacheHit cached)
  | None =>
      let filename := key +:+ ext cfg in
      let url := basePath cfg +:+ Js.encodeURIComponent filename in
      let e1 := ensureCtx e in
      (fetch url e1, Fetching url)
  end.

(** [old.gain.gain.value]; the gain node of a pad is in the table. *)
Definition gain_value (g : nat) (e : Engine) : Q :=
  match gains e !! g with
  | Some node => value (gain node)
  | None => 0
  end.

(** [fade(gainNode, from, to, ms)]; [None] is the [TypeError] of
    reading [currentTime] off a null [ctxRef.current]. *)
Definition fade (gainNode : nat) (from to ms : Q) (e : Engine) : option Engine :=
  match ctxRef e with
  | Some ctx =>
      let t0 := currentTime ctx in
      Some (set_gains
              (alter (on_gain (ramp from to t0 (t0 + ms / 1000)%Q))
                     gainNode (gains e)) e)
  | None => None
  end.

(** [playKey(key)] up to [await loadBuffer(key)]. *)
Definition playKey (key : string) (e : Engine) : Engine :=
  (* 1) Visually highlight immediately *)
  let e1 := setActiveKey (Some key) e in
  let e2 := ensureCtx e1 in
  let '(e3, ld) := loadBuffer key e2 in
  set_pending (pending e3 ++ [{| myId := 0; op_key := key; op_load := ld |}]) e3.

(** The [catch] block: [setActiveKey((k) => (k === key ? null : k))]. *)
Definition playKey_catch (key : string) (err : JsError) (e : Engine) : Engine :=
  let e1 := console_error err e in
  setActiveKey (if Js.strict_eq (activeKey e1) key then None else activeKey e1) e1.

(** [playKey] from the moment its load settles. *)
Definition playKey_resume (op : PendingPlay) (o : Outcome) (e : Engine) : Engine :=
  let key := op_key op in
  match loadBuffer_settle key (op_load op) o e with
  | (e1, inl err) => playKey_catch key err e1
  | (e1, inr buf) =>
      match ctxRef e1 with
      | None => playKey_catch key TypeError e1
      | Some ctx =>
          (* New source + gain *)
          let s := length (sources e1) in
          let g := length (gains e1) in
          let node :=
            connect_gain ToDestination (on_gain (set_value 0) createGain) in
          let source :=
            start (connect_source g
                     (set_loop true (set_buffer buf createBufferSource))) in
          let e2 :=
            set_gains (gains e1 ++ [node])
              (set_sources (sources e1 ++ [source]) e1) in
          (* Crossfade old -> new *)
          let old := currentRef e2 in
          let faded_old :=
            match pad_src old, pad_gain old with
            | Some os, Some og =>
                match fade og (gain_value og e2) 0 (fadeMs cfg) e2 with
                | Some e' => Some (setTimeout os (fadeMs cfg + 60) e')
                | None => None
                end
            | _, _ => Some e2
            end in
          match faded_old with
          | None => playKey_catch key TypeError e2
          | Some e3 =>
              match fade g 0 1 (fadeMs cfg) e3 with
              | None => playKey_catch key TypeError e3
              | Some e4 =>
                  set_currentRef
                    {| pad_key := Some key; pad_src := Some s;
                       pad_gain := Some g |} e4
              end
          end
      end
  end.

Definition settle (i : nat) (o : Outcome) (e : Engine) : Engine :=
  match pending e !! i with
  | Some op => playKey_resume op o (set_pending (delete i (pending e)) e)
  | None => e
  end.

(** What can happen to the page.  The Stop button is bound to [stop],
    a name this hook returns without defining it: it reaches nothing
    of the engine and is left out. *)
Inductive Event :=
| ClickKey (i : nat)
| Settles (i : nat) (o : Outcome)
| TimerFires (i : nat)
| Clock (t : Q)
| ContextTurns (st : ContextState).

Definition step (e : Engine) (ev : Event) : Engine :=
  match ev with
  | ClickKey i =>
      match KEYS !! i with Some k => playKey k e | None => e end
  | Settles i o => settle i o e
  | TimerFires i => fire_timer i e
  | Clock t => advance_clock t e
  | ContextTurns st => context_state st e
  end.

Definition run (evs : list Event) (e : Engine) : Engine :=
  fold_left step evs e.

End Hook.

End Simple.

(** ** Case analysis on the code paths of an operation *)

Ltac break_match :=
  match goal with
  | |- context [match ?x with _ => _ end] =>
      lazymatch x with
      | context [match _ with _ => _ end] => fail
      | _ => destruct x eqn:?
      end
  end.

Ltac paths := repeat (simpl in *; try reflexivity; try congruence; try break_match).

(** ** Vocabulary of the statements *)

(** The URL of the asset of key [k] under the two naming conventions. *)
Definition sharp_url (cfg : Config) (k : string) : string :=
  basePath cfg +:+ Js.replace "#" "sharp" k +:+ ext cfg.

Definition encoded_url (cfg : Config) (k : string) : string :=
  basePath cfg +:+ Js.encodeURIComponent (k +:+ ext cfg).

(** One pad, C, has been playing for a second: after a click on C, the
    load of its buffer and a tick of the audio clock. *)
Definition playing_C : Engine :=
  Volume.run Volume.defaults
    [Volume.ClickKey 0; Volume.Settles 0 (Decoded 7); Volume.Clock 1]
    (mount Volume.defaults true).


(** A page on which a context never exists without its master gain
    ([ensureCtx] creates both together). *)
Definition linked (e : Engine) : Prop :=
  ctxRef e = None \/ is_Some (masterGainRef e).

(** A source as [playKey] leaves it: buffer set, looping, connected to
    its gain node, started. *)
Definition started_source (buf : AudioBuffer) (g : nat) : BufferSource :=
  {| buffer := Some buf; loop := true; source_out := Some g;
     started := true; stopped := false |}.

(** The value a ramp from [a] at [t0] to [b] at [t1] has at time [t]. *)
Definition ramp_value (a b t0 t1 t : Q) : Q :=
  if Qltb t t1 then (a + (b - a) * ((t - t0) / (t1 - t0)))%Q else b.


(** The current pad is complete: key, source and gain node are set, the
    nodes are in the page's tables and the context exists. *)
Definition full_pad (e : Engine) : Prop :=
  exists k s g,
    currentRef e = {| pad_key := Some k; pad_src := Some s; pad_gain := Some g |}
    /\ s < length (sources e) /\ g < length (gains e) /\ is_Some (ctxRef e).

(** The invariant of the pages the hook with volume reaches. *)
Definition wf (e : Engine) : Prop :=
  linked e
  /\ (forall m, masterGainRef e = Some m -> m < length (gains e))
  /\ (pending e <> [] -> is_Some (ctxRef e))
  /\ (currentRef e = no_pad \/ full_pad e).

(** The invariant of the pages the simpler hook reaches. *)
Definition wf_simple (e : Engine) : Prop :=
  (pending e <> [] -> is_Some (ctxRef e))
  /\ (currentRef e = no_pad \/ full_pad e).

(** ** Tactics for the invariants *)

Ltac lens :=
  repeat (rewrite ?length_alter, ?length_app, ?length_fmap, ?length_delete in *; simpl in *).

Ltac wf_goal :=
  unfold wf, linked, full_pad in *; simpl in *;
  repeat match goal with
         | H : _ /\ _ |- _ => destruct H
         | H : exists _, _ |- _ => destruct H
         | H : is_Some _ |- _ => destruct H
         end;
  repeat split; intros; simplify_eq; lens;
  try solve [ eauto | lia | congruence
            | left; eauto | right; eauto
            | right; repeat eexists; eauto; lens; lia ].

Ltac wf_cases H :=
  destruct H as ([Hl|[m Hl]] & Hm & Hp & [Hc|(k & s & g & Hc & Hs & Hg & [ctx Hctx])]);
  try congruence.

Ltac wf_close :=
  unfold wf, linked, full_pad; simpl;
  repeat split; intros; simplify_eq; lens;
  try solve [ eauto | lia | congruence
            | left; eauto | right; eauto
            | match goal with H : ?P -> is_Some _, H' : ?P |- _ =>
                destruct (H H') as [? ?]; simplify_eq; eauto end
            | match goal with H : forall m, _ = Some m -> _ |- _ => eapply Nat.lt_le_trans; [eapply H; eauto | lia] end
            | match goal with H : forall m, _ = Some m -> _ |- _ => eapply H; eauto end
            | right; repeat eexists; eauto; lens; lia ].

Ltac ws_cases H :=
  destruct H as (Hp & [Hc|(k & s & g & Hc & Hs & Hg & [ctx Hctx])]).

Ltac ws_close :=
  unfold wf_simple, full_pad; simpl;
  repeat split; intros; simplify_eq; lens;
  try solve [ eauto | lia | congruence
            | left; eauto | right; eauto
            | match goal with H : ?P -> is_Some _, H' : ?P |- _ =>
                destruct (H H') as [? ?]; simplify_eq; eauto end
            | right; repeat eexists; eauto; lens; lia ].

(** ** Invariants of the reachable pages *)

(** Every gain node but the master feeds the master gain, and the master
    feeds [ctx.destination]; a master gain comes with its context, and
    with no master gain there is no node. *)
Definition routed (e : Engine) : Prop :=
  match masterGainRef e with
  | None => gains e = []
  | Some m =>
      is_Some (ctxRef e)
      /\ forall g node,
           gains e !! g = Some node ->
           gain_out node = Some (if Nat.eqb g m then ToDestination else ToGain m)
  end.

(** In the simpler hook every gain node feeds [ctx.destination]. *)
Definition routed_simple (e : Engine) : Prop :=
  forall g node, gains e !! g = Some node -> gain_out node = Some ToDestination.

(** The timer that stops source [s] when its fade is over. *)
Definition stop_timer (cfg : Config) (s : nat) : Timer :=
  {| delay := (fadeMs cfg + 60)%Q; timer_src := s |}.

(** What one event can do to the sources, the timers and the current pad:
    nothing; fade the current pad out; start a new pad and fade the
    current one, if any, out; or stop the source of a timer that fires. *)
Inductive Effect (cfg : Config) (e e' : Engine) : Prop :=
| Frame :
    sources e' = sources e ->
    length (gains e) <= length (gains e') ->
    currentRef e' = currentRef e ->
    timers e' = timers e ->
    Effect cfg e e'
| FadeOut (s : nat) :
    sources e' = sources e ->
    length (gains e') = length (gains e) ->
    pad_src (currentRef e) = Some s ->
    timers e' = timers e ++ [stop_timer cfg s] ->
    currentRef e' = no_pad ->
    Effect cfg e e'
| Switch (key : string) (buf : AudioBuffer) :
    sources e' = sources e ++ [started_source buf (length (gains e))] ->
    length (gains e') = S (length (gains e)) ->
    currentRef e'
    = {| pad_key := Some key; pad_src := Some (length (sources e));
         pad_gain := Some (length (gains e)) |} ->
    (currentRef e = no_pad /\ timers e' = timers e
     \/ exists s, pad_src (currentRef e) = Some s
                  /\ timers e' = timers e ++ [stop_timer cfg s]) ->
    Effect cfg e e'
| Fire (i : nat) (tm : Timer) :
    timers e !! i = Some tm ->
    sources e' = alter try_stop (timer_src tm) (sources e) ->
    timers e' = delete i (timers e) ->
    currentRef e' = currentRef e ->
    gains e' = gains e ->
    Effect cfg e e'.

(** Every source is a started, looping buffer source that feeds a gain
    node of the page, and it is the current pad's, or a timer is pending
    that will stop it, or it is stopped. *)
Definition sources_ok (e : Engine) : Prop :=
  forall s src,
    sources e !! s = Some src ->
    started src = true /\ loop src = true /\ is_Some (buffer src)
    /\ (exists g, source_out src = Some g /\ g < length (gains e))
    /\ (pad_src (currentRef e) = Some s
        \/ (exists tm, tm ∈ timers e /\ timer_src tm = s)
        \/ stopped src = true).

(** The suspended [playKey] calls carry keys of the grid and stamps that
    grow with their position and do not exceed the latest action id. *)
Definition pending_ok (e : Engine) : Prop :=
  Forall (fun op => (myId op <= actionIdRef e)%Z /\ op_key op ∈ Volume.KEYS)
         (pending e)
  /\ forall i j opi opj,
       pending e !! i = Some opi -> pending e !! j = Some opj ->
       i < j -> (myId opi < myId opj)%Z.

(** The suspended call with the latest stamp, if there is one, is for the
    key the display shows, if it shows one; and a key the display shows
    is either that call's or the current pad's. *)
Definition highlight_ok (e : Engine) : Prop :=
  (forall op, op ∈ pending e -> myId op = actionIdRef e ->
              activeKey e = None \/ activeKey e = Some (op_key op))
  /\ (forall k, activeKey e = Some k ->
                (exists op, op ∈ pending e /\ myId op = actionIdRef e /\ op_key op = k)
                \/ pad_key (currentRef e) = Some k).

(** The stop timers of a page: no two of them are for the same source,
    each has the delay [fadeMs + 60], names a source of the page, and is
    never for the current pad's source. *)
Definition timers_ok (cfg : Config) (e : Engine) : Prop :=
  NoDup (timer_src <$> timers e)
  /\ Forall (fun tm => delay tm = (fadeMs cfg + 60)%Q
                       /\ timer_src tm < length (sources e)
                       /\ pad_src (currentRef e) <> Some (timer_src tm))
            (timers e).

(** ** What [App] renders from the hook's state *)

(** [<span className="badge">Active: {activeKey ?? "None"}</span>] *)
Definition badge (e : Engine) : string :=
  "Active: " +:+ default "None" (activeKey e).

(** The [className] of the button of [k]: the template literal
    [keybtn ${...}], whose hole is [active] when [activeKey === k] and the
    empty string otherwise. *)
Definition keybtn_class (e : Engine) (k : string) : string :=
  "keybtn " +:+ (if Js.strict_eq (activeKey e) k then "active" else EmptyString).

(** [KEYS.map((k) => <button key={k} className=... onClick={() => playKey(k)}>{k}</button>)]:
    the label and the class of each button, in the order of the grid;
    a click on the button at index [i] is the event [ClickKey i]. *)
Definition grid (keys : list string) (e : Engine) : list (string * string) :=
  (fun k => (k, keybtn_class e k)) <$> keys.

(** The badge and the grid agree: with no active key the badge reads
    None and no button is lit; with an active key the badge names it
    and exactly the button at one index, labelled with that key, is
    lit. *)
Definition lit_button_agrees (keys : list string) (e : Engine) : Prop :=
  match activeKey e with
  | None =>
      badge e = "Active: None"
      /\ Forall (fun b => b.2 = "keybtn ") (grid keys e)
  | Some k =>
      badge e = "Active: " +:+ k
      /\ exists i, grid keys e !! i = Some (k, "keybtn active")
                   /\ forall j b, grid keys e !! j = Some b -> j <> i -> b.2 = "keybtn "
  end.

(** ** Unmounting (the simpler hook) *)

(** [ctx.close()] *)
Definition close (c : AudioContext) : AudioContext :=
  {| state := Closed; currentTime := currentTime c; resumes := resumes c |}.

(** The cleanup of the hook's mount effect:
    [try { currentRef.current.src?.stop?.(); } catch {}
     ctxRef.current?.close?.();] *)
Definition cleanup (e : Engine) : Engine :=
  let e1 :=
    match pad_src (currentRef e) with
    | Some s => set_sources (alter try_stop s (sources e)) e
    | None => e
    end in
  match ctxRef e1 with
  | Some ctx => set_ctxRef (Some (close ctx)) e1
  | None => e1
  end.

(** ** Counting the calls of [ctx.resume()] *)

Definition resume_calls (e : Engine) : nat :=
  match ctxRef e with Some c => resumes c | None => 0 end.

(** Will [ensureCtx] find the context suspended?  A context that does
    not exist yet is created first, suspended unless the page may start
    audio. *)
Definition finds_suspended (e : Engine) : bool :=
  match ctxRef e with
  | Some c => is_suspended c
  | None => negb (allowed_to_start e)
  end.

(** The value of a hexadecimal digit of [percent_encode]. *)
Definition hex_val (c : ascii) : nat :=
  let n := nat_of_ascii c in if n <? 58 then n - 48 else n - 55.

(** ** The master gain and the stored volume *)

(** The master gain is no pad's gain node, and its automation is in one
    of two shapes: empty, with the value [initialVolume] it was created
    with; or ending in a set-value of the stored volume that is already
    due, with nothing scheduled after it. *)
Definition master_synced (cfg : Config) (e : Engine) : Prop :=
  match masterGainRef e with
  | None => True
  | Some m =>
      (forall g, pad_gain (currentRef e) = Some g -> g <> m)
      /\ exists node ctx,
           gains e !! m = Some node /\ ctxRef e = Some ctx
           /\ ((events (gain node) = [] /\ value (gain node) = initialVolume cfg)
               \/ exists pre t0,
                    events (gain node) = pre ++ [SetValueAt (volume e) t0]
                    /\ (t0 <= currentTime ctx)%Q
                    /\ Forall (fun ev => (ev_time ev <= t0)%Q) pre)
  end.

(** An operation that leaves the master gain [m], the stored volume and
    the audio clock alone, and makes no pad of the gain node [m]. *)
Definition keeps_master (m : nat) (e e' : Engine) : Prop :=
  masterGainRef e' = Some m
  /\ gains e' !! m = gains e !! m
  /\ volume e' = volume e
  /\ (exists ctx ctx', ctxRef e = Some ctx /\ ctxRef e' = Some ctx'
                       /\ currentTime ctx' = currentTime ctx)
  /\ (forall g, pad_gain (currentRef e') = Some g ->
                pad_gain (currentRef e) = Some g \/ length (gains e) <= g).

(** ** Failed loads *)




(** ** Pads that have been faded out *)

(** A gain node whose automation ends in a ramp down to 0, with nothing
    scheduled after the ramp. *)
Definition fading (node : GainNode) : Prop :=
  exists pre v t0 t1,
    events (gain node) = pre ++ [SetValueAt v t0; LinearRampTo 0 t1]
    /\ (t0 <= t1)%Q
    /\ Forall (fun ev => (ev_time ev <= t0)%Q) pre.

(** Every source feeds a gain node of its own pad, never the master
    gain; the source of the current pad feeds the current pad's gain
    node, and the gain node of any other source is fading. *)
Definition faded_ok (e : Engine) : Prop :=
  forall s src, sources e !! s = Some src ->
    exists g node,
      source_out src = Some g /\ gains e !! g = Some node
      /\ masterGainRef e <> Some g
      /\ (pad_src (currentRef e) = Some s /\ pad_gain (currentRef e) = Some g
          \/ pad_src (currentRef e) <> Some s /\ fading node).

(** What an operation may do to the gain nodes: a node keeps its
    automation unless it is the master gain or the gain node of the
    current pad being faded out; when the current pad's source changes,
    the gain node of the old pad is left fading; a master gain is only
    ever created, as a new node, by an operation that adds no source. *)
Definition Regain (e e' : Engine) : Prop :=
  (forall g node, gains e !! g = Some node ->
     exists node', gains e' !! g = Some node'
       /\ (events (gain node') = events (gain node)
           \/ masterGainRef e = Some g
           \/ (pad_gain (currentRef e) = Some g /\ fading node')))
  /\ (forall og node', pad_gain (currentRef e) = Some og ->
        pad_src (currentRef e') <> pad_src (currentRef e) ->
        gains e' !! og = Some node' -> fading node')
  /\ (masterGainRef e' = masterGainRef e
      \/ (masterGainRef e = None /\ sources e' = sources e
          /\ masterGainRef e' = Some (length (gains e)))).

(** ** Before the first click on a key *)

Definition Volume_is_click (ev : Volume.Event) : bool :=
  match ev with Volume.ClickKey _ => true | _ => false end.

Definition Simple_is_click (ev : Simple.Event) : bool :=
  match ev with Simple.ClickKey _ => true | _ => false end.

(** * Properties *)

(** ** The automation timeline *)

Section Timeline.

Lemma Qltb_true (x y : Q) : Qltb x y = true <-> (x < y)%Q.
Proof.
  unfold Qltb. rewrite negb_true_iff. split.
  - intros H. apply Qnot_le_lt. intros Hle.
    apply Qle_bool_iff in Hle. congruence.
  - intros H. destruct (Qle_bool y x) eqn:E; [|reflexivity].
    apply Qle_bool_iff in E. exfalso. exact (Qlt_not_le _ _ H E).
Qed.

Lemma Qltb_false (x y : Q) : Qltb x y = false <-> (y <= x)%Q.
Proof.
  unfold Qltb. rewrite negb_false_iff. apply Qle_bool_iff.
Qed.

Lemma earlier_lt (t : Q) (evs : list AutoEvent) :
  Forall (fun e => (ev_time e < t)%Q) (earlier t evs).
Proof.
  unfold earlier. induction evs as [|e evs IH]; simpl; [constructor|].
  destruct (Qltb (ev_time e) t) eqn:E; [|exact IH].
  constructor; [apply Qltb_true, E | exact IH].
Qed.

(** An event that is not earlier than any event of the timeline, and
    replaces none, goes to its end. *)
Lemma schedule_last (e : AutoEvent) (evs : list AutoEvent) :
  Forall (fun e' => (ev_time e' <= ev_time e)%Q
                    /\ Qeq_bool (ev_time e) (ev_time e') && same_kind e e' = false) evs ->
  schedule e evs = evs ++ [e].
Proof.
  induction 1 as [|e' evs [Hle Hk] _ IH]; simpl; [reflexivity|].
  apply Qltb_false in Hle. rewrite Hle, Hk, IH. reflexivity.
Qed.

Lemma Qeq_bool_lt_false (x y : Q) : (y < x)%Q -> Qeq_bool x y = false.
Proof.
  intros H. destruct (Qeq_bool x y) eqn:E; [|reflexivity].
  apply Qeq_bool_iff in E. rewrite E in H. exfalso. exact (Qlt_irrefl _ H).
Qed.

Lemma ramp_events (from to t0 t1 : Q) (p : AudioParam) :
  (t0 <= t1)%Q ->
  events (ramp from to t0 t1 p)
  = earlier t0 (events p) ++ [SetValueAt from t0; LinearRampTo to t1].
Proof.
  intros H01. unfold ramp. simpl. fold (earlier t0 (events p)).
  pose proof (earlier_lt t0 (events p)) as Hlt.
  rewrite (schedule_last (SetValueAt from t0)).
  - rewrite schedule_last.
    + rewrite <- app_assoc. reflexivity.
    + apply Forall_app. split.
      * eapply Forall_impl; [exact Hlt|]. simpl. intros e He. split.
        -- apply Qlt_le_weak. eapply Qlt_le_trans; eassumption.
        -- rewrite Qeq_bool_lt_false; [reflexivity|].
           eapply Qlt_le_trans; eassumption.
      * constructor; [|constructor]. simpl. split; [exact H01|].
        apply andb_false_r.
  - eapply Forall_impl; [exact Hlt|]. simpl. intros e He. split.
    + apply Qlt_le_weak, He.
    + rewrite Qeq_bool_lt_false; [reflexivity | exact He].
Qed.

Lemma set_events (v t0 : Q) (p : AudioParam) :
  events (setValueAtTime v t0 (cancelScheduledValues t0 p))
  = earlier t0 (events p) ++ [SetValueAt v t0].
Proof.
  simpl. fold (earlier t0 (events p)).
  apply schedule_last.
  eapply Forall_impl; [apply earlier_lt|]. simpl. intros e He. split.
  - apply Qlt_le_weak, He.
  - rewrite Qeq_bool_lt_false; [reflexivity | exact He].
Qed.

(** A set-value event that is due hides what comes before it. *)
Lemma timeline_skip (pre rest : list AutoEvent) (v0 tp a t0 t : Q) :
  Forall (fun e => (ev_time e <= t)%Q) pre ->
  (t0 <= t)%Q ->
  timeline v0 tp (pre ++ SetValueAt a t0 :: rest) t = timeline a t0 rest t.
Proof.
  intros Hpre Ht. revert v0 tp.
  induction Hpre as [|e pre He _ IH]; intros v0 tp; simpl.
  - apply Qltb_false in Ht. rewrite Ht. reflexivity.
  - destruct e as [v te|v te]; simpl in He; apply Qltb_false in He;
      rewrite He; apply IH.
Qed.

Lemma earlier_le (t0 t : Q) (evs : list AutoEvent) :
  (t0 <= t)%Q -> Forall (fun e => (ev_time e <= t)%Q) (earlier t0 evs).
Proof.
  intros Ht. eapply Forall_impl; [apply earlier_lt|]. simpl.
  intros e He. apply Qlt_le_weak. eapply Qlt_le_trans; eassumption.
Qed.

(** The value of a parameter after cancel, set and ramp: linear between
    [t0] and [t1], the target from [t1] on. *)
Lemma ramp_value_at (from to t0 t1 t : Q) (p : AudioParam) :
  (t0 <= t1)%Q -> (t0 <= t)%Q ->
  value_at (ramp from to t0 t1 p) t
  = if Qltb t t1 then (from + (to - from) * ((t - t0) / (t1 - t0)))%Q else to.
Proof.
  intros H01 Ht. unfold value_at. rewrite ramp_events by exact H01.
  rewrite timeline_skip; [reflexivity | apply earlier_le, Ht | exact Ht].
Qed.

(** The ramp's formula starts at [a] and is [b] from [t1] on. *)
Lemma ramp_value_start (a b t0 t1 : Q) :
  (t0 < t1)%Q -> (ramp_value a b t0 t1 t0 == a)%Q.
Proof.
  intros H01. unfold ramp_value. apply Qltb_true in H01. rewrite H01.
  unfold Qdiv. ring.
Qed.

Lemma ramp_value_end (a b t0 t1 t : Q) :
  (t1 <= t)%Q -> ramp_value a b t0 t1 t = b.
Proof.
  intros Ht. unfold ramp_value. apply Qltb_false in Ht. rewrite Ht. reflexivity.
Qed.

Lemma ramp_value_at_end (from to t0 t1 t : Q) (p : AudioParam) :
  (t0 <= t1)%Q -> (t1 <= t)%Q -> value_at (ramp from to t0 t1 p) t = to.
Proof.
  intros H01 Ht. rewrite ramp_value_at; [|exact H01|eapply Qle_trans; eassumption].
  apply Qltb_false in Ht. rewrite Ht. reflexivity.
Qed.


End Timeline.


Lemma fade_end_le (t0 ms : Q) : (0 <= ms)%Q -> (t0 <= t0 + ms / 1000)%Q.
Proof.
  intros H. rewrite <- (Qplus_0_r t0) at 1. apply Qplus_le_r.
  apply Qle_shift_div_l; [reflexivity|]. rewrite Qmult_0_l. exact H.
Qed.

(** ** [stop] *)

Section Stop.
Variable cfg : Config.





End Stop.


(** When the timer of a faded pad fires, its source is stopped; a source
    that is already stopped stays as it is. *)
Lemma fire_timer_stops (i : nat) (e : Engine) tm source :
  timers e !! i = Some tm ->
  sources e !! timer_src tm = Some source ->
  sources (fire_timer i e) !! timer_src tm = Some (try_stop source)
  /\ timers (fire_timer i e) = delete i (timers e)
  /\ try_stop (try_stop source) = try_stop source.
Proof.
  intros Ht Hs. unfold fire_timer. rewrite Ht. simpl.
  rewrite list_lookup_alter_eq, Hs. repeat split.
  destruct source as [b l o st sp]. unfold try_stop. simpl.
  destruct st, sp; reflexivity.
Qed.

(** ** Master volume *)

Section MasterVolume.
Variable cfg : Config.


(** C10. While there is no audio context, [setVolume(level)] only stores
    the level: no node exists or is made, nothing is scheduled.  The
    master gain that [ensureCtx] then creates (on the first [playKey])
    has the value [initialVolume] and an empty timeline, whatever the
    stored volume is. *)
Theorem C10_volume_before_context_is_dropped (e : Engine) (level : Q) :
  ctxRef e = None ->
  masterGainRef e = None ->
  let e1 := Volume.setVolume level e in
  ctxRef e1 = None /\ masterGainRef e1 = None /\ gains e1 = gains e
  /\ (volume e1 == level)%Q
  /\ (exists master,
         let e2 := Volume.ensureCtx cfg e1 in
         masterGainRef e2 = Some (length (gains e))
         /\ gains e2 = gains e ++ [master]
         /\ value (gain master) = initialVolume cfg
         /\ events (gain master) = []
         /\ (forall t, value_at (gain master) t = initialVolume cfg)
         /\ gain_out master = Some ToDestination
         /\ volume e2 = volume e1
         /\ forall key,
              Js.strict_eq (pad_key (currentRef e)) key = false ->
              gains (Volume.playKey cfg key e1) = gains e ++ [master]
              /\ masterGainRef (Volume.playKey cfg key e1) = Some (length (gains e))
              /\ volume (Volume.playKey cfg key e1) = volume e1).
Proof.
  intros Hc Hm e1.
  assert (He1 : ctxRef e1 = None /\ masterGainRef e1 = None /\ gains e1 = gains e
                /\ currentRef e1 = currentRef e /\ (volume e1 == level)%Q).
  { subst e1. unfold Volume.setVolume, Volume.volume_effect.
    destruct (Qeq_bool level (volume e)) eqn:E; simpl.
    - apply Qeq_bool_iff in E. repeat split; try assumption. symmetry. exact E.
    - rewrite Hm. simpl. repeat split; assumption. }
  destruct He1 as (Hc1 & Hm1 & Hg1 & Hp1 & Hv1).
  repeat split; try assumption.
  exists (connect_gain ToDestination (on_gain (set_value (initialVolume cfg)) createGain)).
  unfold Volume.ensureCtx. rewrite Hc1. simpl. rewrite Hg1.
  split; [paths|]. split; [paths|].
  do 4 (split; [reflexivity|]). split; [paths|].
  intros key Hk. unfold Volume.playKey, Volume.loadBuffer, Volume.ensureCtx.
  rewrite Hp1, Hk. simpl. rewrite Hc1. simpl. rewrite Hg1.
  repeat split; paths.
Qed.

End MasterVolume.



Lemma C10_volume_before_context_is_dropped_witness :
  ctxRef (mount Volume.defaults true) = None
  /\ masterGainRef (mount Volume.defaults true) = None
  /\ gains (Volume.setVolume (1 # 2) (mount Volume.defaults true)) = []
  /\ exists master,
       gains (Volume.ensureCtx Volume.defaults
                (Volume.setVolume (1 # 2) (mount Volume.defaults true)))
       = [master]
       /\ value (gain master) = (4 # 5)%Q.
Proof.
  destruct (C10_volume_before_context_is_dropped Volume.defaults
              (mount Volume.defaults true) (1 # 2) eq_refl eq_refl)
    as (_ & _ & Hg & _ & master & _ & Hg2 & Hv & _).
  split; [reflexivity|]. split; [reflexivity|]. split; [exact Hg|].
  exists master. split; [exact Hg2 | exact Hv].
Defined.

(** ** Loading: cache and URLs *)

Lemma append_assoc (a b c : string) : (a +:+ b) +:+ c = a +:+ (b +:+ c).
Proof.
  induction a as [|x a IH]; [reflexivity|].
  change (String x ((a +:+ b) +:+ c) = String x (a +:+ (b +:+ c))).
  rewrite IH. reflexivity.
Qed.

Lemma encodeURIComponent_app (a b : string) :
  Js.encodeURIComponent (a +:+ b)
  = Js.encodeURIComponent a +:+ Js.encodeURIComponent b.
Proof.
  induction a as [|x a IH]; [reflexivity|].
  change (Js.encodeURIComponent (String x a +:+ b))
    with ((if Js.unreserved x then String x EmptyString else Js.percent_encode x)
          +:+ Js.encodeURIComponent (a +:+ b)).
  rewrite IH, <- append_assoc. reflexivity.
Qed.

Section Loading.
Variable cfg : Config.

Lemma Volume_playKey_fetched key e :
  fetched (Volume.playKey cfg key e) = fetched e
  \/ fetched (Volume.playKey cfg key e) = fetched e ++ [sharp_url cfg key].
Proof.
  unfold Volume.playKey, Volume.stop, Volume.loadBuffer, Volume.ensureCtx,
    Volume.filename, sharp_url.
  paths; auto.
Qed.

Lemma Volume_step_fetched e ev :
  fetched (Volume.step cfg e ev) = fetched e
  \/ exists k, k ∈ Volume.KEYS
               /\ fetched (Volume.step cfg e ev) = fetched e ++ [sharp_url cfg k].
Proof.
  destruct ev as [i| |p|i o|i|t|st]; simpl.
  - destruct (Volume.KEYS !! i) as [k|] eqn:Hk; [|auto].
    destruct (Volume_playKey_fetched k e) as [H|H]; [auto|].
    right. exists k. split; [eapply list_elem_of_lookup_2; eassumption | exact H].
  - left. unfold Volume.stop. paths.
  - left. unfold Volume.setVolume, Volume.volume_effect. paths.
  - left. unfold Volume.settle, Volume.playKey_resume, loadBuffer_settle,
      Volume.playKey_catch. paths.
  - left. unfold fire_timer. paths.
  - left. unfold advance_clock. paths.
  - left. unfold context_state. paths.
Qed.

Lemma Volume_run_fetched evs e :
  Forall (fun u => exists k, k ∈ Volume.KEYS /\ u = sharp_url cfg k) (fetched e) ->
  Forall (fun u => exists k, k ∈ Volume.KEYS /\ u = sharp_url cfg k)
         (fetched (Volume.run cfg evs e)).
Proof.
  revert e. induction evs as [|ev evs IH]; intros e H; simpl; [exact H|].
  apply IH. destruct (Volume_step_fetched e ev) as [->|(k & Hk & ->)]; [exact H|].
  apply Forall_app. split; [exact H|]. constructor; [|constructor]. eauto.
Qed.

Lemma Simple_playKey_fetched key e :
  fetched (Simple.playKey cfg key e) = fetched e
  \/ fetched (Simple.playKey cfg key e) = fetched e ++ [encoded_url cfg key].
Proof.
  unfold Simple.playKey, Simple.loadBuffer, Simple.ensureCtx, encoded_url.
  paths; auto.
Qed.

Lemma Simple_step_fetched e ev :
  fetched (Simple.step cfg e ev) = fetched e
  \/ exists k, k ∈ Simple.KEYS
               /\ fetched (Simple.step cfg e ev) = fetched e ++ [encoded_url cfg k].
Proof.
  destruct ev as [i|i o|i|t|st]; simpl.
  - destruct (Simple.KEYS !! i) as [k|] eqn:Hk; [|auto].
    destruct (Simple_playKey_fetched k e) as [H|H]; [auto|].
    right. exists k. split; [eapply list_elem_of_lookup_2; eassumption | exact H].
  - left. unfold Simple.settle, Simple.playKey_resume, loadBuffer_settle,
      Simple.playKey_catch, Simple.fade. paths.
  - left. unfold fire_timer. paths.
  - left. unfold advance_clock. paths.
  - left. unfold context_state. paths.
Qed.

Lemma Simple_run_fetched evs e :
  Forall (fun u => exists k, k ∈ Simple.KEYS /\ u = encoded_url cfg k) (fetched e) ->
  Forall (fun u => exists k, k ∈ Simple.KEYS /\ u = encoded_url cfg k)
         (fetched (Simple.run cfg evs e)).
Proof.
  revert e. induction evs as [|ev evs IH]; intros e H; simpl; [exact H|].
  apply IH. destruct (Simple_step_fetched e ev) as [->|(k & Hk & ->)]; [exact H|].
  apply Forall_app. split; [exact H|]. constructor; [|constructor]. eauto.
Qed.

(** The cache changes only when a fetch ends in decoded data. *)
Lemma settle_cache k ld o e :
  cacheRef (loadBuffer_settle k ld o e).1 = cacheRef e
  \/ exists url buf, ld = Fetching url /\ o = Decoded buf
                     /\ cacheRef (loadBuffer_settle k ld o e).1 = <[k:=buf]> (cacheRef e).
Proof.
  destruct ld as [c|url]; [left; reflexivity|].
  destruct o as [| | | |buf]; simpl; [auto..|].
  right. exists url, buf. auto.
Qed.

Lemma insert_lookup_cases (m : gmap string AudioBuffer) k k' b b' :
  <[k:=b]> m !! k' = Some b' -> m !! k' = Some b' \/ b = b'.
Proof.
  destruct (decide (k = k')) as [->|Hne].
  - rewrite lookup_insert_eq. intros [= ->]. right. reflexivity.
  - rewrite lookup_insert_ne by exact Hne. auto.
Qed.

Lemma Volume_step_cache e ev k b :
  cacheRef (Volume.step cfg e ev) !! k = Some b ->
  cacheRef e !! k = Some b \/ exists i, ev = Volume.Settles i (Decoded b).
Proof.
  destruct ev as [i| |p|i o|i|t|st]; simpl.
  - assert (H : forall key, cacheRef (Volume.playKey cfg key e) = cacheRef e).
    { intros key. unfold Volume.playKey, Volume.stop, Volume.loadBuffer,
        Volume.ensureCtx. paths. }
    destruct (Volume.KEYS !! i); [rewrite H|]; auto.
  - assert (H : cacheRef (Volume.stop cfg e) = cacheRef e)
      by (unfold Volume.stop; paths).
    rewrite H. auto.
  - assert (H : forall l, cacheRef (Volume.setVolume l e) = cacheRef e)
      by (intros l; unfold Volume.setVolume, Volume.volume_effect; paths).
    destruct (p <=? 100); [rewrite H|]; auto.
  - unfold Volume.settle. destruct (pending e !! i) as [op|]; [|auto].
    assert (H : cacheRef (Volume.playKey_resume cfg op o (set_pending (delete i (pending e)) e))
                = cacheRef e
                \/ exists buf, o = Decoded buf
                   /\ cacheRef (Volume.playKey_resume cfg op o (set_pending (delete i (pending e)) e))
                      = <[op_key op:=buf]> (cacheRef e)).
    { unfold Volume.playKey_resume, loadBuffer_settle, Volume.playKey_catch.
      paths; eauto. }
    destruct H as [->|(buf & -> & ->)]; [auto|].
    intros H. apply insert_lookup_cases in H as [H| ->]; eauto.
  - assert (H : cacheRef (fire_timer i e) = cacheRef e) by (unfold fire_timer; paths).
    rewrite H. auto.
  - assert (H : cacheRef (advance_clock t e) = cacheRef e)
      by (unfold advance_clock; paths).
    rewrite H. auto.
  - assert (H : cacheRef (context_state st e) = cacheRef e)
      by (unfold context_state; paths).
    rewrite H. auto.
Qed.

Lemma Volume_run_cache evs e k b :
  cacheRef (Volume.run cfg evs e) !! k = Some b ->
  cacheRef e !! k = Some b \/ exists i, Volume.Settles i (Decoded b) ∈ evs.
Proof.
  revert e. induction evs as [|ev evs IH]; intros e H; simpl in H; [auto|].
  apply IH in H as [H|(i & Hi)].
  - apply Volume_step_cache in H as [H|(i & ->)]; [auto|].
    right. exists i. apply list_elem_of_here.
  - right. exists i. apply list_elem_of_further, Hi.
Qed.

Lemma Simple_step_cache e ev k b :
  cacheRef (Simple.step cfg e ev) !! k = Some b ->
  cacheRef e !! k = Some b \/ exists i, ev = Simple.Settles i (Decoded b).
Proof.
  destruct ev as [i|i o|i|t|st]; simpl.
  - assert (H : forall key, cacheRef (Simple.playKey cfg key e) = cacheRef e).
    { intros key. unfold Simple.playKey, Simple.loadBuffer, Simple.ensureCtx. paths. }
    destruct (Simple.KEYS !! i); [rewrite H|]; auto.
  - unfold Simple.settle. destruct (pending e !! i) as [op|]; [|auto].
    assert (H : cacheRef (Simple.playKey_resume cfg op o (set_pending (delete i (pending e)) e))
                = cacheRef e
                \/ exists buf, o = Decoded buf
                   /\ cacheRef (Simple.playKey_resume cfg op o (set_pending (delete i (pending e)) e))
                      = <[op_key op:=buf]> (cacheRef e)).
    { unfold Simple.playKey_resume, loadBuffer_settle, Simple.playKey_catch, Simple.fade.
      paths; eauto. }
    destruct H as [->|(buf & -> & ->)]; [auto|].
    intros H. apply insert_lookup_cases in H as [H| ->]; eauto.
  - assert (H : cacheRef (fire_timer i e) = cacheRef e) by (unfold fire_timer; paths).
    rewrite H. auto.
  - assert (H : cacheRef (advance_clock t e) = cacheRef e)
      by (unfold advance_clock; paths).
    rewrite H. auto.
  - assert (H : cacheRef (context_state st e) = cacheRef e)
      by (unfold context_state; paths).
    rewrite H. auto.
Qed.

Lemma Simple_run_cache evs e k b :
  cacheRef (Simple.run cfg evs e) !! k = Some b ->
  cacheRef e !! k = Some b \/ exists i, Simple.Settles i (Decoded b) ∈ evs.
Proof.
  revert e. induction evs as [|ev evs IH]; intros e H; simpl in H; [auto|].
  apply IH in H as [H|(i & Hi)].
  - apply Simple_step_cache in H as [H|(i & ->)]; [auto|].
    right. exists i. apply list_elem_of_here.
  - right. exists i. apply list_elem_of_further, Hi.
Qed.

End Loading.

(** C6. A cached key is answered from the cache: the page is unchanged
    and nothing is fetched, by [loadBuffer] and so by [playKey].  A key
    that is not cached is fetched once.  A fetch that ends in any failure
    hands the error to the caller and leaves the page, the cache
    included, as it was; only decoded data enters the cache, under its
    key.  Along every run of either hook each cache entry is the data of
    some successful decode. *)
Theorem C6_loadBuffer_cache (cfg : Config) (key : string) (e : Engine) :
  (forall cached o,
      cacheRef e !! key = Some cached ->
      Volume.loadBuffer cfg key e = (e, CacheHit cached)
      /\ Simple.loadBuffer cfg key e = (e, CacheHit cached)
      /\ loadBuffer_settle key (CacheHit cached) o e = (e, inr cached)
      /\ fetched (Volume.playKey cfg key e) = fetched e
      /\ fetched (Simple.playKey cfg key e) = fetched e)
  /\ (cacheRef e !! key = None ->
      (exists e1,
          Volume.loadBuffer cfg key e = (e1, Fetching (sharp_url cfg key))
          /\ fetched e1 = fetched e ++ [sharp_url cfg key]
          /\ cacheRef e1 = cacheRef e)
      /\ (exists e1,
             Simple.loadBuffer cfg key e = (e1, Fetching (encoded_url cfg key))
             /\ fetched e1 = fetched e ++ [encoded_url cfg key]
             /\ cacheRef e1 = cacheRef e))
  /\ (forall url o,
        (forall buf, o <> Decoded buf) ->
        exists err, loadBuffer_settle key (Fetching url) o e = (e, inl err))
  /\ (forall url buf,
        loadBuffer_settle key (Fetching url) (Decoded buf) e
        = (set_cacheRef (<[key:=buf]> (cacheRef e)) e, inr buf))
  /\ (forall allowed evs k b,
        cacheRef (Volume.run cfg evs (mount cfg allowed)) !! k = Some b ->
        exists i, Volume.Settles i (Decoded b) ∈ evs)
  /\ (forall allowed evs k b,
        cacheRef (Simple.run cfg evs (mount cfg allowed)) !! k = Some b ->
        exists i, Simple.Settles i (Decoded b) ∈ evs).
Proof.
  split; [|split; [|split; [|split; [|split]]]].
  - intros cached o H. unfold Volume.loadBuffer, Simple.loadBuffer.
    rewrite H. do 3 (split; [reflexivity|]). split.
    + unfold Volume.playKey, Volume.stop, Volume.loadBuffer, Volume.ensureCtx. paths.
    + unfold Simple.playKey, Simple.loadBuffer, Simple.ensureCtx. paths.
  - intros H. unfold Volume.loadBuffer, Simple.loadBuffer. rewrite H. split.
    + eexists. split; [reflexivity|].
      unfold Volume.ensureCtx. split; paths.
    + eexists. split; [reflexivity|].
      unfold Simple.ensureCtx. split; paths.
  - intros url o Ho. destruct o as [| | | |buf]; simpl; eauto.
    exfalso. exact (Ho buf eq_refl).
  - reflexivity.
  - intros allowed evs k b H.
    apply Volume_run_cache in H as [H|H]; [|exact H].
    simpl in H. rewrite lookup_empty in H. discriminate H.
  - intros allowed evs k b H.
    apply Simple_run_cache in H as [H|H]; [|exact H].
    simpl in H. rewrite lookup_empty in H. discriminate H.
Qed.

Lemma C6_loadBuffer_cache_witness :
  cacheRef playing_C !! "C" = Some 7
  /\ Volume.loadBuffer Volume.defaults "C" playing_C = (playing_C, CacheHit 7)
  /\ cacheRef playing_C !! "D" = None
  /\ (exists e1,
         Volume.loadBuffer Volume.defaults "D" playing_C = (e1, Fetching "/sounds/D.mp3")
         /\ fetched e1 = ["/sounds/C.mp3"; "/sounds/D.mp3"])
  /\ loadBuffer_settle "D" (Fetching "/sounds/D.mp3") ResponseNotOk playing_C
     = (playing_C, inl (FailedToLoad "/sounds/D.mp3")).
Proof.
  assert (HC : cacheRef playing_C !! "C" = Some 7) by (vm_compute; reflexivity).
  assert (HD : cacheRef playing_C !! "D" = None) by (vm_compute; reflexivity).
  destruct (C6_loadBuffer_cache Volume.defaults "C" playing_C) as (Hhit & _).
  destruct (C6_loadBuffer_cache Volume.defaults "D" playing_C)
    as (_ & Hmiss & Hfail & _).
  destruct (Hhit 7 ResponseNotOk HC) as (Hv & _).
  destruct (Hmiss HD) as ((e1 & Hl & Hf & _) & _).
  split; [exact HC|]. split; [exact Hv|]. split; [exact HD|].
  split; [exists e1; split; [exact Hl | exact Hf]|].
  reflexivity.
Defined.

(** C9. There are twelve keys, the same in both hooks.  For each of
    them a load that misses the cache fetches [basePath] followed by the
    file name and the extension: the key with its [#] replaced by
    [sharp] in the hook with volume, the percent-encoded key in the
    simpler hook (whose encoding also runs over the extension, and leaves
    [.mp3] as it is).  Every URL either hook ever fetches, driven by the
    buttons of [App], is the URL of one of the twelve keys. *)
Theorem C9_asset_urls :
  Volume.KEYS = ["C"; "C#"; "D"; "D#"; "E"; "F"; "F#"; "G"; "G#"; "A"; "A#"; "B"]
  /\ Simple.KEYS = Volume.KEYS
  /\ length Volume.KEYS = 12
  /\ NoDup Volume.KEYS
  /\ Js.replace "#" "sharp" <$> Volume.KEYS
     = ["C"; "Csharp"; "D"; "Dsharp"; "E"; "F"; "Fsharp"; "G"; "Gsharp";
        "A"; "Asharp"; "B"]
  /\ Js.encodeURIComponent <$> Simple.KEYS
     = ["C"; "C%23"; "D"; "D%23"; "E"; "F"; "F%23"; "G"; "G%23";
        "A"; "A%23"; "B"]
  /\ (forall cfg e k,
        k ∈ Volume.KEYS ->
        cacheRef e !! k = None ->
        let url := basePath cfg +:+ Js.replace "#" "sharp" k +:+ ext cfg in
        (Volume.loadBuffer cfg k e).2 = Fetching url
        /\ fetched (Volume.loadBuffer cfg k e).1 = fetched e ++ [url]
        /\ forallb Js.unreserved (list_ascii_of_string (Js.replace "#" "sharp" k)) = true)
  /\ (forall cfg e k,
        k ∈ Simple.KEYS ->
        ext cfg = Simple.AUDIO_EXT ->
        cacheRef e !! k = None ->
        let url := basePath cfg +:+ Js.encodeURIComponent k +:+ ext cfg in
        (Simple.loadBuffer cfg k e).2 = Fetching url
        /\ fetched (Simple.loadBuffer cfg k e).1 = fetched e ++ [url])
  /\ (forall cfg allowed evs,
        Forall (fun u => exists k, k ∈ Volume.KEYS /\ u = sharp_url cfg k)
               (fetched (Volume.run cfg evs (mount cfg allowed))))
  /\ (forall cfg allowed evs,
        Forall (fun u => exists k, k ∈ Simple.KEYS /\ u = encoded_url cfg k)
               (fetched (Simple.run cfg evs (mount cfg allowed)))).
Proof.
  split; [reflexivity|]. split; [reflexivity|]. split; [reflexivity|].
  split; [apply NoDup_ListNoDup; repeat constructor; simpl; intuition discriminate|].
  split; [reflexivity|]. split; [reflexivity|].
  split; [|split; [|split]].
  - intros cfg e k Hk Hmiss url. unfold Volume.loadBuffer. rewrite Hmiss. simpl.
    split; [reflexivity|]. split.
    + unfold Volume.ensureCtx. paths.
    + unfold Volume.KEYS in Hk.
      repeat (apply elem_of_cons in Hk as [-> | Hk]; [reflexivity|]).
      apply elem_of_nil in Hk. destruct Hk.
  - intros cfg e k Hk Hext Hmiss url. unfold Simple.loadBuffer. rewrite Hmiss. simpl.
    assert (Hurl : basePath cfg +:+ Js.encodeURIComponent (k +:+ ext cfg) = url).
    { subst url. rewrite encodeURIComponent_app, Hext. reflexivity. }
    rewrite Hurl. split; [reflexivity|].
    unfold Simple.ensureCtx. paths.
  - intros cfg allowed evs. apply Volume_run_fetched. constructor.
  - intros cfg allowed evs. apply Simple_run_fetched. constructor.
Qed.

Lemma C9_asset_urls_witness :
  "A#" ∈ Volume.KEYS
  /\ cacheRef (mount Volume.defaults true) !! "A#" = None
  /\ fetched (Volume.loadBuffer Volume.defaults "A#" (mount Volume.defaults true)).1
     = ["/sounds/Asharp.mp3"]
  /\ "C#" ∈ Simple.KEYS
  /\ ext Simple.defaults = Simple.AUDIO_EXT
  /\ fetched (Simple.loadBuffer Simple.defaults "C#" (mount Simple.defaults true)).1
     = ["/sounds/C%23.mp3"].
Proof.
  assert (HA : "A#" ∈ Volume.KEYS) by (apply list_elem_of_In; simpl; tauto).
  assert (HC : "C#" ∈ Simple.KEYS) by (apply list_elem_of_In; simpl; tauto).
  destruct C9_asset_urls as (_ & _ & _ & _ & _ & _ & HV & HS & _).
  destruct (HV Volume.defaults (mount Volume.defaults true) "A#" HA eq_refl)
    as (_ & HfV & _).
  destruct (HS Simple.defaults (mount Simple.defaults true) "C#" HC eq_refl eq_refl)
    as (_ & HfS).
  split; [exact HA|]. split; [reflexivity|]. split; [exact HfV|].
  split; [exact HC|]. split; [reflexivity|]. exact HfS.
Defined.

(** ** [playKey]: selection, resumption, crossfade *)

Lemma snoc_lookup {A} (l : list A) (x : A) : (l ++ [x]) !! length l = Some x.
Proof. apply list_lookup_middle. reflexivity. Qed.

Lemma snoc_delete {A} (l : list A) (x : A) : delete (length l) (l ++ [x]) = l.
Proof.
  induction l as [|y l IH]; [reflexivity|].
  simpl. f_equal. exact IH.
Qed.

Lemma set_cacheRef_id (e : Engine) : set_cacheRef (cacheRef e) e = e.
Proof. destruct e; reflexivity. Qed.

Lemma settle_inr k ld o e buf :
  (loadBuffer_settle k ld o e).2 = inr buf ->
  exists c, loadBuffer_settle k ld o e = (set_cacheRef c e, inr buf).
Proof.
  destruct ld as [c|url]; simpl.
  - intros [= ->]. exists (cacheRef e). rewrite set_cacheRef_id. reflexivity.
  - destruct o; simpl; intros [= ->]. eexists. reflexivity.
Qed.


Lemma lookup_snoc2_0 {A} (l : list A) (a b : A) : (l ++ [a; b]) !! length l = Some a.
Proof. apply list_lookup_middle. reflexivity. Qed.

Lemma lookup_snoc2_1 {A} (l : list A) (a b : A) :
  (l ++ [a; b]) !! S (length l) = Some b.
Proof. induction l as [|y l IH]; [reflexivity | exact IH]. Qed.

Lemma delete_snoc2_0 {A} (l : list A) (a b : A) :
  delete (length l) (l ++ [a; b]) = l ++ [b].
Proof. induction l as [|y l IH]; [reflexivity | simpl; f_equal; exact IH]. Qed.

Lemma delete_snoc2_1 {A} (l : list A) (a b : A) :
  delete (S (length l)) (l ++ [a; b]) = l ++ [a].
Proof. induction l as [|y l IH]; [reflexivity | simpl; f_equal; exact IH]. Qed.

Section VolumePlay.
Variable cfg : Config.

Lemma ensureCtx_ready e :
  linked e ->
  is_Some (ctxRef (Volume.ensureCtx cfg e))
  /\ is_Some (masterGainRef (Volume.ensureCtx cfg e)).
Proof.
  intros [H|[m H]]; unfold Volume.ensureCtx.
  - rewrite H. simpl. destruct (is_suspended _); simpl; eauto.
  - paths; eauto.
Qed.

Lemma ensureCtx_gains e g node :
  gains e !! g = Some node -> gains (Volume.ensureCtx cfg e) !! g = Some node.
Proof.
  intros H. unfold Volume.ensureCtx. paths; try exact H; apply lookup_app_l_Some, H.
Qed.

Lemma ensureCtx_frame e :
  let e' := Volume.ensureCtx cfg e in
  actionIdRef e' = actionIdRef e
  /\ activeKey e' = activeKey e
  /\ currentRef e' = currentRef e
  /\ sources e' = sources e
  /\ timers e' = timers e
  /\ console e' = console e
  /\ cacheRef e' = cacheRef e
  /\ pending e' = pending e
  /\ fetched e' = fetched e
  /\ volume e' = volume e.
Proof. unfold Volume.ensureCtx. repeat split; paths. Qed.

Local Arguments Volume.ensureCtx : simpl never.

(** The selection path of [playKey]. *)
Lemma playKey_select key e :
  Js.strict_eq (pad_key (currentRef e)) key = false ->
  let id := Js.pre_increment (actionIdRef e) in
  let e' := Volume.playKey cfg key e in
  actionIdRef e' = id
  /\ activeKey e' = Some key
  /\ currentRef e' = currentRef e
  /\ sources e' = sources e
  /\ timers e' = timers e
  /\ console e' = console e
  /\ cacheRef e' = cacheRef e
  /\ (exists ld, pending e' = pending e ++ [{| myId := id; op_key := key; op_load := ld |}])
  /\ (forall g node, gains e !! g = Some node -> gains e' !! g = Some node)
  /\ (linked e -> is_Some (ctxRef e') /\ is_Some (masterGainRef e')).
Proof.
  intros Hk id e'. subst e'. unfold Volume.playKey. rewrite Hk. fold id.
  set (e1 := setActiveKey (Some key) (set_actionIdRef id e)).
  assert (Hl : linked e -> linked e1) by (intros H; exact H).
  pose proof (ensureCtx_ready e1) as Hr.
  pose proof (ensureCtx_gains e1) as Hg.
  destruct (ensureCtx_frame e1) as (H1 & H2 & H3 & H4 & H5 & H6 & H7 & H8 & _).
  unfold Volume.loadBuffer.
  destruct (cacheRef (Volume.ensureCtx cfg e1) !! key) as [c|] eqn:Hc.
  - simpl. rewrite H1, H2, H3, H4, H5, H6, H7, H8.
    repeat split; eauto.
    all: match goal with Hlk : linked _ |- _ => apply (Hr (Hl Hlk)) end.
  - pose proof (ensureCtx_ready (Volume.ensureCtx cfg e1)) as Hr2.
    pose proof (ensureCtx_gains (Volume.ensureCtx cfg e1)) as Hg2.
    destruct (ensureCtx_frame (Volume.ensureCtx cfg e1))
      as (G1 & G2 & G3 & G4 & G5 & G6 & G7 & G8 & _).
    simpl. rewrite G1, G2, G3, G4, G5, G6, G7, G8, H1, H2, H3, H4, H5, H6, H7, H8.
    repeat split; eauto.
    all: match goal with Hlk : linked _ |- _ =>
           destruct (Hr (Hl Hlk)) as [Hx Hy]; apply Hr2; right; exact Hy end.
Qed.

Lemma resume_stale op o e :
  myId op <> actionIdRef e ->
  let e' := Volume.playKey_resume cfg op o e in
  currentRef e' = currentRef e
  /\ activeKey e' = activeKey e
  /\ sources e' = sources e
  /\ gains e' = gains e
  /\ timers e' = timers e
  /\ fetched e' = fetched e
  /\ actionIdRef e' = actionIdRef e
  /\ ctxRef e' = ctxRef e
  /\ masterGainRef e' = masterGainRef e
  /\ pending e' = pending e
  /\ volume e' = volume e.
Proof.
  intros Hne. apply Z.eqb_neq in Hne.
  unfold Volume.playKey_resume, loadBuffer_settle, Volume.playKey_catch.
  destruct (op_load op) as [c|url]; [|destruct o as [| | | |buf]];
    simpl; rewrite Hne; simpl; repeat split; reflexivity.
Qed.

Lemma resume_fresh op o e ctx master buf :
  ctxRef e = Some ctx ->
  masterGainRef e = Some master ->
  myId op = actionIdRef e ->
  (loadBuffer_settle (op_key op) (op_load op) o e).2 = inr buf ->
  let e' := Volume.playKey_resume cfg op o e in
  currentRef e'
  = {| pad_key := Some (op_key op); pad_src := Some (length (sources e));
       pad_gain := Some (length (gains e)) |}
  /\ activeKey e' = activeKey e
  /\ sources e' = sources e ++ [started_source buf (length (gains e))]
  /\ actionIdRef e' = actionIdRef e
  /\ ctxRef e' = ctxRef e
  /\ masterGainRef e' = masterGainRef e
  /\ pending e' = pending e
  /\ fetched e' = fetched e
  /\ console e' = console e.
Proof.
  intros Hc Hm Hid Hbuf. apply settle_inr in Hbuf as (c & Hs).
  unfold Volume.playKey_resume. rewrite Hs. simpl.
  rewrite Hid, Z.eqb_refl, Hc, Hm. simpl.
  repeat split; paths.
Qed.


Lemma settle_at i o e op :
  pending e !! i = Some op ->
  Volume.settle cfg i o e
  = Volume.playKey_resume cfg op o (set_pending (delete i (pending e)) e).
Proof. intros H. unfold Volume.settle. rewrite H. reflexivity. Qed.

Lemma settle_ok_inr k ld buf e :
  exists b, (loadBuffer_settle k ld (Decoded buf) e).2 = inr b.
Proof. destruct ld; simpl; eauto. Qed.

(** A selection whose load succeeds before anything else happens makes
    its key the current pad. *)
Lemma play_then_settle key e buf :
  Js.strict_eq (pad_key (currentRef e)) key = false ->
  linked e ->
  let e1 := Volume.playKey cfg key e in
  let e2 := Volume.settle cfg (length (pending e)) (Decoded buf) e1 in
  currentRef e2
  = {| pad_key := Some key; pad_src := Some (length (sources e));
       pad_gain := Some (length (gains e1)) |}
  /\ activeKey e2 = Some key
  /\ pending e2 = pending e
  /\ (exists b, sources e2 = sources e ++ [started_source b (length (gains e1))])
  /\ actionIdRef e2 = actionIdRef e1
  /\ is_Some (ctxRef e2)
  /\ console e2 = console e.
Proof.
  intros Hk Hl e1 e2.
  destruct (playKey_select key e Hk)
    as (Hid & Hact & Hcur & Hsrc & Htm & Hcon & Hcache & (ld & Hpend) & Hgains & Hready).
  fold e1 in Hid, Hact, Hcur, Hsrc, Htm, Hcon, Hcache, Hpend, Hgains, Hready.
  destruct (Hready Hl) as ([ctx Hctx] & [master Hmaster]).
  subst e2. rewrite (settle_at _ _ _ {| myId := Js.pre_increment (actionIdRef e);
                                        op_key := key; op_load := ld |})
    by (rewrite Hpend; apply snoc_lookup).
  rewrite Hpend, snoc_delete.
  destruct (settle_ok_inr key ld buf (set_pending (pending e) e1)) as (b & Hb).
  destruct (resume_fresh {| myId := Js.pre_increment (actionIdRef e);
                            op_key := key; op_load := ld |}
              (Decoded buf) (set_pending (pending e) e1) ctx master b
              Hctx Hmaster (eq_sym Hid) Hb)
    as (R1 & R2 & R3 & R4 & R5 & R6 & R7 & R8 & R9).
  simpl in R1, R2, R3, R4, R5, R6, R7, R8, R9.
  rewrite R1, R2, R3, R4, R5, R7, R9, Hsrc, Hact, Hcon.
  repeat split; eauto.
Qed.

Lemma stop_clears e :
  is_Some (ctxRef e) ->
  is_Some (pad_src (currentRef e)) ->
  is_Some (pad_gain (currentRef e)) ->
  currentRef (Volume.stop cfg e) = no_pad /\ activeKey (Volume.stop cfg e) = None.
Proof.
  intros [ctx Hc] [s Hs] [g Hg]. unfold Volume.stop. rewrite Hc, Hs, Hg.
  split; reflexivity.
Qed.

Lemma strict_eq_refl key : Js.strict_eq (Some key) key = true.
Proof. apply String.eqb_refl. Qed.

(** C2 (amended). In the hook with volume, [playKey(k)] on the key of
    the current pad is [stop()]: the two calls give the same page.  So
    [playKey(k)], the success of its load with nothing in between, and
    [playKey(k)] again end with no current pad and no active key, the page
    [stop()] gives after the load. *)
Theorem C2_toggle_law :
  (forall e key,
      pad_key (currentRef e) = Some key ->
      Volume.playKey cfg key e = Volume.stop cfg e)
  /\ (forall e key buf,
        Js.strict_eq (pad_key (currentRef e)) key = false ->
        linked e ->
        let e1 := Volume.playKey cfg key e in
        let e2 := Volume.settle cfg (length (pending e)) (Decoded buf) e1 in
        let e3 := Volume.playKey cfg key e2 in
        pad_key (currentRef e2) = Some key
        /\ activeKey e2 = Some key
        /\ e3 = Volume.stop cfg e2
        /\ currentRef e3 = no_pad
        /\ activeKey e3 = None).
Proof.
  split.
  - intros e key H. unfold Volume.playKey. rewrite H, strict_eq_refl. reflexivity.
  - intros e key buf Hk Hl e1 e2 e3.
    destruct (play_then_settle key e buf Hk Hl) as (Hcur & Hact & _ & _ & _ & Hctx & _).
    fold e1 in Hcur. fold e2 in Hcur, Hact, Hctx.
    assert (He3 : e3 = Volume.stop cfg e2).
    { subst e3. unfold Volume.playKey. rewrite Hcur. cbn [pad_key].
      rewrite strict_eq_refl. reflexivity. }
    rewrite Hcur. split; [reflexivity|]. split; [exact Hact|].
    split; [exact He3|]. rewrite He3.
    apply stop_clears; [exact Hctx | rewrite Hcur; simpl; eauto ..].
Qed.

Lemma resume_failure op o e url :
  op_load op = Fetching url ->
  (forall buf, o <> Decoded buf) ->
  let e' := Volume.playKey_resume cfg op o e in
  (exists err, console e' = console e ++ [err])
  /\ currentRef e' = currentRef e
  /\ cacheRef e' = cacheRef e
  /\ fetched e' = fetched e
  /\ pending e' = pending e
  /\ sources e' = sources e
  /\ gains e' = gains e
  /\ timers e' = timers e
  /\ actionIdRef e' = actionIdRef e
  /\ ctxRef e' = ctxRef e
  /\ masterGainRef e' = masterGainRef e
  /\ activeKey e' = if (myId op =? actionIdRef e)%Z then None else activeKey e.
Proof.
  intros Hl Ho. unfold Volume.playKey_resume, Volume.playKey_catch. rewrite Hl.
  destruct o as [| | | |buf]; [..|exfalso; exact (Ho buf eq_refl)]; simpl;
    destruct (myId op =? actionIdRef e)%Z; simpl; repeat split; eauto.
Qed.

Lemma pre_increment_le n : (n <= Js.pre_increment n)%Z.
Proof. unfold Js.pre_increment. destruct (n <? 2 ^ 53)%Z; lia. Qed.

Lemma pre_increment_exact n : (n < 2 ^ 53)%Z -> Js.pre_increment n = (n + 1)%Z.
Proof.
  intros H. unfold Js.pre_increment. apply Z.ltb_lt in H. rewrite H. reflexivity.
Qed.

Lemma Volume_step_actionId e ev :
  (actionIdRef e <= actionIdRef (Volume.step cfg e ev))%Z.
Proof.
  destruct ev as [i| |p|i o|i|t|st]; simpl.
  - destruct (Volume.KEYS !! i) as [k|]; [|lia].
    destruct (Js.strict_eq (pad_key (currentRef e)) k) eqn:Hk.
    + unfold Volume.playKey. rewrite Hk. unfold Volume.stop.
      assert (H : forall x y : Z, x = y -> (y <= x)%Z) by (intros; lia).
      apply H. paths.
    + destruct (playKey_select k e Hk) as (-> & _). apply pre_increment_le.
  - assert (H : actionIdRef (Volume.stop cfg e) = actionIdRef e)
      by (unfold Volume.stop; paths).
    rewrite H. lia.
  - assert (H : forall l, actionIdRef (Volume.setVolume l e) = actionIdRef e)
      by (intros l; unfold Volume.setVolume, Volume.volume_effect; paths).
    destruct (p <=? 100); [rewrite H|]; lia.
  - assert (H : actionIdRef (Volume.settle cfg i o e) = actionIdRef e).
    { unfold Volume.settle, Volume.playKey_resume, loadBuffer_settle,
        Volume.playKey_catch. paths. }
    rewrite H. lia.
  - assert (H : actionIdRef (fire_timer i e) = actionIdRef e)
      by (unfold fire_timer; paths).
    rewrite H. lia.
  - assert (H : actionIdRef (advance_clock t e) = actionIdRef e)
      by (unfold advance_clock; paths).
    rewrite H. lia.
  - assert (H : actionIdRef (context_state st e) = actionIdRef e)
      by (unfold context_state; paths).
    rewrite H. lia.
Qed.

Lemma Volume_run_actionId evs e :
  (actionIdRef e <= actionIdRef (Volume.run cfg evs e))%Z.
Proof.
  revert e. induction evs as [|ev evs IH]; intros e; simpl; [lia|].
  pose proof (Volume_step_actionId e ev). pose proof (IH (Volume.step cfg e ev)).
  unfold Volume.run in *. lia.
Qed.

(** C1 (amended). In the hook with volume, let [playKey(A)] and then
    [playKey(B)] both take the selection path (neither key is the current
    pad's) with fewer than 2^53 selections made before.  Then A's stamp is
    below the latest id from then on: whenever A's load settles, and
    however, its continuation starts no source, touches no gain, sets no
    timer and leaves the current pad and the active key alone.  If B's
    load succeeds, before or after A's settles, B is the current pad, B is
    the active key and B's is the one source started. *)
Theorem C1_stale_play_abandons (e : Engine) (A B : string) (oA : Outcome) (bufB : AudioBuffer) :
  Js.strict_eq (pad_key (currentRef e)) A = false ->
  Js.strict_eq (pad_key (currentRef e)) B = false ->
  (actionIdRef e < 2 ^ 53 - 1)%Z ->
  linked e ->
  let n := length (pending e) in
  let e1 := Volume.playKey cfg A e in
  let e2 := Volume.playKey cfg B e1 in
  exists opA opB,
    myId opA = (actionIdRef e + 1)%Z /\ op_key opA = A
    /\ myId opB = (actionIdRef e + 2)%Z /\ op_key opB = B
    /\ pending e2 = pending e ++ [opA; opB]
    /\ actionIdRef e2 = (actionIdRef e + 2)%Z
    /\ activeKey e2 = Some B
    /\ currentRef e2 = currentRef e
    /\ sources e2 = sources e
    /\ (forall evs o,
          let s := Volume.run cfg evs e2 in
          let s' := Volume.playKey_resume cfg opA o s in
          currentRef s' = currentRef s /\ activeKey s' = activeKey s
          /\ sources s' = sources s /\ gains s' = gains s /\ timers s' = timers s)
    /\ (let e3 := Volume.settle cfg n oA e2 in
        let e4 := Volume.settle cfg n (Decoded bufB) e3 in
        currentRef e3 = currentRef e /\ activeKey e3 = Some B
        /\ sources e3 = sources e /\ gains e3 = gains e2 /\ timers e3 = timers e
        /\ pad_key (currentRef e4) = Some B /\ activeKey e4 = Some B
        /\ exists b, sources e4 = sources e ++ [started_source b (length (gains e2))])
    /\ (let e3 := Volume.settle cfg (S n) (Decoded bufB) e2 in
        let e4 := Volume.settle cfg n oA e3 in
        pad_key (currentRef e3) = Some B
        /\ (exists b, sources e3 = sources e ++ [started_source b (length (gains e2))])
        /\ currentRef e4 = currentRef e3 /\ activeKey e4 = Some B
        /\ sources e4 = sources e3 /\ gains e4 = gains e3 /\ timers e4 = timers e3).
Proof.
  intros HA HB Hid Hl n e1 e2.
  destruct (playKey_select A e HA)
    as (Hid1 & Hact1 & Hcur1 & Hsrc1 & Htm1 & _ & _ & (ldA & Hpend1) & _ & Hready1).
  fold e1 in Hid1, Hact1, Hcur1, Hsrc1, Htm1, Hpend1, Hready1.
  rewrite pre_increment_exact in Hid1, Hpend1 by lia.
  destruct (Hready1 Hl) as (_ & Hm1).
  assert (HB1 : Js.strict_eq (pad_key (currentRef e1)) B = false)
    by (rewrite Hcur1; exact HB).
  destruct (playKey_select B e1 HB1)
    as (Hid2 & Hact2 & Hcur2 & Hsrc2 & Htm2 & _ & _ & (ldB & Hpend2) & _ & Hready2).
  fold e2 in Hid2, Hact2, Hcur2, Hsrc2, Htm2, Hpend2, Hready2.
  rewrite Hid1 in Hid2, Hpend2. rewrite pre_increment_exact in Hid2, Hpend2 by lia.
  replace (actionIdRef e + 1 + 1)%Z with (actionIdRef e + 2)%Z in Hid2, Hpend2 by lia.
  rewrite Hpend1, <- app_assoc in Hpend2. simpl in Hpend2.
  destruct (Hready2 (or_intror Hm1)) as ([ctx Hctx] & [master Hmaster]).
  set (opA := {| myId := (actionIdRef e + 1)%Z; op_key := A; op_load := ldA |}) in *.
  set (opB := {| myId := (actionIdRef e + 2)%Z; op_key := B; op_load := ldB |}) in *.
  exists opA, opB.
  do 4 (split; [reflexivity|]).
  split; [exact Hpend2|]. split; [exact Hid2|]. split; [exact Hact2|].
  split; [congruence|]. split; [congruence|].
  split; [|split].
  - intros evs o s s'.
    pose proof (Volume_run_actionId evs e2) as Hmono. fold s in Hmono.
    assert (Hne : myId opA <> actionIdRef s) by (simpl; lia).
    destruct (resume_stale opA o s Hne) as (R1 & R2 & R3 & R4 & R5 & _).
    repeat split; assumption.
  - intros e3 e4.
    assert (He3 : e3 = Volume.playKey_resume cfg opA oA
                         (set_pending (pending e ++ [opB]) e2)).
    { subst e3. rewrite (settle_at _ _ _ opA)
        by (rewrite Hpend2; apply lookup_snoc2_0).
      rewrite Hpend2. unfold n. rewrite delete_snoc2_0. reflexivity. }
    assert (Hne : myId opA <> actionIdRef (set_pending (pending e ++ [opB]) e2))
      by (simpl; lia).
    destruct (resume_stale opA oA _ Hne)
      as (R1 & R2 & R3 & R4 & R5 & _ & R7 & R8 & R9 & R10 & _).
    rewrite <- He3 in R1, R2, R3, R4, R5, R7, R8, R9, R10.
    simpl in R1, R2, R3, R4, R5, R7, R8, R9, R10.
    assert (He4 : e4 = Volume.playKey_resume cfg opB (Decoded bufB)
                         (set_pending (pending e) e3)).
    { subst e4. rewrite (settle_at _ _ _ opB)
        by (rewrite R10; apply snoc_lookup).
      rewrite R10. unfold n. rewrite snoc_delete. reflexivity. }
    destruct (settle_ok_inr B ldB bufB (set_pending (pending e) e3)) as (b & Hb).
    destruct (resume_fresh opB (Decoded bufB) (set_pending (pending e) e3) ctx master b)
      as (F1 & F2 & F3 & _); simpl; try congruence.
    rewrite <- He4 in F1, F2, F3. simpl in F1, F2, F3.
    rewrite R1, R2, R3, R4, R5, F1, F2, F3, R3, R4.
    repeat split; try congruence. exists b. congruence.
  - intros e3 e4.
    assert (He3 : e3 = Volume.playKey_resume cfg opB (Decoded bufB)
                         (set_pending (pending e ++ [opA]) e2)).
    { subst e3. rewrite (settle_at _ _ _ opB)
        by (rewrite Hpend2; apply lookup_snoc2_1).
      rewrite Hpend2. unfold n. rewrite delete_snoc2_1. reflexivity. }
    destruct (settle_ok_inr B ldB bufB (set_pending (pending e ++ [opA]) e2)) as (b & Hb).
    destruct (resume_fresh opB (Decoded bufB) (set_pending (pending e ++ [opA]) e2)
                ctx master b)
      as (F1 & F2 & F3 & F4 & _ & _ & F7 & _); simpl; try congruence.
    rewrite <- He3 in F1, F2, F3, F4, F7. simpl in F1, F2, F3, F4, F7.
    assert (He4 : e4 = Volume.playKey_resume cfg opA oA
                         (set_pending (pending e) e3)).
    { subst e4. rewrite (settle_at _ _ _ opA)
        by (rewrite F7; apply snoc_lookup).
      rewrite F7. unfold n. rewrite snoc_delete. reflexivity. }
    assert (Hne : myId opA <> actionIdRef (set_pending (pending e) e3))
      by (simpl; lia).
    destruct (resume_stale opA oA _ Hne) as (R1 & R2 & R3 & R4 & R5 & _).
    rewrite <- He4 in R1, R2, R3, R4, R5. simpl in R1, R2, R3, R4, R5.
    rewrite R1, R2, R3, R4, R5, F1, F2.
    repeat split; try congruence. exists b. congruence.
Qed.
End VolumePlay.

Section SimplePlay.
Variable cfg : Config.

End SimplePlay.

(** ** Reachable pages *)

Section Wf.
Variable cfg : Config.

Lemma wf_mount allowed : wf (mount cfg allowed).
Proof. wf_goal. Qed.

Lemma wf_ensureCtx e : wf e -> wf (Volume.ensureCtx cfg e) /\ is_Some (ctxRef (Volume.ensureCtx cfg e)).
Proof.
  intros (Hl & Hm & Hp & Hc). unfold Volume.ensureCtx.
  destruct (ctxRef e) as [ctx|] eqn:Hctx; simpl.
  - rewrite Hctx. destruct (is_suspended ctx); simpl.
    + split; [|eauto]. destruct Hl as [Hl|Hl]; [congruence|].
      destruct Hc as [Hc|(k & s & g & Hc & Hs & Hg & _)].
      * wf_goal.
      * split; [right; exact Hl|]. split; [exact Hm|]. split; [eauto|].
        right. exists k, s, g. simpl. eauto.
    + split; [|eauto]. repeat split; try assumption. rewrite Hctx. eauto.
  - destruct Hc as [Hc|(k & s & g & _ & _ & _ & [? Hx])]; [|congruence].
    destruct (is_suspended _); simpl; (split; [|eauto]); wf_goal.
    all: intros; simplify_eq; lens; try lia; eauto.
Qed.

Lemma wf_stop e : wf e -> wf (Volume.stop cfg e).
Proof.
  intros H. wf_cases H; unfold Volume.stop; rewrite ?Hc, ?Hctx, ?Hl; simpl;
    try (destruct (ctxRef e) eqn:?); simpl; wf_close.
Qed.

Lemma wf_setVolume l e : wf e -> wf (Volume.setVolume l e).
Proof.
  intros H. unfold Volume.setVolume, Volume.volume_effect.
  destruct (Qeq_bool l (volume e)); [exact H|].
  wf_cases H; simpl; rewrite ?Hc, ?Hctx, ?Hl; simpl;
    try (destruct (ctxRef e) eqn:?); try (destruct (masterGainRef e) eqn:?); simpl; wf_close.
Qed.

Lemma wf_fire_timer i e : wf e -> wf (fire_timer i e).
Proof.
  intros H. unfold fire_timer. destruct (timers e !! i); [|exact H].
  wf_cases H; simpl; wf_close.
Qed.

Lemma wf_advance_clock t e : wf e -> wf (advance_clock t e).
Proof.
  intros H. unfold advance_clock.
  destruct (ctxRef e) as [c|] eqn:Hx; [|exact H].
  destruct (Qle_bool (currentTime c) t); [|exact H].
  wf_cases H; simpl; wf_close.
Qed.

Lemma wf_context_state st e : wf e -> wf (context_state st e).
Proof.
  intros H. unfold context_state.
  destruct (ctxRef e) as [c|] eqn:Hx; [|exact H].
  wf_cases H; simpl; wf_close.
Qed.

Lemma wf_with_pending p e : wf e -> is_Some (ctxRef e) -> wf (set_pending p e).
Proof. intros H Hx. wf_cases H; wf_close. Qed.

Lemma wf_playKey key e : wf e -> wf (Volume.playKey cfg key e).
Proof.
  intros H. unfold Volume.playKey.
  destruct (Js.strict_eq (pad_key (currentRef e)) key); [apply wf_stop, H|].
  set (e1 := setActiveKey (Some key) (set_actionIdRef _ e)).
  assert (H1 : wf e1) by exact H.
  destruct (wf_ensureCtx e1 H1) as (H2 & Hx2).
  unfold Volume.loadBuffer.
  destruct (cacheRef (Volume.ensureCtx cfg e1) !! key).
  - apply wf_with_pending; assumption.
  - destruct (wf_ensureCtx _ H2) as (H3 & Hx3).
    apply wf_with_pending; assumption.
Qed.

Lemma wf_resume op o e : wf e -> wf (Volume.playKey_resume cfg op o e).
Proof.
  intros H. unfold Volume.playKey_resume, loadBuffer_settle, Volume.playKey_catch.
  wf_cases H; paths; wf_close.
Qed.

Lemma wf_settle i o e : wf e -> wf (Volume.settle cfg i o e).
Proof.
  intros H. unfold Volume.settle.
  destruct (pending e !! i) as [op|] eqn:Hi; [|exact H].
  apply wf_resume.
  destruct H as (Hl & Hm & Hp & Hc). repeat split; try assumption.
  intros _. apply Hp. intros Hnil. rewrite Hnil in Hi. discriminate Hi.
Qed.

Lemma wf_step e ev : wf e -> wf (Volume.step cfg e ev).
Proof.
  intros H. destruct ev as [i| |p|i o|i|t|st]; simpl.
  - destruct (Volume.KEYS !! i); [apply wf_playKey, H | exact H].
  - apply wf_stop, H.
  - destruct (p <=? 100); [apply wf_setVolume, H | exact H].
  - apply wf_settle, H.
  - apply wf_fire_timer, H.
  - apply wf_advance_clock, H.
  - apply wf_context_state, H.
Qed.

(** Every page the hook with volume can reach is well formed. *)
Lemma wf_run evs allowed : wf (Volume.run cfg evs (mount cfg allowed)).
Proof.
  unfold Volume.run. generalize (wf_mount allowed).
  generalize (mount cfg allowed). induction evs as [|ev evs IH]; intros e H; simpl.
  - exact H.
  - apply IH, wf_step, H.
Qed.
End Wf.

Section WfSimple.
Variable cfg : Config.

Lemma ws_mount allowed : wf_simple (mount cfg allowed).
Proof. ws_close. Qed.

Lemma ws_ensureCtx e :
  wf_simple e -> wf_simple (Simple.ensureCtx e) /\ is_Some (ctxRef (Simple.ensureCtx e)).
Proof.
  intros H. unfold Simple.ensureCtx.
  ws_cases H; destruct (ctxRef e) as [c|] eqn:Hx; simpl; rewrite ?Hx; simpl;
    try congruence;
    match goal with
    | |- context [is_suspended ?c] => destruct (is_suspended c)
    end; simpl; (split; [|eauto]); ws_close.
Qed.

Lemma ws_with_pending p e :
  wf_simple e -> is_Some (ctxRef e) -> wf_simple (set_pending p e).
Proof. intros H Hx. ws_cases H; ws_close. Qed.

Lemma ws_playKey key e : wf_simple e -> wf_simple (Simple.playKey cfg key e).
Proof.
  intros H. unfold Simple.playKey.
  set (e1 := setActiveKey (Some key) e).
  assert (H1 : wf_simple e1) by exact H.
  destruct (ws_ensureCtx e1 H1) as (H2 & Hx2).
  unfold Simple.loadBuffer.
  destruct (cacheRef (Simple.ensureCtx e1) !! key).
  - apply ws_with_pending; assumption.
  - destruct (ws_ensureCtx _ H2) as (H3 & Hx3).
    apply ws_with_pending; assumption.
Qed.

Lemma ws_resume op o e : wf_simple e -> wf_simple (Simple.playKey_resume cfg op o e).
Proof.
  intros H.
  unfold Simple.playKey_resume, loadBuffer_settle, Simple.playKey_catch, Simple.fade.
  ws_cases H; paths; ws_close.
Qed.

Lemma ws_step e ev : wf_simple e -> wf_simple (Simple.step cfg e ev).
Proof.
  intros H. destruct ev as [i|i o|i|t|st]; simpl.
  - destruct (Simple.KEYS !! i); [apply ws_playKey, H | exact H].
  - unfold Simple.settle. destruct (pending e !! i) as [op|] eqn:Hi; [|exact H].
    apply ws_resume. destruct H as (Hp & Hc). split; [|exact Hc].
    intros _. apply Hp. intros Hnil. rewrite Hnil in Hi. discriminate Hi.
  - unfold fire_timer. destruct (timers e !! i); [|exact H]. ws_cases H; ws_close.
  - unfold advance_clock. destruct (ctxRef e) as [c|] eqn:Hx; [|exact H].
    destruct (Qle_bool (currentTime c) t); [|exact H]. ws_cases H; ws_close.
  - unfold context_state. destruct (ctxRef e) as [c|] eqn:Hx; [|exact H].
    ws_cases H; ws_close.
Qed.

Lemma ws_run evs allowed : wf_simple (Simple.run cfg evs (mount cfg allowed)).
Proof.
  unfold Simple.run. generalize (ws_mount allowed).
  generalize (mount cfg allowed). induction evs as [|ev evs IH]; intros e H; simpl.
  - exact H.
  - apply IH, ws_step, H.
Qed.
End WfSimple.

(** On a reachable page the current pad is empty, or it is complete: its
    gain node and its source are in the tables and the context exists. *)
Lemma full_pad_nodes e :
  full_pad e ->
  exists ctx k s g node source,
    ctxRef e = Some ctx
    /\ currentRef e = {| pad_key := Some k; pad_src := Some s; pad_gain := Some g |}
    /\ gains e !! g = Some node
    /\ sources e !! s = Some source.
Proof.
  intros (k & s & g & Hc & Hs & Hg & [ctx Hctx]).
  destruct (lookup_lt_is_Some_2 _ _ Hg) as [node Hnode].
  destruct (lookup_lt_is_Some_2 _ _ Hs) as [source Hsource].
  exists ctx, k, s, g, node, source. auto.
Qed.

(** The hypotheses of the statements below hold on every page a hook
    can reach from its mount. *)
Lemma Volume_reachable (cfg : Config) (evs : list Volume.Event) (allowed : bool) :
  let e := Volume.run cfg evs (mount cfg allowed) in
  linked e
  /\ (forall m, masterGainRef e = Some m -> is_Some (gains e !! m))
  /\ (currentRef e = no_pad
      \/ exists ctx k s g node source,
           ctxRef e = Some ctx
           /\ currentRef e
              = {| pad_key := Some k; pad_src := Some s; pad_gain := Some g |}
           /\ gains e !! g = Some node
           /\ sources e !! s = Some source).
Proof.
  intros e. destruct (wf_run cfg evs allowed) as (Hl & Hm & _ & Hc). fold e in Hl, Hm, Hc.
  split; [exact Hl|]. split.
  - intros m H. apply lookup_lt_is_Some_2, Hm, H.
  - destruct Hc as [Hc|Hc]; [left; exact Hc | right; apply full_pad_nodes, Hc].
Qed.

Lemma Simple_reachable (cfg : Config) (evs : list Simple.Event) (allowed : bool) :
  let e := Simple.run cfg evs (mount cfg allowed) in
  currentRef e = no_pad
  \/ exists ctx k s g node source,
       ctxRef e = Some ctx
       /\ currentRef e
          = {| pad_key := Some k; pad_src := Some s; pad_gain := Some g |}
       /\ gains e !! g = Some node
       /\ sources e !! s = Some source.
Proof.
  intros e. destruct (ws_run cfg evs allowed) as (_ & Hc). fold e in Hc.
  destruct Hc as [Hc|Hc]; [left; exact Hc | right; apply full_pad_nodes, Hc].
Qed.

Section Counter.
Variable cfg : Config.

(** The action id counts selections: it never exceeds the number of
    events so far. *)
Lemma Volume_step_actionId_bound e ev :
  (actionIdRef (Volume.step cfg e ev) <= actionIdRef e + 1)%Z.
Proof.
  pose proof (Volume_step_actionId cfg e ev) as Hle.
  destruct ev as [i| |p|i o|i|t|st]; simpl in *.
  - destruct (Volume.KEYS !! i) as [k|]; [|lia].
    destruct (Js.strict_eq (pad_key (currentRef e)) k) eqn:Hk.
    + unfold Volume.playKey. rewrite Hk.
      assert (H : actionIdRef (Volume.stop cfg e) = actionIdRef e)
        by (unfold Volume.stop; paths).
      rewrite H. lia.
    + destruct (playKey_select cfg k e Hk) as (-> & _).
      unfold Js.pre_increment. destruct (actionIdRef e <? 2 ^ 53)%Z; lia.
  - assert (H : actionIdRef (Volume.stop cfg e) = actionIdRef e)
      by (unfold Volume.stop; paths).
    rewrite H. lia.
  - assert (H : forall l, actionIdRef (Volume.setVolume l e) = actionIdRef e)
      by (intros l; unfold Volume.setVolume, Volume.volume_effect; paths).
    destruct (p <=? 100); [rewrite H|]; lia.
  - assert (H : actionIdRef (Volume.settle cfg i o e) = actionIdRef e).
    { unfold Volume.settle, Volume.playKey_resume, loadBuffer_settle,
        Volume.playKey_catch. paths. }
    rewrite H. lia.
  - assert (H : actionIdRef (fire_timer i e) = actionIdRef e)
      by (unfold fire_timer; paths).
    rewrite H. lia.
  - assert (H : actionIdRef (advance_clock t e) = actionIdRef e)
      by (unfold advance_clock; paths).
    rewrite H. lia.
  - assert (H : actionIdRef (context_state st e) = actionIdRef e)
      by (unfold context_state; paths).
    rewrite H. lia.
Qed.

Lemma Volume_run_actionId_bound evs e :
  (actionIdRef (Volume.run cfg evs e) <= actionIdRef e + Z.of_nat (length evs))%Z.
Proof.
  revert e. induction evs as [|ev evs IH]; intros e; simpl; [lia|].
  pose proof (Volume_step_actionId_bound e ev).
  pose proof (IH (Volume.step cfg e ev)). unfold Volume.run in *. lia.
Qed.

End Counter.

(** ** The claims about [playKey] *)

Section PlayClaims.
Variable cfg : Config.

Lemma Simple_resume_failure op o e url :
  op_load op = Fetching url ->
  (forall buf, o <> Decoded buf) ->
  let e' := Simple.playKey_resume cfg op o e in
  (exists err, console e' = console e ++ [err])
  /\ currentRef e' = currentRef e
  /\ cacheRef e' = cacheRef e
  /\ fetched e' = fetched e
  /\ pending e' = pending e
  /\ sources e' = sources e
  /\ gains e' = gains e
  /\ timers e' = timers e
  /\ activeKey e'
     = if Js.strict_eq (activeKey e) (op_key op) then None else activeKey e.
Proof.
  intros Hl Ho. unfold Simple.playKey_resume, Simple.playKey_catch. rewrite Hl.
  destruct o as [| | | |buf]; [..|exfalso; exact (Ho buf eq_refl)]; simpl;
    repeat split; eauto.
Qed.

(** A [stop()] issued while a selection loads does not make it stale:
    when the load succeeds the pad starts and becomes current, with no
    key active. *)
Lemma stop_keeps_pending_play_live key e buf :
  Js.strict_eq (pad_key (currentRef e)) key = false ->
  linked e ->
  let e1 := Volume.playKey cfg key e in
  let e2 := Volume.stop cfg e1 in
  let e3 := Volume.settle cfg (length (pending e)) (Decoded buf) e2 in
  actionIdRef e2 = actionIdRef e1
  /\ pad_key (currentRef e3) = Some key
  /\ activeKey e3 = None
  /\ exists b, sources e3 = sources e ++ [started_source b (length (gains e1))].
Proof.
  intros Hk Hl e1 e2 e3.
  destruct (playKey_select cfg key e Hk)
    as (Hid & _ & _ & Hsrc & _ & _ & _ & (ld & Hpend) & _ & Hready).
  fold e1 in Hid, Hsrc, Hpend, Hready.
  destruct (Hready Hl) as ([ctx Hctx] & [master Hmaster]).
  assert (Hstop : actionIdRef e2 = actionIdRef e1 /\ pending e2 = pending e1
                  /\ ctxRef e2 = ctxRef e1 /\ masterGainRef e2 = masterGainRef e1
                  /\ sources e2 = sources e1 /\ activeKey e2 = None
                  /\ length (gains e2) = length (gains e1)).
  { subst e2. unfold Volume.stop. repeat split; paths; apply length_alter. }
  destruct Hstop as (S1 & S2 & S3 & S4 & S5 & S6 & S7).
  set (op := {| myId := Js.pre_increment (actionIdRef e); op_key := key; op_load := ld |}) in *.
  assert (He3 : e3 = Volume.playKey_resume cfg op (Decoded buf)
                       (set_pending (pending e) e2)).
  { subst e3. rewrite (settle_at cfg _ _ _ op)
      by (rewrite S2, Hpend; apply snoc_lookup).
    rewrite S2, Hpend, snoc_delete. reflexivity. }
  destruct (settle_ok_inr key ld buf (set_pending (pending e) e2)) as (b & Hb).
  destruct (resume_fresh cfg op (Decoded buf) (set_pending (pending e) e2) ctx master b)
    as (F1 & F2 & F3 & _); simpl; try congruence.
  rewrite <- He3 in F1, F2, F3. simpl in F1, F2, F3.
  split; [exact S1|]. rewrite F1, F2, F3, S5, S6, S7, Hsrc.
  split; [reflexivity|]. split; [reflexivity|]. exists b. reflexivity.
Qed.


(** C7 (amended). When the fetch or the decode of a [playKey] fails, the
    error is written to the console and nothing else of the page changes
    but the active key: no node, no timer, no fetch, no new pending call,
    the current pad and the cache as they were.  In the hook with volume
    the active key is cleared when the call's stamp is still the latest
    action id and kept otherwise; a later selection whose load succeeds
    becomes the current pad.  In the simpler hook, which has no action
    id, the active key is cleared when it still shows the key of the
    failed call and kept otherwise. *)
Theorem C7_failed_play op o e url :
  op_load op = Fetching url ->
  (forall buf, o <> Decoded buf) ->
  (let e' := Volume.playKey_resume cfg op o e in
   (exists err, console e' = console e ++ [err])
   /\ currentRef e' = currentRef e
   /\ cacheRef e' = cacheRef e
   /\ fetched e' = fetched e
   /\ pending e' = pending e
   /\ sources e' = sources e
   /\ gains e' = gains e
   /\ timers e' = timers e
   /\ actionIdRef e' = actionIdRef e
   /\ activeKey e' = (if (myId op =? actionIdRef e)%Z then None else activeKey e)
   /\ forall key buf,
        linked e ->
        Js.strict_eq (pad_key (currentRef e)) key = false ->
        let e2 := Volume.settle cfg (length (pending e)) (Decoded buf)
                    (Volume.playKey cfg key e') in
        pad_key (currentRef e2) = Some key /\ activeKey e2 = Some key)
  /\ (let e' := Simple.playKey_resume cfg op o e in
      (exists err, console e' = console e ++ [err])
      /\ currentRef e' = currentRef e
      /\ cacheRef e' = cacheRef e
      /\ fetched e' = fetched e
      /\ pending e' = pending e
      /\ sources e' = sources e
      /\ gains e' = gains e
      /\ timers e' = timers e
      /\ activeKey e'
         = if Js.strict_eq (activeKey e) (op_key op) then None else activeKey e).
Proof.
  intros Hl Ho. split.
  - intros e'.
    destruct (resume_failure cfg op o e url Hl Ho)
      as (H1 & H2 & H3 & H4 & H5 & H6 & H7 & H8 & H9 & H10 & H11 & H12).
    fold e' in H1, H2, H3, H4, H5, H6, H7, H8, H9, H10, H11, H12.
    do 10 (split; [assumption|]).
    intros key buf Hlk Hk e2.
    assert (Hk' : Js.strict_eq (pad_key (currentRef e')) key = false)
      by (rewrite H2; exact Hk).
    assert (Hlk' : linked e')
      by (unfold linked; rewrite H10, H11; exact Hlk).
    destruct (play_then_settle cfg key e' buf Hk' Hlk') as (Hcur & Hact & _).
    rewrite H5 in Hcur, Hact. fold e2 in Hcur, Hact.
    rewrite Hcur. split; [reflexivity | exact Hact].
  - apply (Simple_resume_failure op o e url Hl Ho).
Qed.

End PlayClaims.

(** C3. The code at the failing input: a click on C, then [stop()] while
    C loads, then the load succeeds.  [stop] leaves [actionIdRef] as it
    was, the stamp of the suspended call is still the latest, and its
    continuation starts the source and makes C the current pad while the
    active key stays cleared.  The same happens when the later call is a
    [playKey] of the current key, which is [stop]: with C playing, a click
    on D, a click on C and then D's load leave D playing and no key
    active. *)
Theorem C3_stop_does_not_cancel_pending_play :
  let e := Volume.run Volume.defaults
             [Volume.ClickKey 0; Volume.ClickStop; Volume.Settles 0 (Decoded 7)]
             (mount Volume.defaults true) in
  let e' := Volume.run Volume.defaults
              [Volume.ClickKey 2; Volume.ClickKey 0; Volume.Settles 0 (Decoded 8)]
              playing_C in
  (forall cfg s, actionIdRef (Volume.stop cfg s) = actionIdRef s
                 /\ pending (Volume.stop cfg s) = pending s)
  /\ currentRef e = {| pad_key := Some "C"; pad_src := Some 0; pad_gain := Some 1 |}
  /\ sources e = [started_source 7 1]
  /\ activeKey e = None
  /\ pad_key (currentRef e') = Some "D"
  /\ sources e' !! 1 = Some (started_source 8 2)
  /\ activeKey e' = None.
Proof.
  split; [|repeat split].
  intros cfg s. unfold Volume.stop. split; paths.
Qed.

(** Against C1 as the spec states it.  In the simpler hook, which has no
    stale check: clicks on C# and then on C, C's load settles first, C#'s
    later; the late load starts a second source and C# becomes the
    current pad under the highlight of C.  In the hook with volume, when
    the second key is the one playing: with C playing, a click on D and a
    click on C before D has loaded; D's stamp is still the latest and D
    ends up playing. *)
Lemma C1_late_load_takes_over :
  let e := Simple.run Simple.defaults
             [Simple.ClickKey 1; Simple.ClickKey 0;
              Simple.Settles 1 (Decoded 7); Simple.Settles 0 (Decoded 8)]
             (mount Simple.defaults true) in
  let e' := Volume.run Volume.defaults
              [Volume.ClickKey 2; Volume.ClickKey 0; Volume.Settles 0 (Decoded 8)]
              playing_C in
  (pad_key (currentRef e) = Some "C#"
   /\ activeKey e = Some "C"
   /\ sources e = [started_source 7 0; started_source 8 1])
  /\ (pad_key (currentRef e') = Some "D"
      /\ sources e' !! 1 = Some (started_source 8 2)
      /\ actionIdRef e' = 2%Z).
Proof. repeat split. Qed.

(** Against C2 as the spec states it.  The simpler hook has no toggle:
    with C playing, another click on C and its load start a second source
    and leave C current and active.  In the hook with volume two clicks
    on C before the first load has settled are two selections: C ends up
    playing. *)
Lemma C2_second_play_is_not_always_stop :
  let e := Simple.run Simple.defaults
             [Simple.ClickKey 0; Simple.Settles 0 (Decoded 7);
              Simple.ClickKey 0; Simple.Settles 0 (Decoded 7)]
             (mount Simple.defaults true) in
  let e' := Volume.run Volume.defaults
              [Volume.ClickKey 0; Volume.ClickKey 0;
               Volume.Settles 0 (Decoded 7); Volume.Settles 0 (Decoded 7)]
              (mount Volume.defaults true) in
  (pad_key (currentRef e) = Some "C"
   /\ activeKey e = Some "C"
   /\ sources e = [started_source 7 0; started_source 7 1])
  /\ (pad_key (currentRef e') = Some "C"
      /\ activeKey e' = Some "C"
      /\ currentRef e' <> no_pad).
Proof. repeat split. discriminate. Qed.

(** Against C7 as the spec states it.  In the simpler hook two clicks on
    C are in flight; the first load fails.  The second call has superseded
    the first, yet the active key is cleared; the second load then
    succeeds and C plays with no key active. *)
Lemma C7_superseded_failure_clears_highlight :
  let e := Simple.run Simple.defaults
             [Simple.ClickKey 0; Simple.ClickKey 0; Simple.Settles 0 ResponseNotOk]
             (mount Simple.defaults true) in
  let e' := Simple.settle Simple.defaults 0 (Decoded 7) e in
  length (pending e) = 1
  /\ activeKey e = None
  /\ pad_key (currentRef e') = Some "C"
  /\ activeKey e' = None.
Proof. repeat split. Qed.


(** ** The theorems at concrete pages *)

Lemma C1_stale_play_abandons_witness :
  let e := mount Volume.defaults true in
  let e2 := Volume.playKey Volume.defaults "D" (Volume.playKey Volume.defaults "C" e) in
  Js.strict_eq (pad_key (currentRef e)) "C" = false
  /\ Js.strict_eq (pad_key (currentRef e)) "D" = false
  /\ (actionIdRef e < 2 ^ 53 - 1)%Z
  /\ linked e
  /\ pad_key (currentRef
                (Volume.settle Volume.defaults 0 (Decoded 8)
                   (Volume.settle Volume.defaults 0 (Decoded 7) e2))) = Some "D"
  /\ sources (Volume.settle Volume.defaults 0 (Decoded 7)
                (Volume.settle Volume.defaults 1 (Decoded 8) e2))
     = sources (Volume.settle Volume.defaults 1 (Decoded 8) e2).
Proof.
  intros e e2.
  assert (H1 : Js.strict_eq (pad_key (currentRef e)) "C" = false) by reflexivity.
  assert (H2 : Js.strict_eq (pad_key (currentRef e)) "D" = false) by reflexivity.
  assert (H3 : (actionIdRef e < 2 ^ 53 - 1)%Z) by reflexivity.
  assert (H4 : linked e) by (left; reflexivity).
  destruct (C1_stale_play_abandons Volume.defaults e "C" "D" (Decoded 7) 8 H1 H2 H3 H4)
    as (opA & opB & _ & _ & _ & _ & _ & _ & _ & _ & _ & _ & HAB & HBA).
  destruct HAB as (_ & _ & _ & _ & _ & HB & _).
  destruct HBA as (_ & _ & _ & _ & Hs & _).
  split; [exact H1|]. split; [exact H2|]. split; [exact H3|]. split; [exact H4|].
  split; [exact HB | exact Hs].
Defined.

Lemma C2_toggle_law_witness :
  let e := mount Volume.defaults true in
  let e2 := Volume.settle Volume.defaults 0 (Decoded 7)
              (Volume.playKey Volume.defaults "C" e) in
  Js.strict_eq (pad_key (currentRef e)) "C" = false
  /\ linked e
  /\ pad_key (currentRef e2) = Some "C"
  /\ Volume.playKey Volume.defaults "C" e2 = Volume.stop Volume.defaults e2
  /\ currentRef (Volume.playKey Volume.defaults "C" e2) = no_pad
  /\ activeKey (Volume.playKey Volume.defaults "C" e2) = None.
Proof.
  intros e e2.
  assert (H1 : Js.strict_eq (pad_key (currentRef e)) "C" = false) by reflexivity.
  assert (H2 : linked e) by (left; reflexivity).
  destruct (C2_toggle_law Volume.defaults) as (_ & H).
  destruct (H e "C" 7 H1 H2) as (Hk & _ & Hs & Hc & Ha).
  split; [exact H1|]. split; [exact H2|]. split; [exact Hk|].
  split; [exact Hs|]. split; [exact Hc | exact Ha].
Defined.


Lemma C7_failed_play_witness :
  let op := {| myId := 1; op_key := "C"; op_load := Fetching "/sounds/C.mp3" |} in
  let e := set_pending [] (Volume.playKey Volume.defaults "C" (mount Volume.defaults true)) in
  let e' := Volume.playKey_resume Volume.defaults op ResponseNotOk e in
  op_load op = Fetching "/sounds/C.mp3"
  /\ activeKey e = Some "C"
  /\ activeKey e' = None
  /\ currentRef e' = no_pad
  /\ (exists err, console e' = [err])
  /\ pad_key (currentRef
                (Volume.settle Volume.defaults 0 (Decoded 8)
                   (Volume.playKey Volume.defaults "D" e'))) = Some "D".
Proof.
  intros op e e'.
  assert (Ho : forall buf, ResponseNotOk <> Decoded buf) by (intros buf H; discriminate H).
  destruct (C7_failed_play Volume.defaults op ResponseNotOk e "/sounds/C.mp3" eq_refl Ho)
    as ((Hcon & Hcur & _ & _ & _ & _ & _ & _ & _ & Hact & Huse) & _).
  destruct (Huse "D" 8 (or_intror (ex_intro _ 0 eq_refl)) eq_refl) as (HD & _).
  split; [reflexivity|]. split; [reflexivity|].
  split; [exact Hact|]. split; [exact Hcur|]. split; [exact Hcon | exact HD].
Defined.

(** * More of the hooks' behaviour *)

(** ** How the nodes are wired *)

Lemma alter_on_gain_out f i (l : list GainNode) g node :
  alter (on_gain f) i l !! g = Some node ->
  exists node0, l !! g = Some node0 /\ gain_out node = gain_out node0.
Proof.
  destruct (decide (i = g)) as [->|Hne].
  - rewrite list_lookup_alter_eq. destruct (l !! g) as [n0|]; simpl; [|discriminate].
    intros [= <-]. eauto.
  - rewrite list_lookup_alter_ne by exact Hne. eauto.
Qed.

Lemma fmap_on_gain_out f (l : list GainNode) g node :
  (on_gain f <$> l) !! g = Some node ->
  exists node0, l !! g = Some node0 /\ gain_out node = gain_out node0.
Proof.
  rewrite list_lookup_fmap. destruct (l !! g) as [n0|]; simpl; [|discriminate].
  intros [= <-]. eauto.
Qed.

Lemma snoc_lookup_Some {A} (l : list A) (x y : A) (i : nat) :
  (l ++ [x]) !! i = Some y -> l !! i = Some y \/ (i = length l /\ y = x).
Proof.
  intros H. apply lookup_app_Some in H as [H|[Hle H]]; [auto|].
  right. destruct (i - length l) as [|n] eqn:E; simpl in H; [|destruct n; discriminate].
  injection H as <-. split; [lia | reflexivity].
Qed.

Section Routing.
Variable cfg : Config.

Ltac routed_split :=
  repeat match goal with
         | H : alter (on_gain _) _ _ !! _ = Some _ |- _ =>
             apply alter_on_gain_out in H as (? & H & ->)
         | H : (on_gain _ <$> _) !! _ = Some _ |- _ =>
             apply fmap_on_gain_out in H as (? & H & ->)
         | H : (_ ++ [_]) !! _ = Some _ |- _ =>
             apply snoc_lookup_Some in H as [H|[-> ->]]
         end.

Ltac routed_op Hwf Hr :=
  unfold routed in *;
  destruct Hwf as (Hl & Hm & _ & _); unfold linked in Hl;
  destruct (masterGainRef _) as [m|] eqn:Hmg;
  [ destruct Hr as ([ctx Hctx] & Hr); specialize (Hm m eq_refl) | ];
  paths; try congruence; simplify_eq;
  try (rewrite Hr; reflexivity);
  try (destruct Hl as [Hl|[? Hl]]; congruence);
  try (split; [eauto|]);
  try (intros g node Hg; routed_split; simpl;
       try solve [ eapply Hr; eassumption
                 | match goal with
                   | |- context [Nat.eqb ?a ?b] =>
                       destruct (Nat.eqb_spec a b); [lia | reflexivity]
                   end
                 | rewrite Hr in Hg; destruct g; discriminate
                 | rewrite Hr in *; simpl in *; simplify_eq; reflexivity ]).

Lemma routed_ensureCtx e : wf e -> routed e -> routed (Volume.ensureCtx cfg e).
Proof. intros Hwf Hr. unfold Volume.ensureCtx. routed_op Hwf Hr. Qed.

Lemma routed_stop e : wf e -> routed e -> routed (Volume.stop cfg e).
Proof. intros Hwf Hr. unfold Volume.stop. routed_op Hwf Hr. Qed.

Lemma routed_setVolume l e : wf e -> routed e -> routed (Volume.setVolume l e).
Proof.
  intros Hwf Hr. unfold Volume.setVolume, Volume.volume_effect.
  destruct (Qeq_bool l (volume e)); [exact Hr|]. routed_op Hwf Hr.
Qed.

Lemma routed_resume op o e :
  wf e -> routed e -> routed (Volume.playKey_resume cfg op o e).
Proof.
  intros Hwf Hr.
  unfold Volume.playKey_resume, loadBuffer_settle, Volume.playKey_catch.
  routed_op Hwf Hr.
Qed.

Lemma routed_playKey key e : wf e -> routed e -> routed (Volume.playKey cfg key e).
Proof.
  intros Hwf Hr. unfold Volume.playKey.
  destruct (Js.strict_eq (pad_key (currentRef e)) key); [apply routed_stop; assumption|].
  set (e1 := setActiveKey (Some key) (set_actionIdRef _ e)).
  assert (Hwf1 : wf e1) by exact Hwf.
  assert (Hr1 : routed e1) by exact Hr.
  destruct (wf_ensureCtx cfg e1 Hwf1) as (Hwf2 & _).
  pose proof (routed_ensureCtx e1 Hwf1 Hr1) as Hr2.
  unfold Volume.loadBuffer.
  destruct (cacheRef (Volume.ensureCtx cfg e1) !! key); [exact Hr2|].
  exact (routed_ensureCtx _ Hwf2 Hr2).
Qed.

Lemma routed_step e ev : wf e -> routed e -> routed (Volume.step cfg e ev).
Proof.
  intros Hwf Hr. destruct ev as [i| |p|i o|i|t|st]; simpl.
  - destruct (Volume.KEYS !! i); [apply routed_playKey; assumption | exact Hr].
  - apply routed_stop; assumption.
  - destruct (p <=? 100); [apply routed_setVolume; assumption | exact Hr].
  - unfold Volume.settle. destruct (pending e !! i) as [op|] eqn:Hi; [|exact Hr].
    apply routed_resume; [|exact Hr].
    destruct Hwf as (Hl & Hm & Hp & Hc). repeat split; try assumption.
    intros _. apply Hp. intros Hnil. rewrite Hnil in Hi. discriminate Hi.
  - unfold fire_timer. routed_op Hwf Hr.
  - unfold advance_clock. routed_op Hwf Hr.
  - unfold context_state. routed_op Hwf Hr.
Qed.

Lemma routed_run evs e :
  wf e -> routed e -> routed (Volume.run cfg evs e).
Proof.
  revert e. induction evs as [|ev evs IH]; intros e Hwf Hr; simpl; [exact Hr|].
  apply IH; [apply wf_step, Hwf | apply routed_step; assumption].
Qed.

(** The master gain, once created, is never replaced. *)
Lemma master_kept_step e ev m :
  masterGainRef e = Some m ->
  is_Some (ctxRef e) ->
  masterGainRef (Volume.step cfg e ev) = Some m
  /\ is_Some (ctxRef (Volume.step cfg e ev)).
Proof.
  intros Hm [ctx Hc]. destruct ev as [i| |p|i o|i|t|st]; simpl.
  - destruct (Volume.KEYS !! i); [|eauto].
    unfold Volume.playKey, Volume.stop, Volume.loadBuffer, Volume.ensureCtx.
    split; paths; eauto.
  - unfold Volume.stop. split; paths; eauto.
  - destruct (p <=? 100); [|eauto].
    unfold Volume.setVolume, Volume.volume_effect. split; paths; eauto.
  - unfold Volume.settle, Volume.playKey_resume, loadBuffer_settle, Volume.playKey_catch.
    split; paths; eauto.
  - unfold fire_timer. split; paths; eauto.
  - unfold advance_clock. split; paths; eauto.
  - unfold context_state. split; paths; eauto.
Qed.

Lemma routed_simple_step e ev :
  routed_simple e -> routed_simple (Simple.step cfg e ev).
Proof.
  intros Hr. unfold routed_simple in *.
  destruct ev as [i|i o|i|t|st]; simpl.
  - assert (H : forall key, gains (Simple.playKey cfg key e) = gains e).
    { intros key. unfold Simple.playKey, Simple.loadBuffer, Simple.ensureCtx. paths. }
    destruct (Simple.KEYS !! i); [rewrite H|]; exact Hr.
  - unfold Simple.settle, Simple.playKey_resume, loadBuffer_settle,
      Simple.playKey_catch, Simple.fade.
    paths; intros g node Hg; routed_split; simpl;
      try solve [eapply Hr; eassumption | reflexivity].
  - unfold fire_timer. paths; exact Hr.
  - unfold advance_clock. paths; intros g node Hg; routed_split; eapply Hr; eassumption.
  - unfold context_state. paths; exact Hr.
Qed.

Lemma routed_simple_run evs e :
  routed_simple e -> routed_simple (Simple.run cfg evs e).
Proof.
  revert e. induction evs as [|ev evs IH]; intros e Hr; simpl; [exact Hr|].
  apply IH, routed_simple_step, Hr.
Qed.

(** X1. On every page the hook with volume reaches, the master gain feeds
    the destination and every other gain node feeds the master gain; in
    the simpler hook every gain node feeds the destination.  The master
    gain and the context, once created, stay the same objects for the
    rest of the run. *)
Theorem X1_every_pad_goes_through_the_master_gain
    (evs more : list Volume.Event) (simple_evs : list Simple.Event) (allowed : bool) :
  let e := Volume.run cfg evs (mount cfg allowed) in
  routed e
  /\ (forall m, masterGainRef e = Some m ->
                masterGainRef (Volume.run cfg more e) = Some m)
  /\ routed_simple (Simple.run cfg simple_evs (mount cfg allowed)).
Proof.
  intros e. split; [|split].
  - apply routed_run; [apply wf_mount | reflexivity].
  - intros m Hm.
    assert (Hc : is_Some (ctxRef e)).
    { pose proof (routed_run evs (mount cfg allowed) (wf_mount cfg allowed) eq_refl) as Hr.
      fold e in Hr. unfold routed in Hr. rewrite Hm in Hr. apply Hr. }
    clearbody e. revert e Hm Hc.
    induction more as [|ev more IH]; intros e Hm Hc; simpl; [exact Hm|].
    destruct (master_kept_step e ev m Hm Hc) as (Hm' & Hc').
    apply IH; assumption.
  - apply routed_simple_run. intros g node Hg. destruct g; discriminate Hg.
Qed.
End Routing.

(** ** What an event does to sources, timers and the current pad *)

Section Effects.
Variable cfg : Config.

Lemma stop_effect e : Effect cfg e (Volume.stop cfg e).
Proof.
  unfold Volume.stop.
  destruct (ctxRef e) as [ctx|] eqn:Hc; [|apply Frame; reflexivity].
  destruct (pad_gain (currentRef e)) as [g|] eqn:Hg; [|apply Frame; reflexivity].
  destruct (pad_src (currentRef e)) as [s|] eqn:Hs; [|apply Frame; reflexivity].
  apply (FadeOut _ _ _ s); simpl; try reflexivity; [apply length_alter | exact Hs].
Qed.

Lemma ensureCtx_effect e : Effect cfg e (Volume.ensureCtx cfg e).
Proof.
  apply Frame; unfold Volume.ensureCtx; paths; lens; lia.
Qed.

Lemma playKey_effect key e : Effect cfg e (Volume.playKey cfg key e).
Proof.
  unfold Volume.playKey.
  destruct (Js.strict_eq (pad_key (currentRef e)) key); [apply stop_effect|].
  apply Frame; unfold Volume.loadBuffer, Volume.ensureCtx; paths; lens; lia.
Qed.

Lemma setVolume_effect l e : Effect cfg e (Volume.setVolume l e).
Proof.
  apply Frame; unfold Volume.setVolume, Volume.volume_effect; paths; lens; lia.
Qed.

Lemma resume_effect op o e :
  wf e -> Effect cfg e (Volume.playKey_resume cfg op o e).
Proof.
  intros Hwf.
  unfold Volume.playKey_resume, loadBuffer_settle, Volume.playKey_catch.
  wf_cases Hwf; paths;
    try (rewrite Hc in *; simpl in *; congruence);
    first [ apply Frame; simpl; lens; first [reflexivity | lia]
          | eapply Switch; simpl;
            [ reflexivity | lens; lia | reflexivity
            | first [ left; split; [assumption | reflexivity]
                    | right; eexists; split; [eassumption | reflexivity] ] ] ].
Qed.

Lemma fire_timer_effect i e : Effect cfg e (fire_timer i e).
Proof.
  unfold fire_timer. destruct (timers e !! i) as [tm|] eqn:Ht.
  - apply (Fire _ _ _ i tm); simpl; auto.
  - apply Frame; auto.
Qed.

Lemma step_effect e ev : wf e -> Effect cfg e (Volume.step cfg e ev).
Proof.
  intros Hwf. destruct ev as [i| |p|i o|i|t|st]; simpl.
  - destruct (Volume.KEYS !! i); [apply playKey_effect | apply Frame; auto].
  - apply stop_effect.
  - destruct (p <=? 100); [apply setVolume_effect | apply Frame; auto].
  - unfold Volume.settle. destruct (pending e !! i) as [op|] eqn:Hi; [|apply Frame; auto].
    assert (Hwf' : wf (set_pending (delete i (pending e)) e)).
    { destruct Hwf as (Hl & Hm & Hp & Hc). repeat split; try assumption.
      intros _. apply Hp. intros Hnil. rewrite Hnil in Hi. discriminate Hi. }
    destruct (resume_effect op o _ Hwf') as [A B C D|s A B C D E|k b A B C D|j tm A B C D E];
      simpl in *.
    + apply Frame; assumption.
    + apply (FadeOut _ _ _ s); assumption.
    + apply (Switch _ _ _ k b); assumption.
    + apply (Fire _ _ _ j tm); assumption.
  - apply fire_timer_effect.
  - apply Frame; unfold advance_clock; paths; lens; lia.
  - apply Frame; unfold context_state; paths; lens; lia.
Qed.

Lemma Simple_resume_effect op o e :
  wf_simple e -> Effect cfg e (Simple.playKey_resume cfg op o e).
Proof.
  intros Hwf.
  unfold Simple.playKey_resume, loadBuffer_settle, Simple.playKey_catch,
    Simple.fade, Simple.gain_value.
  ws_cases Hwf; paths;
    try (rewrite Hc in *; simpl in *; congruence);
    first [ apply Frame; simpl; lens; first [reflexivity | lia]
          | eapply Switch; simpl;
            [ reflexivity | lens; lia | reflexivity
            | first [ left; split; [assumption | reflexivity]
                    | right; eexists; split; [eassumption | reflexivity] ] ] ].
Qed.

Lemma Simple_step_effect e ev : wf_simple e -> Effect cfg e (Simple.step cfg e ev).
Proof.
  intros Hwf. destruct ev as [i|i o|i|t|st]; simpl.
  - destruct (Simple.KEYS !! i); [|apply Frame; auto].
    apply Frame; unfold Simple.playKey, Simple.loadBuffer, Simple.ensureCtx;
      paths; lens; lia.
  - unfold Simple.settle. destruct (pending e !! i) as [op|] eqn:Hi; [|apply Frame; auto].
    assert (Hwf' : wf_simple (set_pending (delete i (pending e)) e)).
    { destruct Hwf as (Hp & Hc). split; [|exact Hc].
      intros _. apply Hp. intros Hnil. rewrite Hnil in Hi. discriminate Hi. }
    destruct (Simple_resume_effect op o _ Hwf') as [A B C D|s A B C D E|k b A B C D|j tm A B C D E];
      simpl in *.
    + apply Frame; assumption.
    + apply (FadeOut _ _ _ s); assumption.
    + apply (Switch _ _ _ k b); assumption.
    + apply (Fire _ _ _ j tm); assumption.
  - apply fire_timer_effect.
  - apply Frame; unfold advance_clock; paths; lens; lia.
  - apply Frame; unfold context_state; paths; lens; lia.
Qed.

Lemma elem_of_delete_other {A} (l : list A) (i : nat) (x y : A) :
  x ∈ l -> l !! i = Some y -> x <> y -> x ∈ delete i l.
Proof.
  revert i. induction l as [|z l IH]; intros i Hx Hi Hne; [inversion Hx|].
  destruct i as [|i]; simpl in *.
  - injection Hi as ->. apply elem_of_cons in Hx as [->|Hx]; [congruence | exact Hx].
  - apply elem_of_cons in Hx as [->|Hx]; [apply list_elem_of_here|].
    apply list_elem_of_further. eapply IH; eassumption.
Qed.

(** An effect keeps the sources in order. *)
Lemma sources_ok_effect e e' : Effect cfg e e' -> sources_ok e -> sources_ok e'.
Proof.
  intros Heff Hok s src Hs.
  destruct Heff as [A B C D|s0 A B C D E|k b A B C D|j tm A B C D E].
  - rewrite A in Hs. destruct (Hok s src Hs) as (H1 & H2 & H3 & (g & H4 & H5) & H6).
    rewrite C, D. repeat split; try assumption. exists g. split; [exact H4 | lia].
  - rewrite A in Hs. destruct (Hok s src Hs) as (H1 & H2 & H3 & (g & H4 & H5) & H6).
    rewrite B, D. repeat split; try assumption; [eauto|].
    right. destruct H6 as [H6|[(tm & Ht & Hts)|H6]]; [| |auto].
    + left. exists (stop_timer cfg s0). split; [apply elem_of_app; right; apply list_elem_of_here|].
      simpl. congruence.
    + left. exists tm. split; [apply elem_of_app; left; exact Ht | exact Hts].
  - rewrite A in Hs. apply snoc_lookup_Some in Hs as [Hs|[-> ->]].
    + destruct (Hok s src Hs) as (H1 & H2 & H3 & (g & H4 & H5) & H6).
      rewrite B. repeat split; try assumption; [exists g; split; [exact H4 | lia]|].
      right. destruct H6 as [H6|[(tm & Ht & Hts)|H6]]; [| |auto].
      * destruct D as [(D & _)|(s1 & D1 & D2)]; [rewrite D in H6; discriminate|].
        left. exists (stop_timer cfg s1). rewrite D2.
        split; [apply elem_of_app; right; apply list_elem_of_here|]. simpl. congruence.
      * left. exists tm. split; [|exact Hts].
        destruct D as [(_ & ->)|(s1 & _ & ->)]; [exact Ht|].
        apply elem_of_app. left. exact Ht.
    + rewrite B, C. simpl. repeat split; eauto.
  - rewrite B in Hs. rewrite C, D, E.
    destruct (decide (timer_src tm = s)) as [<-|Hne].
    + rewrite list_lookup_alter_eq in Hs.
      destruct (sources e !! timer_src tm) as [src0|] eqn:Hs0; [|discriminate].
      injection Hs as <-.
      destruct (Hok _ src0 Hs0) as (H1 & H2 & H3 & H4 & H6).
      unfold try_stop. simpl. rewrite H1. repeat split; auto.
    + rewrite list_lookup_alter_ne in Hs by exact Hne.
      destruct (Hok s src Hs) as (H1 & H2 & H3 & H4 & H6).
      repeat split; try assumption.
      destruct H6 as [H6|[(tm' & Ht & Hts)|H6]]; [auto| |auto].
      right. left. exists tm'. split; [|exact Hts].
      eapply elem_of_delete_other; [exact Ht | exact A |]. congruence.
Qed.

Lemma sources_ok_run evs e :
  wf e -> sources_ok e -> sources_ok (Volume.run cfg evs e).
Proof.
  revert e. induction evs as [|ev evs IH]; intros e Hwf Hok; simpl; [exact Hok|].
  apply IH; [apply wf_step, Hwf|].
  eapply sources_ok_effect; [apply step_effect, Hwf | exact Hok].
Qed.

Lemma Simple_sources_ok_run evs e :
  wf_simple e -> sources_ok e -> sources_ok (Simple.run cfg evs e).
Proof.
  revert e. induction evs as [|ev evs IH]; intros e Hwf Hok; simpl; [exact Hok|].
  apply IH; [apply ws_step, Hwf|].
  eapply sources_ok_effect; [apply Simple_step_effect, Hwf | exact Hok].
Qed.

(** X2. On every page either hook reaches, each source ever created is
    started, looping, holds a buffer and feeds a gain node of the page;
    and each source is the current pad's, or has a timer pending that
    will stop it, or is stopped: no pad is left playing without a way to
    end. *)
Theorem X2_every_source_is_current_or_ending
    (evs : list Volume.Event) (simple_evs : list Simple.Event) (allowed : bool) :
  sources_ok (Volume.run cfg evs (mount cfg allowed))
  /\ sources_ok (Simple.run cfg simple_evs (mount cfg allowed)).
Proof.
  split.
  - apply sources_ok_run; [apply wf_mount|]. intros s src Hs. destruct s; discriminate Hs.
  - apply Simple_sources_ok_run; [apply ws_mount|].
    intros s src Hs. destruct s; discriminate Hs.
Qed.

(** X3. On every page either hook reaches, the current pad record is
    empty or complete (key, source and gain node all set, both nodes in
    the page's tables, the context created), and a [playKey] is only ever
    suspended on a page that has its context; in the hook with volume a
    context never exists without its master gain. *)
Theorem X3_the_current_pad_is_empty_or_complete
    (evs : list Volume.Event) (simple_evs : list Simple.Event) (allowed : bool) :
  let e := Volume.run cfg evs (mount cfg allowed) in
  let e' := Simple.run cfg simple_evs (mount cfg allowed) in
  ((currentRef e = no_pad \/ full_pad e)
   /\ (pending e <> [] -> is_Some (ctxRef e))
   /\ (is_Some (ctxRef e) -> exists m, masterGainRef e = Some m /\ m < length (gains e)))
  /\ ((currentRef e' = no_pad \/ full_pad e')
      /\ (pending e' <> [] -> is_Some (ctxRef e'))).
Proof.
  intros e e'. split.
  - destruct (wf_run cfg evs allowed) as (Hl & Hm & Hp & Hc). fold e in Hl, Hm, Hp, Hc.
    split; [exact Hc|]. split; [exact Hp|].
    intros [ctx Hctx]. destruct Hl as [Hl|[m Hl]]; [congruence|].
    exists m. split; [exact Hl | apply Hm, Hl].
  - destruct (ws_run cfg simple_evs allowed) as (Hp & Hc). split; assumption.
Qed.

Lemma current_source_in_table e s :
  currentRef e = no_pad \/ full_pad e ->
  pad_src (currentRef e) = Some s -> s < length (sources e).
Proof.
  intros [H|(k & s' & g & H & Hs & _)] Hsrc; rewrite H in Hsrc; simpl in Hsrc.
  - discriminate Hsrc.
  - injection Hsrc as <-. exact Hs.
Qed.

Lemma timers_ok_snoc e e' s :
  timers_ok cfg e ->
  pad_src (currentRef e) = Some s -> s < length (sources e) ->
  timers e' = timers e ++ [stop_timer cfg s] ->
  length (sources e) <= length (sources e') ->
  pad_src (currentRef e') <> Some s ->
  (forall tm, tm ∈ timers e -> pad_src (currentRef e') <> Some (timer_src tm)) ->
  timers_ok cfg e'.
Proof.
  intros (Hnd & Hall) Hcur Hlen Ht Hle Hnew Hold. unfold timers_ok. rewrite Ht.
  rewrite Forall_forall in Hall. split.
  - rewrite fmap_app. apply NoDup_app. split; [exact Hnd|]. split; [|apply NoDup_singleton].
    intros x Hx Hx'. apply list_elem_of_singleton in Hx'. simpl in Hx'. subst x.
    apply list_elem_of_fmap in Hx as (tm & Htm & Hin).
    destruct (Hall tm Hin) as (_ & _ & Hne). congruence.
  - apply Forall_app. split.
    + apply Forall_forall. intros tm Hin. destruct (Hall tm Hin) as (H1 & H2 & _).
      split; [exact H1|]. split; [lia | apply Hold, Hin].
    + constructor; [|constructor]. simpl. split; [reflexivity|]. split; [lia | exact Hnew].
Qed.

Lemma timers_ok_effect e e' :
  Effect cfg e e' -> currentRef e = no_pad \/ full_pad e ->
  timers_ok cfg e -> timers_ok cfg e'.
Proof.
  intros Heff Hcur Hok.
  destruct Heff as [A B C D|s0 A B C D E|k b A B C D|j tm A B C D E].
  - unfold timers_ok. rewrite A, C, D. exact Hok.
  - eapply (timers_ok_snoc e e' s0); try eassumption.
    + eapply current_source_in_table; eassumption.
    + rewrite A. lia.
    + rewrite E. discriminate.
    + intros tm _. rewrite E. discriminate.
  - assert (Hfresh : forall tm, tm ∈ timers e ->
                       pad_src (currentRef e') <> Some (timer_src tm)).
    { intros tm Hin. rewrite C. simpl. destruct Hok as (_ & Hall).
      rewrite Forall_forall in Hall. destruct (Hall tm Hin) as (_ & H2 & _).
      intros [= H]. lia. }
    destruct D as [(D1 & D2)|(s1 & D1 & D2)].
    + destruct Hok as (Hnd & Hall). unfold timers_ok. rewrite D2. split; [exact Hnd|].
      rewrite Forall_forall in Hall. apply Forall_forall. intros tm Hin.
      destruct (Hall tm Hin) as (H1 & H2 & _). split; [exact H1|].
      split; [rewrite A, length_app; simpl; lia | apply Hfresh, Hin].
    + pose proof (current_source_in_table e s1 Hcur D1) as Hs1.
      eapply (timers_ok_snoc e e' s1); try eassumption.
      * rewrite A, length_app. simpl. lia.
      * rewrite C. simpl. intros [= H]. lia.
  - destruct Hok as (Hnd & Hall). unfold timers_ok. rewrite B, C, D, length_alter. split.
    + rewrite list_fmap_delete. eapply sublist_NoDup; [exact Hnd | apply sublist_delete].
    + apply Forall_delete, Hall.
Qed.

Lemma timers_ok_run evs e :
  wf e -> timers_ok cfg e -> timers_ok cfg (Volume.run cfg evs e).
Proof.
  revert e. induction evs as [|ev evs IH]; intros e Hwf Hok; simpl; [exact Hok|].
  apply IH; [apply wf_step, Hwf|].
  eapply timers_ok_effect; [apply step_effect, Hwf | apply Hwf | exact Hok].
Qed.

Lemma Simple_timers_ok_run evs e :
  wf_simple e -> timers_ok cfg e -> timers_ok cfg (Simple.run cfg evs e).
Proof.
  revert e. induction evs as [|ev evs IH]; intros e Hwf Hok; simpl; [exact Hok|].
  apply IH; [apply ws_step, Hwf|].
  eapply timers_ok_effect; [apply Simple_step_effect, Hwf | apply Hwf | exact Hok].
Qed.

(** X8. On every page either hook reaches, a source has at most one
    stop timer pending, every stop timer runs [fadeMs + 60] milliseconds
    and names a source of the page, and the current pad's source has no
    stop timer: a pad is only ever scheduled to stop once it has been
    faded out and replaced or stopped. *)
Theorem X8_one_stop_timer_per_faded_source
    (evs : list Volume.Event) (simple_evs : list Simple.Event) (allowed : bool) :
  timers_ok cfg (Volume.run cfg evs (mount cfg allowed))
  /\ timers_ok cfg (Simple.run cfg simple_evs (mount cfg allowed)).
Proof.
  split.
  - apply timers_ok_run; [apply wf_mount|]. split; [apply NoDup_nil_2 | constructor].
  - apply Simple_timers_ok_run; [apply ws_mount|]. split; [apply NoDup_nil_2 | constructor].
Qed.
End Effects.

(** ** Last click wins *)

Section LastClick.
Variable cfg : Config.

(** What the continuation of a [playKey] does to the display and to the
    current pad's key. *)
Lemma resume_display op o e :
  let e' := Volume.playKey_resume cfg op o e in
  actionIdRef e' = actionIdRef e
  /\ pending e' = pending e
  /\ ((myId op <> actionIdRef e /\ activeKey e' = activeKey e
       /\ currentRef e' = currentRef e)
      \/ activeKey e' = None
      \/ (myId op = actionIdRef e /\ activeKey e' = activeKey e
          /\ pad_key (currentRef e') = Some (op_key op))).
Proof.
  unfold Volume.playKey_resume, loadBuffer_settle, Volume.playKey_catch.
  split; [paths|]. split; [paths|].
  destruct (Z.eqb_spec (myId op) (actionIdRef e)) as [Heq|Hne].
  - paths; auto.
    all: try (rewrite Heq, Z.eqb_refl in *; discriminate).
    all: right; right; auto.
  - left. apply Z.eqb_neq in Hne. paths.
    all: try (split; [apply Z.eqb_neq; assumption|]; split; reflexivity).
    all: try (rewrite Hne in *; simpl in *; discriminate).
Qed.

(** The three ways an event bears on the suspended calls, the action id,
    the display and the current pad's key. *)
Lemma step_display e ev :
  (actionIdRef e < 2 ^ 53)%Z ->
  let e' := Volume.step cfg e ev in
  (exists k ld,
      k ∈ Volume.KEYS
      /\ actionIdRef e' = (actionIdRef e + 1)%Z
      /\ pending e'
         = pending e ++ [{| myId := (actionIdRef e + 1)%Z; op_key := k; op_load := ld |}]
      /\ activeKey e' = Some k
      /\ currentRef e' = currentRef e)
  \/ (exists i op,
         pending e !! i = Some op
         /\ pending e' = delete i (pending e)
         /\ actionIdRef e' = actionIdRef e
         /\ ((myId op <> actionIdRef e /\ activeKey e' = activeKey e
              /\ currentRef e' = currentRef e)
             \/ activeKey e' = None
             \/ (myId op = actionIdRef e /\ activeKey e' = activeKey e
                 /\ pad_key (currentRef e') = Some (op_key op))))
  \/ (pending e' = pending e
      /\ actionIdRef e' = actionIdRef e
      /\ (activeKey e' = None
          \/ (activeKey e' = activeKey e /\ currentRef e' = currentRef e))).
Proof.
  intros Hlt e'. subst e'.
  assert (Hstop : pending (Volume.stop cfg e) = pending e
                  /\ actionIdRef (Volume.stop cfg e) = actionIdRef e
                  /\ activeKey (Volume.stop cfg e) = None).
  { unfold Volume.stop. repeat split; paths. }
  assert (Hsame : forall e1 : Engine,
             pending e1 = pending e -> actionIdRef e1 = actionIdRef e ->
             activeKey e1 = activeKey e -> currentRef e1 = currentRef e ->
             pending e1 = pending e /\ actionIdRef e1 = actionIdRef e
             /\ (activeKey e1 = None
                 \/ (activeKey e1 = activeKey e /\ currentRef e1 = currentRef e))).
  { intros e1 H1 H2 H3 H4. split; [exact H1|]. split; [exact H2|]. right. split; assumption. }
  destruct ev as [i| |p|i o|i|t|st]; simpl.
  - destruct (Volume.KEYS !! i) as [k|] eqn:Hk; [|right; right; apply Hsame; reflexivity].
    destruct (Js.strict_eq (pad_key (currentRef e)) k) eqn:Hs.
    + right. right. unfold Volume.playKey. rewrite Hs.
      destruct Hstop as (H1 & H2 & H3). split; [exact H1|]. split; [exact H2|]. left. exact H3.
    + left. destruct (playKey_select cfg k e Hs)
        as (H1 & H2 & H3 & _ & _ & _ & _ & (ld & H4) & _).
      rewrite pre_increment_exact in H1, H4 by exact Hlt.
      exists k, ld. split; [eapply list_elem_of_lookup_2; exact Hk|]. auto.
  - right. right. destruct Hstop as (H1 & H2 & H3).
    split; [exact H1|]. split; [exact H2|]. left. exact H3.
  - right. right. destruct (p <=? 100); [|apply Hsame; reflexivity].
    unfold Volume.setVolume, Volume.volume_effect. apply Hsame; paths.
  - unfold Volume.settle.
    destruct (pending e !! i) as [op|] eqn:Hi; [|right; right; apply Hsame; reflexivity].
    right. left. exists i, op. split; [exact Hi|].
    destruct (resume_display op o (set_pending (delete i (pending e)) e))
      as (H1 & H2 & H3).
    simpl in H1, H2, H3. auto.
  - right. right. unfold fire_timer. apply Hsame; paths.
  - right. right. unfold advance_clock. apply Hsame; paths.
  - right. right. unfold context_state. apply Hsame; paths.
Qed.

Lemma pending_ok_step e ev :
  (actionIdRef e < 2 ^ 53)%Z -> pending_ok e -> pending_ok (Volume.step cfg e ev).
Proof.
  intros Hlt (Hall & Hsort).
  destruct (step_display e ev Hlt)
    as [(k & ld & Hk & Hid & Hp & _)|[(i & op & Hi & Hp & Hid & _)|(Hp & Hid & _)]];
    unfold pending_ok; rewrite Hp, Hid.
  - split.
    + apply Forall_app. split.
      * eapply Forall_impl; [exact Hall|]. simpl. intros op [H1 H2]. split; [lia | exact H2].
      * constructor; [|constructor]. simpl. split; [lia | exact Hk].
    + intros a b opa opb Ha Hb Hab.
      apply snoc_lookup_Some in Hb as [Hb|[-> ->]].
      * apply snoc_lookup_Some in Ha as [Ha|[-> _]].
        -- eapply Hsort; eassumption.
        -- apply lookup_lt_Some in Hb. lia.
      * apply snoc_lookup_Some in Ha as [Ha|[-> _]]; [|lia].
        rewrite Forall_lookup in Hall. destruct (Hall _ _ Ha) as [H1 _]. simpl. lia.
  - split; [apply Forall_delete, Hall|].
    intros a b opa opb Ha Hb Hab. rewrite list_lookup_delete in Ha, Hb.
    eapply Hsort; [exact Ha | exact Hb |].
    repeat case_decide; lia.
  - split; assumption.
Qed.

Lemma highlight_ok_step e ev :
  (actionIdRef e < 2 ^ 53)%Z ->
  pending_ok e -> highlight_ok e -> highlight_ok (Volume.step cfg e ev).
Proof.
  intros Hlt (Hall & _) (Hlast & Hshown).
  rewrite Forall_forall in Hall.
  destruct (step_display e ev Hlt)
    as [(k & ld & Hk & Hid & Hp & Ha & Hc)
       |[(i & op & Hi & Hp & Hid & Hcase)|(Hp & Hid & Hcase)]];
    unfold highlight_ok; rewrite Hp, Hid.
  - rewrite Ha. split.
    + intros op Hop Hop_id. apply elem_of_app in Hop as [Hop|Hop].
      * destruct (Hall op Hop) as [Hle _]. lia.
      * apply list_elem_of_singleton in Hop as ->. right. reflexivity.
    + intros k' [= <-]. left. eexists. split; [apply elem_of_app; right; apply list_elem_of_here|].
      split; reflexivity.
  - assert (Hop : op ∈ pending e) by (eapply list_elem_of_lookup_2; exact Hi).
    destruct Hcase as [(Hne & Ha & Hc)|[Ha|(Heq & Ha & Hc)]].
    + rewrite Ha, Hc. split.
      * intros op' Hop' Hid'. apply Hlast; [eapply list_elem_of_delete_inv; exact Hop' | exact Hid'].
      * intros k' Hk'. destruct (Hshown k' Hk') as [(op' & H1 & H2 & H3)|H]; [|auto].
        left. exists op'. split; [|auto].
        eapply elem_of_delete_other; [exact H1 | exact Hi | congruence].
    + rewrite Ha. split; [auto | discriminate].
    + rewrite Ha. split.
      * intros op' Hop' Hid'. apply Hlast; [eapply list_elem_of_delete_inv; exact Hop' | exact Hid'].
      * intros k' Hk'. right.
        destruct (Hlast op Hop Heq) as [H|H]; congruence.
  - destruct Hcase as [Ha|(Ha & Hc)].
    + rewrite Ha. split; [auto | discriminate].
    + rewrite Ha, Hc. split; assumption.
Qed.

Lemma last_click_run evs e :
  (actionIdRef e + Z.of_nat (length evs) < 2 ^ 53)%Z ->
  pending_ok e -> highlight_ok e ->
  pending_ok (Volume.run cfg evs e) /\ highlight_ok (Volume.run cfg evs e).
Proof.
  revert e. induction evs as [|ev evs IH]; intros e Hlt Hp Hh; simpl; [auto|].
  simpl in Hlt.
  pose proof (Volume_step_actionId_bound cfg e ev) as Hb.
  apply IH.
  - lia.
  - apply pending_ok_step; [lia | exact Hp].
  - apply highlight_ok_step; [lia | exact Hp | exact Hh].
Qed.
Lemma mount_pending_ok allowed : pending_ok (mount cfg allowed).
Proof.
  split; [constructor|]. intros i j opi opj Hi. simpl in Hi.
  rewrite lookup_nil in Hi. discriminate Hi.
Qed.

Lemma mount_highlight_ok allowed : highlight_ok (mount cfg allowed).
Proof.
  split.
  - intros op Hop. simpl in Hop. apply elem_of_nil in Hop. destruct Hop.
  - intros k Hk. simpl in Hk. discriminate Hk.
Qed.

(** X4. As long as fewer than 2^53 events have happened, the suspended
    calls of [playKey] carry strictly increasing action ids in the order
    of their clicks, none above the latest id, each for a key of the
    grid; so at most one suspended call can still pass the stale check,
    and it is the one of the latest selection.  The latest id counts
    selections: it is never negative and never above the number of
    events. *)
Theorem X4_at_most_one_live_play (evs : list Volume.Event) (allowed : bool) :
  (Z.of_nat (length evs) < 2 ^ 53)%Z ->
  let e := Volume.run cfg evs (mount cfg allowed) in
  pending_ok e
  /\ (forall i j opi opj,
        pending e !! i = Some opi -> pending e !! j = Some opj ->
        myId opi = actionIdRef e -> myId opj = actionIdRef e -> i = j)
  /\ (forall i op, pending e !! i = Some op -> myId op = actionIdRef e ->
                   S i = length (pending e))
  /\ (0 <= actionIdRef e <= Z.of_nat (length evs))%Z.
Proof.
  intros Hlt e.
  destruct (last_click_run evs (mount cfg allowed)) as [Hp _];
    [simpl; lia | apply mount_pending_ok | apply mount_highlight_ok |].
  fold e in Hp. split; [exact Hp|].
  destruct Hp as (Hall & Hsort).
  split; [|split].
  - intros i j opi opj Hi Hj Hidi Hidj.
    destruct (Nat.lt_trichotomy i j) as [H|[H|H]]; [|exact H|].
    + pose proof (Hsort _ _ _ _ Hi Hj H). lia.
    + pose proof (Hsort _ _ _ _ Hj Hi H). lia.
  - intros i op Hi Hid.
    pose proof (lookup_lt_Some _ _ _ Hi) as Hlen.
    destruct (decide (S i = length (pending e))) as [Heq|Hne]; [exact Heq|].
    destruct (lookup_lt_is_Some_2 (pending e) (S i)) as [op' Hop']; [lia|].
    pose proof (Hsort _ _ _ _ Hi Hop' (Nat.lt_succ_diag_r i)) as Hlt'.
    rewrite Forall_lookup in Hall. destruct (Hall _ _ Hop') as [Hle _]. lia.
  - split.
    + pose proof (Volume_run_actionId cfg evs (mount cfg allowed)) as H.
      simpl in H. exact H.
    + pose proof (Volume_run_actionId_bound cfg evs (mount cfg allowed)) as H.
      simpl in H. exact H.
Qed.

(** X5. As long as fewer than 2^53 events have happened, a highlighted
    key is never unrelated to the audio: it is the key of the suspended
    call of the latest selection, or the key of the current pad.  And
    while the call of the latest selection is suspended, the display
    shows its key or nothing. *)
Theorem X5_the_highlight_is_loading_or_playing
    (evs : list Volume.Event) (allowed : bool) :
  (Z.of_nat (length evs) < 2 ^ 53)%Z ->
  highlight_ok (Volume.run cfg evs (mount cfg allowed)).
Proof.
  intros Hlt.
  destruct (last_click_run evs (mount cfg allowed)) as [_ Hh];
    [simpl; lia | apply mount_pending_ok | apply mount_highlight_ok |].
  exact Hh.
Qed.

End LastClick.

Lemma X4_at_most_one_live_play_witness :
  let e := Volume.run Volume.defaults
             [Volume.ClickKey 0; Volume.ClickKey 2; Volume.ClickStop; Volume.ClickKey 4]
             (mount Volume.defaults true) in
  (myId <$> pending e) = [1; 2; 3]%Z
  /\ actionIdRef e = 3%Z
  /\ pending_ok e
  /\ (forall i op, pending e !! i = Some op -> myId op = actionIdRef e ->
                   S i = length (pending e)).
Proof.
  intros e.
  destruct (X4_at_most_one_live_play Volume.defaults
              [Volume.ClickKey 0; Volume.ClickKey 2; Volume.ClickStop; Volume.ClickKey 4]
              true) as (H1 & _ & H3 & _).
  - vm_compute. reflexivity.
  - split; [vm_compute; reflexivity|]. split; [vm_compute; reflexivity|].
    split; [exact H1 | exact H3].
Defined.

Lemma X5_the_highlight_is_loading_or_playing_witness :
  let e := Volume.run Volume.defaults
             [Volume.ClickKey 0; Volume.Settles 0 (Decoded 7); Volume.ClickKey 2]
             (mount Volume.defaults true) in
  activeKey e = Some "D"
  /\ pad_key (currentRef e) = Some "C"
  /\ highlight_ok e.
Proof.
  intros e. split; [vm_compute; reflexivity|]. split; [vm_compute; reflexivity|].
  apply (X5_the_highlight_is_loading_or_playing Volume.defaults
           [Volume.ClickKey 0; Volume.Settles 0 (Decoded 7); Volume.ClickKey 2] true).
  vm_compute. reflexivity.
Defined.

(** ** What is fetched, and when *)

Section Fetching.
Variable cfg : Config.

Lemma lookup_insert_is_Some' (m : gmap string AudioBuffer) k k' b :
  is_Some (m !! k') -> is_Some (<[k:=b]> m !! k').
Proof.
  intros H. destruct (decide (k = k')) as [->|Hne].
  - rewrite lookup_insert_eq. eauto.
  - rewrite lookup_insert_ne by exact Hne. exact H.
Qed.

Lemma Volume_step_cache_kept e ev k :
  is_Some (cacheRef e !! k) -> is_Some (cacheRef (Volume.step cfg e ev) !! k).
Proof.
  intros Hk. destruct ev as [i| |p|i o|i|t|st]; simpl.
  - assert (H : forall key, cacheRef (Volume.playKey cfg key e) = cacheRef e).
    { intros key. unfold Volume.playKey, Volume.stop, Volume.loadBuffer,
        Volume.ensureCtx. paths. }
    destruct (Volume.KEYS !! i); [rewrite H|]; exact Hk.
  - assert (H : cacheRef (Volume.stop cfg e) = cacheRef e)
      by (unfold Volume.stop; paths).
    rewrite H. exact Hk.
  - assert (H : forall l, cacheRef (Volume.setVolume l e) = cacheRef e)
      by (intros l; unfold Volume.setVolume, Volume.volume_effect; paths).
    destruct (p <=? 100); [rewrite H|]; exact Hk.
  - unfold Volume.settle. destruct (pending e !! i) as [op|]; [|exact Hk].
    assert (H : cacheRef (Volume.playKey_resume cfg op o (set_pending (delete i (pending e)) e))
                = cacheRef e
                \/ exists buf,
                   cacheRef (Volume.playKey_resume cfg op o (set_pending (delete i (pending e)) e))
                   = <[op_key op:=buf]> (cacheRef e)).
    { unfold Volume.playKey_resume, loadBuffer_settle, Volume.playKey_catch.
      paths; eauto. }
    destruct H as [->|(buf & ->)]; [exact Hk|].
    apply lookup_insert_is_Some', Hk.
  - assert (H : cacheRef (fire_timer i e) = cacheRef e) by (unfold fire_timer; paths).
    rewrite H. exact Hk.
  - assert (H : cacheRef (advance_clock t e) = cacheRef e)
      by (unfold advance_clock; paths).
    rewrite H. exact Hk.
  - assert (H : cacheRef (context_state st e) = cacheRef e)
      by (unfold context_state; paths).
    rewrite H. exact Hk.
Qed.

Lemma Simple_step_cache_kept e ev k :
  is_Some (cacheRef e !! k) -> is_Some (cacheRef (Simple.step cfg e ev) !! k).
Proof.
  intros Hk. destruct ev as [i|i o|i|t|st]; simpl.
  - assert (H : forall key, cacheRef (Simple.playKey cfg key e) = cacheRef e).
    { intros key. unfold Simple.playKey, Simple.loadBuffer, Simple.ensureCtx. paths. }
    destruct (Simple.KEYS !! i); [rewrite H|]; exact Hk.
  - unfold Simple.settle. destruct (pending e !! i) as [op|]; [|exact Hk].
    assert (H : cacheRef (Simple.playKey_resume cfg op o (set_pending (delete i (pending e)) e))
                = cacheRef e
                \/ exists buf,
                   cacheRef (Simple.playKey_resume cfg op o (set_pending (delete i (pending e)) e))
                   = <[op_key op:=buf]> (cacheRef e)).
    { unfold Simple.playKey_resume, loadBuffer_settle, Simple.playKey_catch, Simple.fade.
      paths; eauto. }
    destruct H as [->|(buf & ->)]; [exact Hk|].
    apply lookup_insert_is_Some', Hk.
  - assert (H : cacheRef (fire_timer i e) = cacheRef e) by (unfold fire_timer; paths).
    rewrite H. exact Hk.
  - assert (H : cacheRef (advance_clock t e) = cacheRef e)
      by (unfold advance_clock; paths).
    rewrite H. exact Hk.
  - assert (H : cacheRef (context_state st e) = cacheRef e)
      by (unfold context_state; paths).
    rewrite H. exact Hk.
Qed.

Lemma Volume_playKey_fetch_uncached key e :
  fetched (Volume.playKey cfg key e) = fetched e
  \/ cacheRef e !! key = None
     /\ fetched (Volume.playKey cfg key e) = fetched e ++ [sharp_url cfg key].
Proof.
  destruct (cacheRef e !! key) as [c|] eqn:Hc.
  - left. unfold Volume.playKey, Volume.stop, Volume.loadBuffer, Volume.ensureCtx.
    paths.
  - destruct (Volume_playKey_fetched cfg key e) as [H|H]; auto.
Qed.

Lemma Simple_playKey_fetch_uncached key e :
  fetched (Simple.playKey cfg key e) = fetched e
  \/ cacheRef e !! key = None
     /\ fetched (Simple.playKey cfg key e) = fetched e ++ [encoded_url cfg key].
Proof.
  destruct (cacheRef e !! key) as [c|] eqn:Hc.
  - left. unfold Simple.playKey, Simple.loadBuffer, Simple.ensureCtx.
    paths.
  - destruct (Simple_playKey_fetched cfg key e) as [H|H]; auto.
Qed.

Lemma Volume_step_fetch_uncached e ev :
  fetched (Volume.step cfg e ev) = fetched e
  \/ exists k, k ∈ Volume.KEYS /\ cacheRef e !! k = None
               /\ fetched (Volume.step cfg e ev) = fetched e ++ [sharp_url cfg k].
Proof.
  destruct ev as [i| |p|i o|i|t|st]; simpl.
  - destruct (Volume.KEYS !! i) as [k|] eqn:Hk; [|auto].
    destruct (Volume_playKey_fetch_uncached k e) as [H|[Hc H]]; [auto|].
    right. exists k. split; [eapply list_elem_of_lookup_2; eassumption | auto].
  - left. unfold Volume.stop. paths.
  - left. destruct (p <=? 100); [|reflexivity].
    unfold Volume.setVolume, Volume.volume_effect. paths.
  - left. unfold Volume.settle, Volume.playKey_resume, loadBuffer_settle,
      Volume.playKey_catch. paths.
  - left. unfold fire_timer. paths.
  - left. unfold advance_clock. paths.
  - left. unfold context_state. paths.
Qed.

Lemma Simple_step_fetch_uncached e ev :
  fetched (Simple.step cfg e ev) = fetched e
  \/ exists k, k ∈ Simple.KEYS /\ cacheRef e !! k = None
               /\ fetched (Simple.step cfg e ev) = fetched e ++ [encoded_url cfg k].
Proof.
  destruct ev as [i|i o|i|t|st]; simpl.
  - destruct (Simple.KEYS !! i) as [k|] eqn:Hk; [|auto].
    destruct (Simple_playKey_fetch_uncached k e) as [H|[Hc H]]; [auto|].
    right. exists k. split; [eapply list_elem_of_lookup_2; eassumption | auto].
  - left. unfold Simple.settle, Simple.playKey_resume, loadBuffer_settle,
      Simple.playKey_catch, Simple.fade. paths.
  - left. unfold fire_timer. paths.
  - left. unfold advance_clock. paths.
  - left. unfold context_state. paths.
Qed.

Lemma not_cached_before (m m' : gmap string AudioBuffer) k :
  (is_Some (m !! k) -> is_Some (m' !! k)) -> m' !! k = None -> m !! k = None.
Proof.
  intros H Hn. destruct (m !! k) eqn:E; [|reflexivity].
  destruct H as [b Hb]; [eauto|]. congruence.
Qed.

Lemma Volume_run_fetch_uncached evs e :
  (forall k, is_Some (cacheRef e !! k) -> is_Some (cacheRef (Volume.run cfg evs e) !! k))
  /\ exists l,
       fetched (Volume.run cfg evs e) = fetched e ++ l
       /\ Forall (fun u => exists k, k ∈ Volume.KEYS /\ cacheRef e !! k = None
                                     /\ u = sharp_url cfg k) l.
Proof.
  revert e. induction evs as [|ev evs IH]; intros e; simpl.
  - split; [auto|]. exists []. rewrite app_nil_r. split; [reflexivity | constructor].
  - destruct (IH (Volume.step cfg e ev)) as (Hkept & l & Hl & Hall).
    split; [intros k Hk; apply Hkept, Volume_step_cache_kept, Hk|].
    assert (Hall' : Forall (fun u => exists k, k ∈ Volume.KEYS /\ cacheRef e !! k = None
                                               /\ u = sharp_url cfg k) l).
    { eapply Forall_impl; [exact Hall|]. simpl. intros u (k & H1 & H2 & H3).
      exists k. split; [exact H1|]. split; [|exact H3].
      eapply not_cached_before; [apply (Volume_step_cache_kept e ev)|exact H2]. }
    change (fold_left (Volume.step cfg) evs (Volume.step cfg e ev))
      with (Volume.run cfg evs (Volume.step cfg e ev)) in *.
    destruct (Volume_step_fetch_uncached e ev) as [H|(k & H1 & H2 & H)].
    + exists l. rewrite Hl, H. auto.
    + exists (sharp_url cfg k :: l). rewrite Hl, H, <- app_assoc.
      split; [reflexivity|]. constructor; [eauto | exact Hall'].
Qed.

Lemma Simple_run_fetch_uncached evs e :
  (forall k, is_Some (cacheRef e !! k) -> is_Some (cacheRef (Simple.run cfg evs e) !! k))
  /\ exists l,
       fetched (Simple.run cfg evs e) = fetched e ++ l
       /\ Forall (fun u => exists k, k ∈ Simple.KEYS /\ cacheRef e !! k = None
                                     /\ u = encoded_url cfg k) l.
Proof.
  revert e. induction evs as [|ev evs IH]; intros e; simpl.
  - split; [auto|]. exists []. rewrite app_nil_r. split; [reflexivity | constructor].
  - destruct (IH (Simple.step cfg e ev)) as (Hkept & l & Hl & Hall).
    split; [intros k Hk; apply Hkept, Simple_step_cache_kept, Hk|].
    assert (Hall' : Forall (fun u => exists k, k ∈ Simple.KEYS /\ cacheRef e !! k = None
                                               /\ u = encoded_url cfg k) l).
    { eapply Forall_impl; [exact Hall|]. simpl. intros u (k & H1 & H2 & H3).
      exists k. split; [exact H1|]. split; [|exact H3].
      eapply not_cached_before; [apply (Simple_step_cache_kept e ev)|exact H2]. }
    change (fold_left (Simple.step cfg) evs (Simple.step cfg e ev))
      with (Simple.run cfg evs (Simple.step cfg e ev)) in *.
    destruct (Simple_step_fetch_uncached e ev) as [H|(k & H1 & H2 & H)].
    + exists l. rewrite Hl, H. auto.
    + exists (encoded_url cfg k :: l). rewrite Hl, H, <- app_assoc.
      split; [reflexivity|]. constructor; [eauto | exact Hall'].
Qed.

(** X6. The cache only grows: a key that has a buffer keeps having one
    whatever happens next, in both hooks.  So from any page on, whatever
    is fetched later is the file of a key of the grid that had no buffer
    on that page: a key that is cached is never fetched again, and
    nothing that was fetched is forgotten. *)
Theorem X6_a_cached_key_is_never_fetched_again
    (e : Engine) (evs : list Volume.Event) (simple_evs : list Simple.Event) :
  ((forall k, is_Some (cacheRef e !! k) ->
              is_Some (cacheRef (Volume.run cfg evs e) !! k))
   /\ exists l,
        fetched (Volume.run cfg evs e) = fetched e ++ l
        /\ Forall (fun u => exists k, k ∈ Volume.KEYS /\ cacheRef e !! k = None
                                      /\ u = sharp_url cfg k) l)
  /\ ((forall k, is_Some (cacheRef e !! k) ->
                 is_Some (cacheRef (Simple.run cfg simple_evs e) !! k))
      /\ exists l,
           fetched (Simple.run cfg simple_evs e) = fetched e ++ l
           /\ Forall (fun u => exists k, k ∈ Simple.KEYS /\ cacheRef e !! k = None
                                         /\ u = encoded_url cfg k) l).
Proof.
  split; [apply Volume_run_fetch_uncached | apply Simple_run_fetch_uncached].
Qed.

Lemma Volume_playKey_miss key e :
  cacheRef e !! key = None ->
  Js.strict_eq (pad_key (currentRef e)) key = false ->
  let e' := Volume.playKey cfg key e in
  fetched e' = fetched e ++ [sharp_url cfg key]
  /\ pending e'
     = pending e ++ [{| myId := Js.pre_increment (actionIdRef e); op_key := key;
                        op_load := Fetching (sharp_url cfg key) |}]
  /\ actionIdRef e' = Js.pre_increment (actionIdRef e)
  /\ cacheRef e' = cacheRef e
  /\ currentRef e' = currentRef e.
Proof.
  intros Hc Hk e'. subst e'.
  unfold Volume.playKey, Volume.loadBuffer, Volume.ensureCtx, Volume.filename, sharp_url.
  rewrite Hk. repeat split; paths.
Qed.

Lemma Simple_playKey_miss key e :
  cacheRef e !! key = None ->
  let e' := Simple.playKey cfg key e in
  fetched e' = fetched e ++ [encoded_url cfg key]
  /\ (exists id, pending e'
                 = pending e ++ [{| myId := id; op_key := key;
                                    op_load := Fetching (encoded_url cfg key) |}])
  /\ cacheRef e' = cacheRef e.
Proof.
  intros Hc e'. subst e'.
  unfold Simple.playKey, Simple.loadBuffer, Simple.ensureCtx, encoded_url.
  repeat split; paths; eauto.
Qed.

(** X7. The cache does not cover a load in flight.  Two calls of
    [playKey] for the same key that has no buffer yet, the second before
    the first load has settled, fetch the same file twice and leave two
    suspended calls; in the hook with the action id the second call
    carries the later id. *)
Theorem X7_overlapping_plays_fetch_twice (key : string) (e : Engine) :
  cacheRef e !! key = None ->
  (Js.strict_eq (pad_key (currentRef e)) key = false ->
   let e' := Volume.playKey cfg key (Volume.playKey cfg key e) in
   fetched e' = fetched e ++ [sharp_url cfg key; sharp_url cfg key]
   /\ exists id1 id2,
        pending e'
        = pending e ++ [ {| myId := id1; op_key := key;
                            op_load := Fetching (sharp_url cfg key) |};
                         {| myId := id2; op_key := key;
                            op_load := Fetching (sharp_url cfg key) |} ]
        /\ id1 = Js.pre_increment (actionIdRef e)
        /\ id2 = Js.pre_increment id1
        /\ actionIdRef e' = id2)
  /\ (let e' := Simple.playKey cfg key (Simple.playKey cfg key e) in
      fetched e' = fetched e ++ [encoded_url cfg key; encoded_url cfg key]
      /\ exists id1 id2,
           pending e'
           = pending e ++ [ {| myId := id1; op_key := key;
                               op_load := Fetching (encoded_url cfg key) |};
                            {| myId := id2; op_key := key;
                               op_load := Fetching (encoded_url cfg key) |} ]).
Proof.
  intros Hc. split.
  - intros Hk e'. subst e'.
    destruct (Volume_playKey_miss key e Hc Hk) as (H1 & H2 & H3 & H4 & H5).
    assert (Hc' : cacheRef (Volume.playKey cfg key e) !! key = None)
      by (rewrite H4; exact Hc).
    assert (Hk' : Js.strict_eq (pad_key (currentRef (Volume.playKey cfg key e))) key = false)
      by (rewrite H5; exact Hk).
    destruct (Volume_playKey_miss key _ Hc' Hk') as (G1 & G2 & G3 & _).
    rewrite G1, H1, <- app_assoc. split; [reflexivity|].
    eexists _, _. rewrite G2, H2, <- app_assoc, G3, H3.
    split; [reflexivity|]. auto.
  - intros e'. subst e'.
    destruct (Simple_playKey_miss key e Hc) as (H1 & (id1 & H2) & H4).
    assert (Hc' : cacheRef (Simple.playKey cfg key e) !! key = None)
      by (rewrite H4; exact Hc).
    destruct (Simple_playKey_miss key _ Hc') as (G1 & (id2 & G2) & _).
    rewrite G1, H1, <- app_assoc. split; [reflexivity|].
    exists id1, id2. rewrite G2, H2, <- app_assoc. reflexivity.
Qed.

End Fetching.

(** ** The page [App] renders *)

Lemma KEYS_NoDup : NoDup Volume.KEYS.
Proof.
  apply NoDup_ListNoDup. repeat constructor; simpl; intuition discriminate.
Qed.

Lemma lit_button_agrees_keys (keys : list string) (e : Engine) :
  NoDup keys ->
  (forall k, activeKey e = Some k -> k ∈ keys) ->
  lit_button_agrees keys e.
Proof.
  intros Hnd Hin. unfold lit_button_agrees, badge, grid, keybtn_class.
  destruct (activeKey e) as [k|] eqn:Ha; simpl.
  - split; [reflexivity|].
    destruct (list_elem_of_lookup_1 _ _ (Hin k eq_refl)) as [i Hi].
    exists i. split.
    + rewrite list_lookup_fmap, Hi. simpl. rewrite String.eqb_refl. reflexivity.
    + intros j b Hj Hne. rewrite list_lookup_fmap in Hj.
      destruct (keys !! j) as [k'|] eqn:Hk'; [|discriminate].
      simpl in Hj. injection Hj as <-. simpl.
      destruct (String.eqb k k') eqn:E; [|reflexivity].
      apply String.eqb_eq in E. subst k'.
      exfalso. apply Hne. eapply NoDup_lookup; eassumption.
  - split; [reflexivity|]. apply Forall_fmap, Forall_forall. intros k _. reflexivity.
Qed.

Section Display.
Variable cfg : Config.

Lemma Volume_step_activeKey e ev :
  activeKey (Volume.step cfg e ev) = activeKey e
  \/ activeKey (Volume.step cfg e ev) = None
  \/ exists k, k ∈ Volume.KEYS /\ activeKey (Volume.step cfg e ev) = Some k.
Proof.
  assert (Hstop : activeKey (Volume.stop cfg e) = None) by (unfold Volume.stop; paths).
  destruct ev as [i| |p|i o|i|t|st]; simpl.
  - destruct (Volume.KEYS !! i) as [k|] eqn:Hk; [|auto].
    destruct (Js.strict_eq (pad_key (currentRef e)) k) eqn:Hs.
    + unfold Volume.playKey. rewrite Hs. auto.
    + destruct (playKey_select cfg k e Hs) as (_ & H & _).
      right. right. exists k. split; [eapply list_elem_of_lookup_2; exact Hk | exact H].
  - auto.
  - left. destruct (p <=? 100); [|reflexivity].
    unfold Volume.setVolume, Volume.volume_effect. paths.
  - unfold Volume.settle. destruct (pending e !! i) as [op|]; [|auto].
    destruct (resume_display cfg op o (set_pending (delete i (pending e)) e))
      as (_ & _ & [(_ & H & _)|[H|(_ & H & _)]]); simpl in H; auto.
  - left. unfold fire_timer. paths.
  - left. unfold advance_clock. paths.
  - left. unfold context_state. paths.
Qed.

Lemma Simple_step_activeKey e ev :
  activeKey (Simple.step cfg e ev) = activeKey e
  \/ activeKey (Simple.step cfg e ev) = None
  \/ exists k, k ∈ Simple.KEYS /\ activeKey (Simple.step cfg e ev) = Some k.
Proof.
  destruct ev as [i|i o|i|t|st]; simpl.
  - destruct (Simple.KEYS !! i) as [k|] eqn:Hk; [|auto].
    right. right. exists k. split; [eapply list_elem_of_lookup_2; exact Hk|].
    unfold Simple.playKey, Simple.loadBuffer, Simple.ensureCtx. paths.
  - unfold Simple.settle. destruct (pending e !! i) as [op|]; [|auto].
    unfold Simple.playKey_resume, loadBuffer_settle, Simple.playKey_catch, Simple.fade.
    paths; auto.
  - left. unfold fire_timer. paths.
  - left. unfold advance_clock. paths.
  - left. unfold context_state. paths.
Qed.

Lemma Volume_run_activeKey evs e :
  (forall k, activeKey e = Some k -> k ∈ Volume.KEYS) ->
  forall k, activeKey (Volume.run cfg evs e) = Some k -> k ∈ Volume.KEYS.
Proof.
  revert e. induction evs as [|ev evs IH]; intros e H; simpl; [exact H|].
  apply IH. intros k Hk.
  destruct (Volume_step_activeKey e ev) as [E|[E|(k' & Hk' & E)]]; rewrite E in Hk.
  - apply H, Hk.
  - discriminate Hk.
  - injection Hk as <-. exact Hk'.
Qed.

Lemma Simple_run_activeKey evs e :
  (forall k, activeKey e = Some k -> k ∈ Simple.KEYS) ->
  forall k, activeKey (Simple.run cfg evs e) = Some k -> k ∈ Simple.KEYS.
Proof.
  revert e. induction evs as [|ev evs IH]; intros e H; simpl; [exact H|].
  apply IH. intros k Hk.
  destruct (Simple_step_activeKey e ev) as [E|[E|(k' & Hk' & E)]]; rewrite E in Hk.
  - apply H, Hk.
  - discriminate Hk.
  - injection Hk as <-. exact Hk'.
Qed.

(** X9. What [App] shows, on every page either hook reaches: the active
    key is always a key of the grid, so the badge reads None and no
    button is lit, or the badge names a key and exactly one button, the
    one labelled with that key, has the class [keybtn active]; every
    other button has the class [keybtn ] (with its trailing blank). *)
Theorem X9_the_badge_and_the_lit_button_agree
    (evs : list Volume.Event) (simple_evs : list Simple.Event) (allowed : bool) :
  let e := Volume.run cfg evs (mount cfg allowed) in
  let e' := Simple.run cfg simple_evs (mount cfg allowed) in
  (forall k, activeKey e = Some k -> k ∈ Volume.KEYS)
  /\ lit_button_agrees Volume.KEYS e
  /\ (forall k, activeKey e' = Some k -> k ∈ Simple.KEYS)
  /\ lit_button_agrees Simple.KEYS e'.
Proof.
  intros e e'.
  assert (H : forall k, activeKey e = Some k -> k ∈ Volume.KEYS).
  { apply Volume_run_activeKey. intros k Hk. discriminate Hk. }
  assert (H' : forall k, activeKey e' = Some k -> k ∈ Simple.KEYS).
  { apply Simple_run_activeKey. intros k Hk. discriminate Hk. }
  split; [exact H|]. split; [apply lit_button_agrees_keys; [apply KEYS_NoDup | exact H]|].
  split; [exact H'|]. apply lit_button_agrees_keys; [apply KEYS_NoDup | exact H'].
Qed.

End Display.

(** ** The files of the keys *)

Lemma append_cons (c : ascii) (s t : string) : String c s +:+ t = String c (s +:+ t).
Proof. reflexivity. Qed.

Lemma length_append (a b : string) :
  String.length (a +:+ b) = String.length a + String.length b.
Proof.
  induction a as [|c a IH]; [reflexivity|].
  rewrite append_cons. simpl. rewrite IH. reflexivity.
Qed.

Lemma append_inv_head (x a b : string) : x +:+ a = x +:+ b -> a = b.
Proof.
  induction x as [|c x IH]; intros H; [exact H|].
  rewrite !append_cons in H. injection H as H. apply IH, H.
Qed.

Lemma append_inv_tail (x a b : string) : a +:+ x = b +:+ x -> a = b.
Proof.
  revert b. induction a as [|c a IH]; intros [|c' b] H.
  - reflexivity.
  - apply (f_equal String.length) in H. rewrite !length_append in H. simpl in H. lia.
  - apply (f_equal String.length) in H. rewrite !length_append in H. simpl in H. lia.
  - rewrite !append_cons in H. injection H as -> H. f_equal. apply IH, H.
Qed.

Lemma hex_val_digit (n : nat) : n < 16 -> hex_val (Js.hex_digit n) = n.
Proof.
  intros H. do 16 (destruct n as [|n]; [reflexivity|]). lia.
Qed.

Lemma percent_encode_inj (c c' : ascii) :
  Js.percent_encode c = Js.percent_encode c' -> c = c'.
Proof.
  unfold Js.percent_encode. cbv zeta.
  pose proof (nat_ascii_bounded c) as Hc. pose proof (nat_ascii_bounded c') as Hc'.
  assert (Hq : nat_of_ascii c / 16 < 16) by (apply Nat.Div0.div_lt_upper_bound; lia).
  assert (Hq' : nat_of_ascii c' / 16 < 16) by (apply Nat.Div0.div_lt_upper_bound; lia).
  assert (Hr : nat_of_ascii c mod 16 < 16) by (apply Nat.mod_upper_bound; lia).
  assert (Hr' : nat_of_ascii c' mod 16 < 16) by (apply Nat.mod_upper_bound; lia).
  pose proof (Nat.div_mod_eq (nat_of_ascii c) 16) as Hn.
  pose proof (Nat.div_mod_eq (nat_of_ascii c') 16) as Hn'.
  revert Hq Hq' Hr Hr' Hn Hn'.
  generalize (nat_of_ascii c / 16) (nat_of_ascii c' / 16)
             (nat_of_ascii c mod 16) (nat_of_ascii c' mod 16).
  intros q q' r r' Hq Hq' Hr Hr' Hn Hn' H. injection H as Hhi Hlo.
  apply (f_equal hex_val) in Hlo, Hhi.
  rewrite !hex_val_digit in Hlo, Hhi by assumption.
  rewrite <- (ascii_nat_embedding c), <- (ascii_nat_embedding c'). f_equal. lia.
Qed.

Lemma percent_is_reserved (c : ascii) : Js.unreserved c = true -> c <> "%"%char.
Proof. intros H ->. vm_compute in H. discriminate H. Qed.

Lemma encodeURIComponent_cons (c : ascii) (s : string) :
  Js.encodeURIComponent (String c s)
  = (if Js.unreserved c then String c EmptyString else Js.percent_encode c)
    +:+ Js.encodeURIComponent s.
Proof. reflexivity. Qed.

Lemma percent_encode_shape (c : ascii) :
  exists h1 h2, Js.percent_encode c = String "%" (String h1 (String h2 EmptyString)).
Proof. eexists _, _. reflexivity. Qed.

(** Percent-encoding loses nothing: two strings with the same encoding
    are the same string. *)
Lemma encodeURIComponent_inj (s s' : string) :
  Js.encodeURIComponent s = Js.encodeURIComponent s' -> s = s'.
Proof.
  revert s'. induction s as [|c s IH]; intros [|c' s'] H.
  - reflexivity.
  - exfalso. rewrite encodeURIComponent_cons in H.
    change (Js.encodeURIComponent EmptyString) with EmptyString in H.
    destruct (percent_encode_shape c') as (h1 & h2 & E). rewrite E in H.
    destruct (Js.unreserved c'); rewrite append_cons in H; discriminate H.
  - exfalso. rewrite encodeURIComponent_cons in H.
    change (Js.encodeURIComponent EmptyString) with EmptyString in H.
    destruct (percent_encode_shape c) as (h1 & h2 & E). rewrite E in H.
    destruct (Js.unreserved c); rewrite append_cons in H; discriminate H.
  - rewrite !encodeURIComponent_cons in H.
    destruct (percent_encode_shape c) as (h1 & h2 & E).
    destruct (percent_encode_shape c') as (h1' & h2' & E').
    destruct (Js.unreserved c) eqn:Hc, (Js.unreserved c') eqn:Hc'.
    + rewrite !append_cons in H. injection H as -> H. f_equal. apply IH, H.
    + rewrite E' in H. rewrite !append_cons in H. injection H as H _.
      exfalso. exact (percent_is_reserved c Hc H).
    + rewrite E in H. rewrite !append_cons in H. injection H as H _.
      exfalso. symmetry in H. exact (percent_is_reserved c' Hc' H).
    + assert (Hp : Js.percent_encode c = Js.percent_encode c'
                   /\ Js.encodeURIComponent s = Js.encodeURIComponent s').
      { rewrite E, E' in *. rewrite !append_cons in H.
        injection H as -> -> H. split; [reflexivity | exact H]. }
      destruct Hp as [Hp Hs]. f_equal; [apply percent_encode_inj, Hp | apply IH, Hs].
Qed.

Lemma filename_inj_on_KEYS (k k' : string) :
  k ∈ Volume.KEYS -> k' ∈ Volume.KEYS ->
  Js.replace "#" "sharp" k = Js.replace "#" "sharp" k' -> k = k'.
Proof.
  unfold Volume.KEYS. intros Hk Hk' H.
  repeat (apply elem_of_cons in Hk as [->|Hk]);
    try (apply elem_of_nil in Hk; destruct Hk);
    repeat (apply elem_of_cons in Hk' as [->|Hk']);
    try (apply elem_of_nil in Hk'; destruct Hk');
    first [reflexivity | vm_compute in H; discriminate H].
Qed.

(** X10. No two keys of the grid share a sound file, whatever the base
    path and the extension.  In the simpler hook this holds for any two
    different key strings, because percent-encoding loses nothing.  In
    the hook with volume it holds on the grid but not beyond it: the
    file name replaces the first [#] by [sharp], so a key spelled
    [Csharp] would load the file of [C#]. *)
Theorem X10_distinct_keys_have_distinct_files (cfg : Config) :
  NoDup (sharp_url cfg <$> Volume.KEYS)
  /\ NoDup (encoded_url cfg <$> Simple.KEYS)
  /\ (forall k k', encoded_url cfg k = encoded_url cfg k' -> k = k')
  /\ sharp_url cfg "C#" = sharp_url cfg "Csharp".
Proof.
  assert (Henc : forall k k', encoded_url cfg k = encoded_url cfg k' -> k = k').
  { unfold encoded_url. intros k k' H.
    apply append_inv_head, encodeURIComponent_inj, append_inv_tail in H. exact H. }
  split; [|split; [|split]].
  - apply NoDup_fmap_2_strong; [|apply KEYS_NoDup].
    unfold sharp_url. intros k k' Hk Hk' H.
    apply append_inv_head, append_inv_tail in H.
    apply filename_inj_on_KEYS; assumption.
  - apply NoDup_fmap_2_strong; [|apply KEYS_NoDup].
    intros k k' _ _. apply Henc.
  - exact Henc.
  - reflexivity.
Qed.

(** ** Unmounting *)

Section Unmount.
Variable cfg : Config.

(** X11. When the component of the simpler hook unmounts after any run,
    the cleanup leaves no pad playing without an end: every source is
    stopped or still has its stop timer pending, and the context, if
    there is one, is closed.  The cleanup clears no timer, cancels no
    suspended [playKey], and leaves the current-pad record, the gain
    nodes and the cache as they were. *)
Theorem X11_cleanup_ends_every_source (evs : list Simple.Event) (allowed : bool) :
  let e0 := Simple.run cfg evs (mount cfg allowed) in
  let e := cleanup e0 in
  (forall s src, sources e !! s = Some src ->
                 stopped src = true
                 \/ exists tm, tm ∈ timers e /\ timer_src tm = s)
  /\ (forall c, ctxRef e = Some c -> state c = Closed)
  /\ timers e = timers e0
  /\ pending e = pending e0
  /\ currentRef e = currentRef e0
  /\ gains e = gains e0
  /\ cacheRef e = cacheRef e0.
Proof.
  intros e0 e.
  assert (Hok : sources_ok e0).
  { apply Simple_sources_ok_run; [apply ws_mount|].
    intros s src Hs. destruct s; discriminate Hs. }
  assert (Ht : timers e = timers e0) by (unfold e, cleanup; paths).
  split.
  - intros s src Hs. rewrite Ht.
    assert (Hsrc : sources e = match pad_src (currentRef e0) with
                               | Some s0 => alter try_stop s0 (sources e0)
                               | None => sources e0
                               end) by (unfold e, cleanup; paths).
    rewrite Hsrc in Hs. destruct (pad_src (currentRef e0)) as [s0|] eqn:Hcur.
    + destruct (decide (s0 = s)) as [->|Hne].
      * rewrite list_lookup_alter_eq in Hs.
        destruct (sources e0 !! s) as [src0|] eqn:Hs0; [|discriminate].
        injection Hs as <-. destruct (Hok s src0 Hs0) as (H1 & _).
        left. unfold try_stop. simpl. rewrite H1. reflexivity.
      * rewrite list_lookup_alter_ne in Hs by exact Hne.
        destruct (Hok s src Hs) as (_ & _ & _ & _ & [H|[H|H]]); [congruence|auto..].
    + destruct (Hok s src Hs) as (_ & _ & _ & _ & [H|[H|H]]); [congruence|auto..].
  - split; [intros c Hc; unfold e, cleanup in Hc; revert Hc; paths; intros; simplify_eq; reflexivity|].
    split; [exact Ht|]. unfold e, cleanup. repeat split; paths.
Qed.

End Unmount.

(** ** Resuming a suspended context *)

Section Resume.
Variable cfg : Config.

(** X12. [ctx.resume()] is called by a click on a key and by nothing
    else, and only when [ensureCtx] finds the context suspended (a new
    context included, when the page may not start audio yet).  Such a
    click calls it once when the key is cached and twice when the key
    must be fetched, since [loadBuffer] runs [ensureCtx] again; in the
    hook with volume a click on the current key is a stop and calls
    nothing. *)
Theorem X12_resume_is_called_by_plays_only (key : string) (e : Engine) :
  let calls := if finds_suspended e
               then match cacheRef e !! key with Some _ => 1 | None => 2 end
               else 0 in
  resume_calls (Volume.playKey cfg key e)
  = resume_calls e
    + (if Js.strict_eq (pad_key (currentRef e)) key then 0 else calls)
  /\ resume_calls (Simple.playKey cfg key e) = resume_calls e + calls
  /\ resume_calls (Volume.stop cfg e) = resume_calls e
  /\ (forall level, resume_calls (Volume.setVolume level e) = resume_calls e)
  /\ (forall op o, resume_calls (Volume.playKey_resume cfg op o e) = resume_calls e)
  /\ (forall op o, resume_calls (Simple.playKey_resume cfg op o e) = resume_calls e).
Proof.
  intros calls. subst calls. unfold resume_calls, finds_suspended.
  split; [|split; [|split; [|split; [|split]]]].
  - unfold Volume.playKey, Volume.stop, Volume.loadBuffer, Volume.ensureCtx,
      is_suspended, new_context.
    paths; simplify_eq; lia.
  - unfold Simple.playKey, Simple.loadBuffer, Simple.ensureCtx, is_suspended, new_context.
    paths; simplify_eq; lia.
  - unfold Volume.stop. paths.
  - intros level. unfold Volume.setVolume, Volume.volume_effect. paths.
  - intros op o. unfold Volume.playKey_resume, loadBuffer_settle, Volume.playKey_catch.
    paths; simplify_eq; reflexivity.
  - intros op o. unfold Simple.playKey_resume, loadBuffer_settle, Simple.playKey_catch,
      Simple.fade.
    paths; simplify_eq; reflexivity.
Qed.

End Resume.

(** ** The master gain follows the stored volume *)

Section MasterSync.
Variable cfg : Config.

Ltac keeps Hoff Hlt :=
  unfold keeps_master; repeat split; paths; simplify_eq;
  try (rewrite list_lookup_alter_ne by (intros ->; eapply Hoff; eauto));
  try (rewrite lookup_app_l by exact Hlt);
  try reflexivity; try lia;
  try (intros ? ?; simplify_eq; first [left; congruence | right; lens; lia]);
  try (eexists _, _; split; [eassumption | split; reflexivity]);
  eauto.

Lemma synced_keeps m e e' :
  masterGainRef e = Some m -> m < length (gains e) ->
  master_synced cfg e -> keeps_master m e e' -> master_synced cfg e'.
Proof.
  intros Hm Hlt Hs (K1 & K2 & K3 & (ctx & ctx' & K4 & K5 & K6) & K7).
  unfold master_synced in *. rewrite Hm in Hs. rewrite K1.
  destruct Hs as (Hoff & node & ctx0 & Hn & Hc & Hev).
  assert (ctx0 = ctx) by congruence. subst ctx0.
  split.
  - intros g Hg. destruct (K7 g Hg) as [H|H]; [apply Hoff, H | lia].
  - exists node, ctx'. rewrite K2, K3, K6. auto.
Qed.

Lemma stop_keeps m e ctx :
  masterGainRef e = Some m -> ctxRef e = Some ctx ->
  (forall g, pad_gain (currentRef e) = Some g -> g <> m) -> m < length (gains e) ->
  keeps_master m e (Volume.stop cfg e).
Proof. intros Hm Hc Hoff Hlt. unfold Volume.stop. keeps Hoff Hlt. Qed.

Lemma playKey_keeps m e ctx key :
  masterGainRef e = Some m -> ctxRef e = Some ctx ->
  (forall g, pad_gain (currentRef e) = Some g -> g <> m) -> m < length (gains e) ->
  keeps_master m e (Volume.playKey cfg key e).
Proof.
  intros Hm Hc Hoff Hlt.
  unfold Volume.playKey, Volume.stop, Volume.loadBuffer, Volume.ensureCtx, resume.
  keeps Hoff Hlt.
Qed.

Lemma settle_keeps m e ctx i o :
  masterGainRef e = Some m -> ctxRef e = Some ctx ->
  (forall g, pad_gain (currentRef e) = Some g -> g <> m) -> m < length (gains e) ->
  keeps_master m e (Volume.settle cfg i o e).
Proof.
  intros Hm Hc Hoff Hlt.
  unfold Volume.settle, Volume.playKey_resume, loadBuffer_settle, Volume.playKey_catch.
  keeps Hoff Hlt.
Qed.

Lemma fire_timer_keeps m e ctx i :
  masterGainRef e = Some m -> ctxRef e = Some ctx ->
  keeps_master m e (fire_timer i e).
Proof.
  intros Hm Hc. unfold fire_timer, keeps_master.
  repeat split; paths; eauto.
Qed.

Lemma context_state_keeps m e ctx st :
  masterGainRef e = Some m -> ctxRef e = Some ctx ->
  keeps_master m e (context_state st e).
Proof.
  intros Hm Hc. unfold context_state, keeps_master.
  repeat split; paths; simplify_eq; eauto.
Qed.

Lemma keeps_refl m e ctx :
  masterGainRef e = Some m -> ctxRef e = Some ctx -> keeps_master m e e.
Proof. intros Hm Hc. unfold keeps_master. repeat split; eauto. Qed.

(** A new volume level reaches the master gain. *)
Lemma synced_setVolume level e :
  master_synced cfg e -> master_synced cfg (Volume.setVolume level e).
Proof.
  intros Hs. unfold Volume.setVolume.
  destruct (Qeq_bool level (volume e)); [exact Hs|].
  unfold master_synced, Volume.volume_effect in *. simpl.
  destruct (masterGainRef e) as [m|] eqn:Hm; [|simpl; rewrite Hm; exact I].
  destruct Hs as (Hoff & node & ctx & Hn & Hc & _).
  rewrite Hc. simpl. rewrite Hm. split; [exact Hoff|].
  eexists _, ctx. rewrite list_lookup_alter_eq, Hn. simpl.
  split; [reflexivity|]. split; [exact Hc|]. right.
  exists (earlier (currentTime ctx) (events (gain node))), (currentTime ctx).
  split; [apply (set_events level (currentTime ctx) (gain node))|].
  split; [apply Qle_refl|]. apply earlier_le, Qle_refl.
Qed.

(** The rendering thread leaves the master gain at its level. *)
Lemma synced_advance_clock t e :
  master_synced cfg e -> master_synced cfg (advance_clock t e).
Proof.
  intros Hs. unfold master_synced, advance_clock in *.
  destruct (masterGainRef e) as [m|] eqn:Hm.
  - destruct Hs as (Hoff & node & ctx & Hn & Hc & Hev). rewrite Hc.
    destruct (Qle_bool (currentTime ctx) t) eqn:Ht; simpl; rewrite Hm.
    + apply Qle_bool_iff in Ht. split; [exact Hoff|].
      eexists _, _. rewrite list_lookup_fmap, Hn. simpl.
      split; [reflexivity|]. split; [reflexivity|]. simpl.
      destruct Hev as [[He Hv]|(pre & t0 & He & Ht0 & Hpre)].
      * left. split; [exact He|]. unfold value_at. rewrite He. exact Hv.
      * right. exists pre, t0. split; [exact He|]. split; [|exact Hpre].
        eapply Qle_trans; eassumption.
    + split; [exact Hoff|]. exists node, ctx. auto.
  - destruct (ctxRef e) as [ctx|]; [|rewrite Hm; exact I].
    destruct (Qle_bool (currentTime ctx) t); simpl; rewrite Hm; exact I.
Qed.

(** The first play creates the master gain at [initialVolume]; nothing
    else creates it. *)
Lemma synced_born e ev :
  masterGainRef e = None -> ctxRef e = None -> gains e = [] -> pending e = [] ->
  currentRef e = no_pad ->
  master_synced cfg (Volume.step cfg e ev).
Proof.
  intros Hm Hc Hg Hp Hcur. unfold master_synced.
  destruct ev as [i| |p|i o|i|t|st]; simpl.
  - destruct (Volume.KEYS !! i) as [k|]; [|rewrite Hm; exact I].
    unfold Volume.playKey, Volume.stop, Volume.loadBuffer, Volume.ensureCtx.
    rewrite Hcur, Hc. simpl. rewrite Hc, Hg. simpl.
    paths; simplify_eq;
      (split; [intros g0 Hg0; rewrite Hcur in Hg0; discriminate Hg0|]); eexists _, _;
      (split; [reflexivity|]); (split; [reflexivity|]); left; split; reflexivity.
  - unfold Volume.stop. rewrite Hc. simpl. rewrite Hm. exact I.
  - destruct (p <=? 100); [|rewrite Hm; exact I].
    unfold Volume.setVolume, Volume.volume_effect. simpl. rewrite Hm.
    destruct (Qeq_bool _ _); simpl; rewrite Hm; exact I.
  - unfold Volume.settle. rewrite Hp. simpl. rewrite Hm. exact I.
  - unfold fire_timer. destruct (timers e !! i); simpl; rewrite Hm; exact I.
  - unfold advance_clock. rewrite Hc, Hm. exact I.
  - unfold context_state. rewrite Hc, Hm. exact I.
Qed.

Lemma synced_step e ev :
  wf e -> routed e -> master_synced cfg e -> master_synced cfg (Volume.step cfg e ev).
Proof.
  intros Hwf Hr Hs.
  destruct (masterGainRef e) as [m|] eqn:Hm.
  - assert (Hlt : m < length (gains e)) by (apply Hwf, Hm).
    pose proof Hs as Hs'. unfold master_synced in Hs'. rewrite Hm in Hs'.
    destruct Hs' as (Hoff & node & ctx & Hn & Hc & _).
    destruct ev as [i| |p|i o|i|t|st]; simpl.
    + destruct (Volume.KEYS !! i) as [k|]; [|exact Hs].
      eapply synced_keeps; [exact Hm | exact Hlt | exact Hs |].
      eapply playKey_keeps; eassumption.
    + eapply synced_keeps; [exact Hm | exact Hlt | exact Hs |].
      eapply stop_keeps; eassumption.
    + destruct (p <=? 100); [|exact Hs]. apply synced_setVolume, Hs.
    + eapply synced_keeps; [exact Hm | exact Hlt | exact Hs |].
      eapply settle_keeps; eassumption.
    + eapply synced_keeps; [exact Hm | exact Hlt | exact Hs |].
      eapply fire_timer_keeps; eassumption.
    + apply synced_advance_clock, Hs.
    + eapply synced_keeps; [exact Hm | exact Hlt | exact Hs |].
      eapply context_state_keeps; eassumption.
  - destruct Hwf as (Hl & _ & Hp & Hcur).
    assert (Hc : ctxRef e = None).
    { destruct Hl as [Hl|[m Hl]]; [exact Hl | congruence]. }
    unfold routed in Hr. rewrite Hm in Hr.
    apply synced_born; try assumption.
    + destruct (pending e) as [|op l]; [reflexivity|].
      destruct Hp as [c Hp]; [discriminate | congruence].
    + destruct Hcur as [Hcur|(k & s & g & _ & _ & _ & [c Hcc])]; [exact Hcur | congruence].
Qed.

Lemma synced_run evs e :
  wf e -> routed e -> master_synced cfg e ->
  master_synced cfg (Volume.run cfg evs e).
Proof.
  revert e. induction evs as [|ev evs IH]; intros e Hwf Hr Hs; simpl; [exact Hs|].
  apply IH; [apply wf_step, Hwf | apply routed_step; assumption |].
  apply synced_step; assumption.
Qed.

(** X13. On every page the hook with volume reaches, the master gain
    is no pad's gain node, and from the current time of the audio clock
    on its automation gives one level for ever: the stored volume as
    soon as any change of the volume has reached it, and the
    [initialVolume] it was created with until then (its automation is
    then empty).  Fades of pads, stops, timers and the rendering thread
    never move it. *)
Theorem X13_the_master_gain_follows_the_volume
    (evs : list Volume.Event) (allowed : bool) (m : nat) :
  let e := Volume.run cfg evs (mount cfg allowed) in
  masterGainRef e = Some m ->
  pad_gain (currentRef e) <> Some m
  /\ exists node ctx,
       gains e !! m = Some node /\ ctxRef e = Some ctx
       /\ ((events (gain node) = []
            /\ forall t, value_at (gain node) t = initialVolume cfg)
           \/ (forall t, (currentTime ctx <= t)%Q ->
                         value_at (gain node) t = volume e)).
Proof.
  intros e Hm.
  assert (Hs : master_synced cfg e).
  { apply synced_run; [apply wf_mount | reflexivity | exact I]. }
  unfold master_synced in Hs. rewrite Hm in Hs.
  destruct Hs as (Hoff & node & ctx & Hn & Hc & Hev).
  split; [intros H; exact (Hoff m H eq_refl)|].
  exists node, ctx. split; [exact Hn|]. split; [exact Hc|].
  destruct Hev as [[He Hv]|(pre & t0 & He & Ht0 & Hpre)].
  - left. split; [exact He|]. intros t. unfold value_at. rewrite He. exact Hv.
  - right. intros t Ht. unfold value_at. rewrite He.
    rewrite timeline_skip; [reflexivity | | eapply Qle_trans; eassumption].
    eapply Forall_impl; [exact Hpre|]. simpl. intros ev Hev.
    eapply Qle_trans; [exact Hev|]. eapply Qle_trans; eassumption.
Qed.

End MasterSync.

(** ** What is logged *)

Section Console.
Variable cfg : Config.






End Console.

Lemma X7_overlapping_plays_fetch_twice_witness :
  fetched (Volume.playKey Volume.defaults "C"
             (Volume.playKey Volume.defaults "C" (mount Volume.defaults true)))
  = ["/sounds/C.mp3"; "/sounds/C.mp3"]
  /\ fetched (Simple.playKey Volume.defaults "C#"
                (Simple.playKey Volume.defaults "C#" (mount Volume.defaults true)))
     = ["/sounds/C%23.mp3"; "/sounds/C%23.mp3"].
Proof.
  destruct (X7_overlapping_plays_fetch_twice Volume.defaults "C"
              (mount Volume.defaults true)) as [HV _]; [reflexivity|].
  destruct (X7_overlapping_plays_fetch_twice Volume.defaults "C#"
              (mount Volume.defaults true)) as [_ HS]; [reflexivity|].
  destruct HV as [HV _]; [reflexivity|].
  destruct HS as [HS _].
  split; [exact HV | exact HS].
Defined.

Lemma X13_the_master_gain_follows_the_volume_witness :
  let e := Volume.run Volume.defaults
             [Volume.ClickKey 0; Volume.Settles 0 (Decoded 7); Volume.Slide 50;
              Volume.Clock 1; Volume.ClickStop]
             (mount Volume.defaults true) in
  masterGainRef e = Some 0
  /\ volume e = (50 # 100)%Q
  /\ exists node ctx,
       gains e !! 0 = Some node /\ ctxRef e = Some ctx
       /\ forall t, (currentTime ctx <= t)%Q -> value_at (gain node) t = (50 # 100)%Q.
Proof.
  intros e.
  assert (Hm : masterGainRef e = Some 0) by (vm_compute; reflexivity).
  assert (Hv : volume e = (50 # 100)%Q) by (vm_compute; reflexivity).
  destruct (X13_the_master_gain_follows_the_volume Volume.defaults
              [Volume.ClickKey 0; Volume.Settles 0 (Decoded 7); Volume.Slide 50;
               Volume.Clock 1; Volume.ClickStop]
              true 0 Hm) as (_ & node & ctx & Hn & Hc & Hev).
  fold e in Hn, Hc, Hev.
  split; [exact Hm|]. split; [exact Hv|].
  exists node, ctx. split; [exact Hn|]. split; [exact Hc|].
  destruct Hev as [[He _]|Hev].
  - exfalso. vm_compute in Hn. injection Hn as <-. discriminate He.
  - intros t Ht. rewrite <- Hv. apply Hev, Ht.
Defined.

(** ** Pads that are not current are faded out *)

Lemma fading_events (node node' : GainNode) :
  events (gain node') = events (gain node) -> fading node -> fading node'.
Proof. unfold fading. intros ->. auto. Qed.

Lemma fading_ramp (node' : GainNode) (from t0 t1 : Q) (p : AudioParam) :
  events (gain node') = events (ramp from 0 t0 t1 p) -> (t0 <= t1)%Q -> fading node'.
Proof.
  intros He H01. unfold fading. rewrite He, ramp_events by exact H01.
  exists (earlier t0 (events p)), from, t0, t1.
  split; [reflexivity|]. split; [exact H01|]. apply earlier_le, Qle_refl.
Qed.

Lemma alter_try_stop_out (i s : nat) (l : list BufferSource) (src : BufferSource) :
  alter try_stop i l !! s = Some src ->
  exists src0, l !! s = Some src0 /\ source_out src = source_out src0.
Proof.
  destruct (decide (i = s)) as [->|Hne].
  - rewrite list_lookup_alter_eq. destruct (l !! s) as [src0|]; [|discriminate].
    intros [= <-]. eauto.
  - rewrite list_lookup_alter_ne by exact Hne. eauto.
Qed.

Section Faded.
Variable cfg : Config.

Lemma faded_ok_preserved e e' :
  Effect cfg e e' -> Regain e e' ->
  (forall m, masterGainRef e = Some m -> m < length (gains e)) ->
  faded_ok e -> faded_ok e'.
Proof.
  intros Heff (Rg & Rf & Rm) Hmlt Hok.
  assert (Hmaster : forall g node, gains e !! g = Some node ->
                      masterGainRef e <> Some g -> masterGainRef e' <> Some g).
  { intros g node Hg Hne. destruct Rm as [->|(_ & _ & ->)]; [exact Hne|].
    apply lookup_lt_Some in Hg. intros [= H]. lia. }
  assert (Hold : forall s src, sources e !! s = Some src ->
                   pad_src (currentRef e') <> Some s ->
                   (pad_src (currentRef e) = Some s ->
                    pad_src (currentRef e') <> pad_src (currentRef e)) ->
                   exists g node',
                     source_out src = Some g /\ gains e' !! g = Some node'
                     /\ masterGainRef e' <> Some g
                     /\ (pad_src (currentRef e') = Some s
                         /\ pad_gain (currentRef e') = Some g
                         \/ pad_src (currentRef e') <> Some s /\ fading node')).
  { intros s src Hs Hnc Hch.
    destruct (Hok s src Hs) as (g & node & H1 & H2 & H3 & H4).
    destruct (Rg g node H2) as (node' & G1 & G2).
    exists g, node'. split; [exact H1|]. split; [exact G1|].
    split; [eapply Hmaster; eassumption|]. right. split; [exact Hnc|].
    destruct H4 as [[H4 H5]|[H4 H5]].
    - eapply Rf; [exact H5 | apply Hch, H4 | exact G1].
    - destruct G2 as [G2|[G2|[_ G2]]]; [|congruence|exact G2].
      eapply fading_events; eassumption. }
  assert (Hkeep : forall s src, sources e !! s = Some src ->
                    currentRef e' = currentRef e ->
                    exists g node',
                      source_out src = Some g /\ gains e' !! g = Some node'
                      /\ masterGainRef e' <> Some g
                      /\ (pad_src (currentRef e') = Some s
                          /\ pad_gain (currentRef e') = Some g
                          \/ pad_src (currentRef e') <> Some s /\ fading node')).
  { intros s src Hs Hc.
    destruct (Hok s src Hs) as (g & node & H1 & H2 & H3 & H4).
    destruct (Rg g node H2) as (node' & G1 & G2).
    exists g, node'. split; [exact H1|]. split; [exact G1|].
    split; [eapply Hmaster; eassumption|]. rewrite Hc.
    destruct H4 as [H4|[H4 H5]]; [left; exact H4|].
    right. split; [exact H4|].
    destruct G2 as [G2|[G2|[_ G2]]]; [|congruence|exact G2].
    eapply fading_events; eassumption. }
  intros s src Hs.
  destruct Heff as [A B C D|s0 A B C D E|k b A B C D|j tm A B C D E].
  - rewrite A in Hs. apply Hkeep; assumption.
  - rewrite A in Hs. apply Hold; [exact Hs | rewrite E; discriminate |].
    intros Hc. rewrite E, Hc. discriminate.
  - rewrite A in Hs. apply snoc_lookup_Some in Hs as [Hs|[-> ->]].
    + pose proof (lookup_lt_Some _ _ _ Hs) as Hlt.
      apply Hold; [exact Hs | rewrite C; simpl; intros [= H]; lia |].
      intros Hc. rewrite C, Hc. simpl. intros [= H]. lia.
    + destruct (lookup_lt_is_Some_2 (gains e') (length (gains e))) as [node' Hn];
        [rewrite B; lia|].
      exists (length (gains e)), node'. split; [reflexivity|]. split; [exact Hn|].
      split; [|left; rewrite C; split; reflexivity].
      destruct Rm as [->|(_ & Hsame & _)].
      * intros H. apply Hmlt in H. lia.
      * apply (f_equal length) in A. rewrite Hsame, length_app in A. simpl in A. lia.
  - rewrite B in Hs. apply alter_try_stop_out in Hs as (src0 & Hs & Hout).
    rewrite Hout. destruct (Hkeep s src0 Hs D) as (g & node' & H1 & H2 & H3 & H4).
    exists g, node'. auto.
Qed.

End Faded.

Section Regains.
Variable cfg : Config.
Hypothesis fade_nonneg : (0 <= fadeMs cfg)%Q.

(** An operation that keeps the current pad and leaves every
    automation but the master gain's alone. *)
Lemma regain_frame e e' :
  (forall g node, gains e !! g = Some node ->
     exists node', gains e' !! g = Some node'
       /\ (events (gain node') = events (gain node) \/ masterGainRef e = Some g)) ->
  currentRef e' = currentRef e ->
  (masterGainRef e' = masterGainRef e
   \/ (masterGainRef e = None /\ sources e' = sources e
       /\ masterGainRef e' = Some (length (gains e)))) ->
  Regain e e'.
Proof.
  intros Hg Hc Hm. split; [|split; [|exact Hm]].
  - intros g node H. destruct (Hg g node H) as (node' & H1 & [H2|H2]); eauto.
  - intros og node' _ Hch. rewrite Hc in Hch. congruence.
Qed.

Lemma regain_same e e' :
  gains e' = gains e -> currentRef e' = currentRef e ->
  masterGainRef e' = masterGainRef e -> Regain e e'.
Proof.
  intros Hg Hc Hm. apply regain_frame; [|exact Hc|left; exact Hm].
  intros g node H. rewrite Hg. eauto.
Qed.

Lemma stop_regain e : Regain e (Volume.stop cfg e).
Proof.
  unfold Volume.stop.
  destruct (ctxRef e) as [ctx|] eqn:Hc; [|apply regain_same; reflexivity].
  destruct (pad_gain (currentRef e)) as [pg|] eqn:Hg; [|apply regain_same; reflexivity].
  destruct (pad_src (currentRef e)) as [ps|] eqn:Hs; [|apply regain_same; reflexivity].
  assert (Hf : forall node0 node', alter
                 (on_gain (fun p =>
                    let p1 := cancelScheduledValues (currentTime ctx) p in
                    let p2 := setValueAtTime (value p1) (currentTime ctx) p1 in
                    linearRampToValueAtTime 0 (currentTime ctx + fadeMs cfg / 1000)%Q p2))
                 pg (gains e) !! pg = Some node' ->
               gains e !! pg = Some node0 -> fading node').
  { intros node0 node' H H0. rewrite list_lookup_alter_eq, H0 in H. injection H as <-.
    eapply (fading_ramp _ (value (gain node0)) (currentTime ctx) _ (gain node0));
      [reflexivity | apply fade_end_le, fade_nonneg]. }
  split; [|split; [|left; reflexivity]]; simpl.
  - intros g node H. destruct (decide (pg = g)) as [->|Hne].
    + destruct (lookup_lt_is_Some_2
                  (alter (on_gain (fun p =>
                     let p1 := cancelScheduledValues (currentTime ctx) p in
                     let p2 := setValueAtTime (value p1) (currentTime ctx) p1 in
                     linearRampToValueAtTime 0 (currentTime ctx + fadeMs cfg / 1000)%Q p2))
                     g (gains e)) g) as [node' Hn].
      { rewrite length_alter. eapply lookup_lt_Some, H. }
      exists node'. split; [exact Hn|]. right. right. split; [exact Hg|].
      eapply Hf; eassumption.
    + rewrite list_lookup_alter_ne by exact Hne. eauto.
  - intros og node' Hog _ Hn. rewrite Hg in Hog. injection Hog as <-.
    destruct (lookup_lt_is_Some_2 (gains e) pg) as [node0 H0].
    { apply lookup_lt_Some in Hn. rewrite length_alter in Hn. exact Hn. }
    eapply Hf; eassumption.
Qed.

Lemma playKey_regain key e :
  (forall m, masterGainRef e = Some m -> is_Some (ctxRef e)) ->
  Regain e (Volume.playKey cfg key e).
Proof.
  intros Hmc.
  destruct (Js.strict_eq (pad_key (currentRef e)) key) eqn:Hk.
  - unfold Volume.playKey. rewrite Hk. apply stop_regain.
  - destruct (playKey_select cfg key e Hk) as (_ & _ & Hc & Hs & _ & _ & _ & _ & Hg & _).
    apply regain_frame; [|exact Hc|].
    + intros g node H. exists node. split; [apply Hg, H | left; reflexivity].
    + destruct (masterGainRef e) as [m|] eqn:Hm.
      * destruct (Hmc m eq_refl) as [ctx Hctx]. left.
        unfold Volume.playKey, Volume.loadBuffer, Volume.ensureCtx.
        rewrite Hk. paths.
      * destruct (ctxRef e) as [ctx|] eqn:Hctx.
        -- left. unfold Volume.playKey, Volume.loadBuffer, Volume.ensureCtx.
           rewrite Hk. paths.
        -- right. split; [reflexivity|]. split; [exact Hs|].
           unfold Volume.playKey, Volume.loadBuffer, Volume.ensureCtx.
           rewrite Hk. paths.
Qed.

Lemma setVolume_regain level e : Regain e (Volume.setVolume level e).
Proof.
  unfold Volume.setVolume, Volume.volume_effect.
  destruct (Qeq_bool level (volume e)); [apply regain_same; reflexivity|]. simpl.
  destruct (masterGainRef e) as [m|] eqn:Hm; [|apply regain_same; simpl; auto].
  destruct (ctxRef e) as [ctx|]; [|apply regain_same; simpl; auto].
  apply regain_frame; simpl; [|reflexivity|left; reflexivity].
  intros g node H. destruct (decide (m = g)) as [->|Hne].
  - rewrite list_lookup_alter_eq, H. simpl. eauto.
  - rewrite list_lookup_alter_ne by exact Hne. eauto.
Qed.

Lemma advance_clock_regain t e : Regain e (advance_clock t e).
Proof.
  unfold advance_clock.
  destruct (ctxRef e) as [ctx|]; [|apply regain_same; reflexivity].
  destruct (Qle_bool (currentTime ctx) t); [|apply regain_same; reflexivity].
  apply regain_frame; simpl; [|reflexivity|left; reflexivity].
  intros g node H. rewrite list_lookup_fmap, H. simpl. eauto.
Qed.

Lemma fire_timer_regain i e : Regain e (fire_timer i e).
Proof.
  unfold fire_timer. destruct (timers e !! i); apply regain_same; reflexivity.
Qed.

Lemma context_state_regain st e : Regain e (context_state st e).
Proof.
  unfold context_state. destruct (ctxRef e); apply regain_same; reflexivity.
Qed.

Lemma regain_app e e' n :
  gains e' = gains e ++ [n] ->
  pad_gain (currentRef e) = None \/ currentRef e' = currentRef e ->
  masterGainRef e' = masterGainRef e -> Regain e e'.
Proof.
  intros Hg Hc Hm. split; [|split; [|left; exact Hm]].
  - intros g node H. exists node. rewrite Hg.
    split; [eapply lookup_app_l_Some, H | left; reflexivity].
  - intros og node' Hog Hch. destruct Hc as [Hc|Hc]; [congruence|].
    rewrite Hc in Hch. congruence.
Qed.

Lemma regain_alter_app e e' og n (F : AudioParam -> AudioParam) :
  pad_gain (currentRef e) = Some og ->
  gains e' = alter (on_gain F) og (gains e ++ [n]) ->
  (forall node0, fading (on_gain F node0)) ->
  masterGainRef e' = masterGainRef e -> Regain e e'.
Proof.
  intros Hog Hg HF Hm. split; [|split; [|left; exact Hm]].
  - intros g node H. rewrite Hg.
    pose proof (lookup_app_l_Some _ [n] _ _ H) as H'.
    destruct (decide (og = g)) as [->|Hne].
    + rewrite list_lookup_alter_eq, H'. simpl. eexists. split; [reflexivity|].
      right. right. split; [exact Hog | apply HF].
    + rewrite list_lookup_alter_ne by exact Hne. eauto.
  - intros og' node' Hog' _ Hn. assert (og' = og) by congruence. subst og'.
    rewrite Hg, list_lookup_alter_eq in Hn.
    destruct ((gains e ++ [n]) !! og) as [node0|]; [|discriminate].
    injection Hn as <-. apply HF.
Qed.

Lemma ramp_down_fading (t0 : Q) (node0 : GainNode) :
  fading (on_gain (fun p => let startVal := value p in
                            ramp startVal 0 t0 (t0 + fadeMs cfg / 1000)%Q p) node0).
Proof.
  eapply (fading_ramp _ (value (gain node0)) t0 _ (gain node0));
    [reflexivity | apply fade_end_le, fade_nonneg].
Qed.

Lemma resume_regain op o e :
  currentRef e = no_pad \/ full_pad e ->
  Regain e (Volume.playKey_resume cfg op o e).
Proof.
  intros Hcur.
  assert (Hpad : forall g, pad_gain (currentRef e) = Some g ->
                           pad_src (currentRef e) = None -> False).
  { intros g Hg Hs. destruct Hcur as [H|(k & s & g' & H & _)];
      rewrite H in Hg, Hs; discriminate. }
  unfold Volume.playKey_resume, loadBuffer_settle, Volume.playKey_catch.
  paths;
    first [ apply regain_same; reflexivity
          | exfalso; eapply Hpad; first [eassumption | reflexivity]
          | eapply regain_app;
            [ reflexivity
            | first [left; assumption | right; reflexivity]
            | reflexivity ]
          | eapply regain_alter_app;
            [ eassumption | reflexivity | apply ramp_down_fading | reflexivity ] ].
Qed.

Lemma settle_regain i o e :
  currentRef e = no_pad \/ full_pad e ->
  Regain e (Volume.settle cfg i o e).
Proof.
  intros Hcur. unfold Volume.settle.
  destruct (pending e !! i) as [op|]; [|apply regain_same; reflexivity].
  destruct (resume_regain op o (set_pending (delete i (pending e)) e))
    as (R1 & R2 & R3).
  { destruct Hcur as [H|(k & s & g & H & H')]; [left; exact H|].
    right. exists k, s, g. split; [exact H | exact H']. }
  split; [exact R1|]. split; [exact R2 | exact R3].
Qed.

Lemma Volume_step_regain e ev :
  wf e -> routed e -> Regain e (Volume.step cfg e ev).
Proof.
  intros Hwf Hr. destruct ev as [i| |p|i o|i|t|st]; simpl.
  - destruct (Volume.KEYS !! i); [|apply regain_same; reflexivity].
    apply playKey_regain. intros m Hm. unfold routed in Hr. rewrite Hm in Hr. apply Hr.
  - apply stop_regain.
  - destruct (p <=? 100); [apply setVolume_regain | apply regain_same; reflexivity].
  - apply settle_regain, Hwf.
  - apply fire_timer_regain.
  - apply advance_clock_regain.
  - apply context_state_regain.
Qed.

Lemma faded_ok_run evs e :
  wf e -> routed e -> faded_ok e -> faded_ok (Volume.run cfg evs e).
Proof.
  revert e. induction evs as [|ev evs IH]; intros e Hwf Hr Hok; simpl; [exact Hok|].
  apply IH; [apply wf_step, Hwf | apply routed_step; assumption |].
  eapply faded_ok_preserved;
    [apply step_effect, Hwf | apply Volume_step_regain; assumption | apply Hwf | exact Hok].
Qed.

(** The simpler hook fades the new pad in after it has faded the old
    one out: one more ramp, on the node just created. *)
Lemma regain_new_alter e e' e'' (F : AudioParam -> AudioParam) :
  Regain e e' ->
  gains e'' = alter (on_gain F) (length (gains e)) (gains e') ->
  currentRef e'' = currentRef e' ->
  masterGainRef e'' = masterGainRef e' ->
  sources e'' = sources e' ->
  (forall og, pad_gain (currentRef e) = Some og -> og < length (gains e)) ->
  Regain e e''.
Proof.
  intros (R1 & R2 & R3) Hg Hc Hm Hs Hlt. split; [|split].
  - intros g node H. destruct (R1 g node H) as (node' & H1 & H2).
    exists node'. split; [|exact H2]. rewrite Hg, list_lookup_alter_ne; [exact H1|].
    apply lookup_lt_Some in H. lia.
  - intros og node' Hog Hch Hn. specialize (Hlt og Hog).
    rewrite Hg, list_lookup_alter_ne in Hn by lia.
    eapply R2; [exact Hog | rewrite <- Hc; exact Hch | exact Hn].
  - rewrite Hm, Hs. exact R3.
Qed.

Lemma Simple_resume_regain op o e :
  currentRef e = no_pad \/ full_pad e ->
  Regain e (Simple.playKey_resume cfg op o e).
Proof.
  intros Hcur.
  assert (Hpad : forall g, pad_gain (currentRef e) = Some g ->
                           pad_src (currentRef e) = None -> False).
  { intros g Hg Hs. destruct Hcur as [H|(k & s & g' & H & _)];
      rewrite H in Hg, Hs; discriminate. }
  assert (Hpad' : forall s, pad_src (currentRef e) = Some s ->
                            pad_gain (currentRef e) = None -> False).
  { intros g Hg Hs. destruct Hcur as [H|(k & s & g' & H & _)];
      rewrite H in Hg, Hs; discriminate. }
  assert (Hnone : pad_src (currentRef e) = None -> pad_gain (currentRef e) = None).
  { intros Hs. destruct Hcur as [H|(k & s & g' & H & _)]; rewrite H in *;
      [reflexivity | discriminate]. }
  assert (Hlt : forall og, pad_gain (currentRef e) = Some og -> og < length (gains e)).
  { intros og Hog. destruct Hcur as [H|(k & s & g' & H & _ & Hg & _)];
      rewrite H in Hog; [discriminate|]. injection Hog as <-. exact Hg. }
  unfold Simple.playKey_resume, loadBuffer_settle, Simple.playKey_catch, Simple.fade.
  paths;
    first [ apply regain_same; reflexivity
          | exfalso; eapply Hpad; first [eassumption | reflexivity]
          | exfalso; eapply Hpad'; first [eassumption | reflexivity]
          | match goal with
            | |- Regain ?e0 (set_currentRef ?pad
                              (set_gains (alter (on_gain ?F) (length (gains ?e0)) ?L) ?rest)) =>
                apply (regain_new_alter e0 (set_currentRef pad rest) _ F);
                [ first [ eapply regain_alter_app;
                          [ eassumption | reflexivity
                          | intros node0;
                            eapply (fading_ramp _ _ _ _ (gain node0));
                            [reflexivity | apply fade_end_le, fade_nonneg]
                          | reflexivity ]
                        | eapply regain_app;
                          [ reflexivity
                          | left; first [assumption | apply Hnone; reflexivity]
                          | reflexivity ] ]
                | reflexivity | reflexivity | reflexivity | reflexivity
                | intros og Hog; apply Hlt; congruence ]
            end ].
Qed.

Lemma Simple_step_regain e ev :
  wf_simple e -> Regain e (Simple.step cfg e ev).
Proof.
  intros (_ & Hcur). destruct ev as [i|i o|i|t|st]; simpl.
  - destruct (Simple.KEYS !! i); [|apply regain_same; reflexivity].
    apply regain_same; unfold Simple.playKey, Simple.loadBuffer, Simple.ensureCtx; paths.
  - unfold Simple.settle.
    destruct (pending e !! i) as [op|]; [|apply regain_same; reflexivity].
    destruct (Simple_resume_regain op o (set_pending (delete i (pending e)) e))
      as (R1 & R2 & R3).
    { destruct Hcur as [H|(k & s & g & H & H')]; [left; exact H|].
      right. exists k, s, g. split; [exact H | exact H']. }
    split; [exact R1|]. split; [exact R2 | exact R3].
  - apply fire_timer_regain.
  - apply advance_clock_regain.
  - apply context_state_regain.
Qed.

Lemma Simple_step_master e ev :
  masterGainRef (Simple.step cfg e ev) = masterGainRef e.
Proof.
  destruct ev as [i|i o|i|t|st]; simpl.
  - destruct (Simple.KEYS !! i); [|reflexivity].
    unfold Simple.playKey, Simple.loadBuffer, Simple.ensureCtx. paths.
  - unfold Simple.settle, Simple.playKey_resume, loadBuffer_settle, Simple.playKey_catch,
      Simple.fade. paths.
  - unfold fire_timer. paths.
  - unfold advance_clock. paths.
  - unfold context_state. paths.
Qed.

Lemma Simple_faded_ok_run evs e :
  wf_simple e -> masterGainRef e = None -> faded_ok e ->
  faded_ok (Simple.run cfg evs e).
Proof.
  revert e. induction evs as [|ev evs IH]; intros e Hwf Hm Hok; simpl; [exact Hok|].
  apply IH; [apply ws_step, Hwf | rewrite Simple_step_master; exact Hm |].
  eapply faded_ok_preserved;
    [apply Simple_step_effect, Hwf | apply Simple_step_regain, Hwf | | exact Hok].
  intros m H. congruence.
Qed.

End Regains.

(** A gain node that is fading is silent from the end of its ramp on. *)
Lemma fading_silent (node : GainNode) :
  fading node -> exists t1, forall t, (t1 <= t)%Q -> value_at (gain node) t = 0%Q.
Proof.
  intros (pre & v & t0 & t1 & He & H01 & Hpre). exists t1. intros t Ht.
  unfold value_at. rewrite He.
  rewrite timeline_skip; [|eapply Forall_impl; [exact Hpre|]; simpl; intros ev Hev
                          |eapply Qle_trans; eassumption].
  - simpl. apply Qltb_false in Ht. rewrite Ht. reflexivity.
  - eapply Qle_trans; [exact Hev|]. eapply Qle_trans; eassumption.
Qed.

(** X15. With a fade time that is not negative, on every page either
    hook reaches: each source feeds a gain node of the page that is not
    the master gain; the current pad's source feeds the current pad's
    gain node; and the gain node of every other source has been faded
    out, its automation ending in a ramp down to 0 with nothing
    scheduled after it, so that it is silent from the end of that ramp
    on.  Only the current pad can be heard in the long run. *)
Theorem X15_every_other_pad_is_faded_out
    (cfg : Config) (evs : list Volume.Event) (simple_evs : list Simple.Event)
    (allowed : bool) :
  (0 <= fadeMs cfg)%Q ->
  faded_ok (Volume.run cfg evs (mount cfg allowed))
  /\ faded_ok (Simple.run cfg simple_evs (mount cfg allowed))
  /\ (forall node, fading node ->
        exists t1, forall t, (t1 <= t)%Q -> value_at (gain node) t = 0%Q).
Proof.
  intros Hfade. split; [|split].
  - apply faded_ok_run; [exact Hfade | apply wf_mount | reflexivity |].
    intros s src Hs. destruct s; discriminate Hs.
  - apply Simple_faded_ok_run; [exact Hfade | apply ws_mount | reflexivity |].
    intros s src Hs. destruct s; discriminate Hs.
  - apply fading_silent.
Qed.

Lemma X15_every_other_pad_is_faded_out_witness :
  let e := Volume.run Volume.defaults
             [Volume.ClickKey 0; Volume.Settles 0 (Decoded 7);
              Volume.ClickKey 2; Volume.Settles 0 (Decoded 9)]
             (mount Volume.defaults true) in
  pad_src (currentRef e) = Some 1
  /\ length (sources e) = 2
  /\ faded_ok e.
Proof.
  intros e. split; [vm_compute; reflexivity|]. split; [vm_compute; reflexivity|].
  destruct (X15_every_other_pad_is_faded_out Volume.defaults
              [Volume.ClickKey 0; Volume.Settles 0 (Decoded 7);
               Volume.ClickKey 2; Volume.Settles 0 (Decoded 9)]
              [] true) as (H & _).
  - unfold Qle. simpl. lia.
  - exact H.
Defined.

(** ** Before the first click on a key *)

Section Idle.
Variable cfg : Config.

Lemma Volume_idle_step allowed v ev :
  Volume_is_click ev = false ->
  exists v', Volume.step cfg (set_volume v (mount cfg allowed)) ev
             = set_volume v' (mount cfg allowed).
Proof.
  intros Hev. destruct ev as [i| |p|i o|i|t|st]; simpl in *.
  - discriminate Hev.
  - exists v. reflexivity.
  - destruct (p <=? 100); [|exists v; reflexivity].
    unfold Volume.setVolume. simpl.
    destruct (Qeq_bool (Z.of_nat p # 100) v); [exists v | eexists]; reflexivity.
  - exists v. reflexivity.
  - exists v. reflexivity.
  - exists v. reflexivity.
  - exists v. reflexivity.
Qed.

Lemma Volume_idle_run allowed evs v :
  forallb (fun ev => negb (Volume_is_click ev)) evs = true ->
  exists v', Volume.run cfg evs (set_volume v (mount cfg allowed))
             = set_volume v' (mount cfg allowed).
Proof.
  revert v. induction evs as [|ev evs IH]; intros v H; simpl in *.
  - exists v. reflexivity.
  - apply andb_true_iff in H as [Hev H]. apply negb_true_iff in Hev.
    destruct (Volume_idle_step allowed v ev Hev) as (v' & ->). apply IH, H.
Qed.

Lemma Simple_idle_run allowed evs :
  forallb (fun ev => negb (Simple_is_click ev)) evs = true ->
  Simple.run cfg evs (mount cfg allowed) = mount cfg allowed.
Proof.
  induction evs as [|ev evs IH]; intros H; simpl in *; [reflexivity|].
  apply andb_true_iff in H as [Hev H]. apply negb_true_iff in Hev.
  assert (Hstep : Simple.step cfg (mount cfg allowed) ev = mount cfg allowed).
  { destruct ev as [i|i o|i|t|st]; simpl in *; try reflexivity. discriminate Hev. }
  rewrite Hstep. apply IH, H.
Qed.

(** X16. Nothing touches the audio before the first click on a key:
    along a run without such a click (stops, moves of the slider,
    timers, clock ticks and changes of the context state only) neither
    hook creates a context, a node or a timer, fetches or logs
    anything; the page stays as mounted, except that the hook with
    volume stores the level the slider was moved to. *)
Theorem X16_nothing_happens_before_the_first_key
    (evs : list Volume.Event) (simple_evs : list Simple.Event) (allowed : bool) :
  forallb (fun ev => negb (Volume_is_click ev)) evs = true ->
  forallb (fun ev => negb (Simple_is_click ev)) simple_evs = true ->
  (exists level, Volume.run cfg evs (mount cfg allowed)
                 = set_volume level (mount cfg allowed))
  /\ ctxRef (Volume.run cfg evs (mount cfg allowed)) = None
  /\ fetched (Volume.run cfg evs (mount cfg allowed)) = []
  /\ Simple.run cfg simple_evs (mount cfg allowed) = mount cfg allowed.
Proof.
  intros Hv Hs.
  destruct (Volume_idle_run allowed evs (initialVolume cfg) Hv) as (level & H).
  change (set_volume (initialVolume cfg) (mount cfg allowed)) with (mount cfg allowed) in H.
  rewrite H. split; [exists level; reflexivity|].
  split; [reflexivity|]. split; [reflexivity|]. apply Simple_idle_run, Hs.
Qed.

End Idle.

Lemma X16_nothing_happens_before_the_first_key_witness :
  Volume.run Volume.defaults
    [Volume.ClickStop; Volume.Slide 30; Volume.Clock 1; Volume.Settles 0 ResponseNotOk]
    (mount Volume.defaults false)
  = set_volume (30 # 100)%Q (mount Volume.defaults false)
  /\ Simple.run Volume.defaults [Simple.Clock 1; Simple.TimerFires 0]
       (mount Volume.defaults false)
     = mount Volume.defaults false.
Proof.
  destruct (X16_nothing_happens_before_the_first_key Volume.defaults
              [Volume.ClickStop; Volume.Slide 30; Volume.Clock 1;
               Volume.Settles 0 ResponseNotOk]
              [Simple.Clock 1; Simple.TimerFires 0] false)
    as (_ & _ & _ & HS); [reflexivity | reflexivity |].
  split; [vm_compute; reflexivity | exact HS].
Defined.
